(** * go-sdk-bitpin: the authenticated request pipeline

    A shallow embedding of the Bitpin client SDK: the query encoder
    ([utils.StructToURLParams]), the token codec ([utils.JWT],
    [utils.DecodeJWT]), the error normalizer ([parseErrorResponse]) and the
    request pipeline of the client ([Client.Request], [handleAutoRefresh],
    [Authenticate], [RefreshAccessToken], [NewClient]).

    Go strings are byte strings and are modelled by [string] (a list of
    8-bit characters); Go's [int] is taken to be the 64-bit one and is
    modelled by [Z]; Go maps keyed by strings are [gmap string _]. *)

From Stdlib Require Import ZArith String Ascii List Lia Bool.
From Stdlib Require Import Sorting.Sorted.
From stdpp Require Import base option gmap strings pretty.
Import ListNotations.
Local Open Scope string_scope.
Local Open Scope Z_scope.

(** ** Bytes *)

Module Bytes.

Definition byte_val (c : ascii) : Z := Z.of_N (N_of_ascii c).

Definition byte_of (z : Z) : ascii := ascii_of_N (Z.to_N (z mod 256)).

Definition in_range (lo hi : Z) (c : ascii) : bool :=
  (lo <=? byte_val c) && (byte_val c <=? hi).

Definition of_rev (acc : list ascii) : string :=
  string_of_list_ascii (rev acc).

Definition is_digit (c : ascii) : bool := in_range 48 57 c.

Definition is_hex (c : ascii) : bool :=
  is_digit c || in_range 97 102 c || in_range 65 70 c.

Definition hex_val (c : ascii) : Z :=
  if is_digit c then byte_val c - 48
  else if in_range 97 102 c then byte_val c - 87
  else byte_val c - 55.

(** The character with code 34, which a string literal cannot hold. *)
Definition dquote : ascii := "034"%char.

(** [jq s] is [s] with every apostrophe replaced by a double quote: JSON
    texts are written with apostrophes in this file. *)
Fixpoint jq (s : string) : string :=
  match s with
  | EmptyString => EmptyString
  | String c s' => String (if Ascii.eqb c "'"%char then dquote else c) (jq s')
  end.

(** [utf8.AppendRune]: the UTF-8 encoding of a code point, most significant
    byte first in the result; surrogates and values beyond U+10FFFF are
    encoded as U+FFFD. *)
Definition utf8_encode (r : Z) : list ascii :=
  if r <? 128 then [byte_of r]
  else if r <? 2048 then
    [byte_of (192 + r / 64); byte_of (128 + r mod 64)]
  else if ((55296 <=? r) && (r <=? 57343)) || (1114111 <? r) then
    [byte_of 239; byte_of 191; byte_of 189]
  else if r <? 65536 then
    [byte_of (224 + r / 4096); byte_of (128 + (r / 64) mod 64);
     byte_of (128 + r mod 64)]
  else
    [byte_of (240 + r / 262144); byte_of (128 + (r / 4096) mod 64);
     byte_of (128 + (r / 64) mod 64); byte_of (128 + r mod 64)].

Definition replacement : list ascii := utf8_encode 65533.

End Bytes.

(** ** encoding/json: scanning and decoding

    The error normalizer, the token codec and the pipeline all go through
    [json.Unmarshal].  Its decoder is modelled in three layers: a scanner
    that cuts the text into tokens (the states follow those of the
    library's scanner), a stack machine that builds the value tree and
    rejects what the JSON grammar rejects, and one typed decoder per Go
    target type used in the client. *)

Module Json.
Import Bytes.

#[local] Unset Elimination Schemes.
Inductive json :=
| JNull
| JBool (b : bool)
| JNum (lit : string)
| JStr (s : string)
| JArr (items : list json)
| JObj (members : list (string * json)).
#[local] Set Elimination Schemes.

(** *** Scanner *)

Inductive token :=
| TLBrace | TRBrace | TLBrack | TRBrack | TColon | TComma
| TString (raw : list ascii)
| TNumber (lit : list ascii)
| TTrue | TFalse | TNull.

(** States inside a number literal: [stateNeg], [state0], [state1],
    [stateDot], [stateDot0], [stateE], [stateESign], [stateE0]. *)
Inductive num_state := NNeg | N0 | N1 | NDot | NDot0 | NE | NESign | NE0.

Inductive lex_state :=
| LIdle
| LStr (acc : list ascii)
| LStrEsc (acc : list ascii)
| LStrU (k : nat) (acc : list ascii)
| LNum (st : num_state) (acc : list ascii)
| LLit (rest : list ascii) (t : token).

Definition is_space (c : ascii) : bool :=
  let b := byte_val c in
  (b =? 32) || (b =? 9) || (b =? 13) || (b =? 10).

Definition num_final (st : num_state) : bool :=
  match st with
  | N0 | N1 | NDot0 | NE0 => true
  | _ => false
  end.

(** One step inside a number; [None] when [c] does not continue it. *)
Definition num_step (st : num_state) (c : ascii) : option num_state :=
  let b := byte_val c in
  let e := (b =? 101) || (b =? 69) in
  match st with
  | NNeg => if b =? 48 then Some N0 else if in_range 49 57 c then Some N1 else None
  | N0 => if b =? 46 then Some NDot else if e then Some NE else None
  | N1 => if is_digit c then Some N1
          else if b =? 46 then Some NDot else if e then Some NE else None
  | NDot => if is_digit c then Some NDot0 else None
  | NDot0 => if is_digit c then Some NDot0 else if e then Some NE else None
  | NE => if (b =? 43) || (b =? 45) then Some NESign
          else if is_digit c then Some NE0 else None
  | NESign => if is_digit c then Some NE0 else None
  | NE0 => if is_digit c then Some NE0 else None
  end.

(** The scanner at the beginning of a token. *)
Definition lex_begin (c : ascii) (out : list token) : option (lex_state * list token) :=
  let b := byte_val c in
  if is_space c then Some (LIdle, out)
  else if b =? 123 then Some (LIdle, TLBrace :: out)
  else if b =? 125 then Some (LIdle, TRBrace :: out)
  else if b =? 91 then Some (LIdle, TLBrack :: out)
  else if b =? 93 then Some (LIdle, TRBrack :: out)
  else if b =? 58 then Some (LIdle, TColon :: out)
  else if b =? 44 then Some (LIdle, TComma :: out)
  else if b =? 34 then Some (LStr [], out)
  else if b =? 45 then Some (LNum NNeg [c], out)
  else if b =? 48 then Some (LNum N0 [c], out)
  else if in_range 49 57 c then Some (LNum N1 [c], out)
  else if b =? 116 then Some (LLit (list_ascii_of_string "rue") TTrue, out)
  else if b =? 102 then Some (LLit (list_ascii_of_string "alse") TFalse, out)
  else if b =? 110 then Some (LLit (list_ascii_of_string "ull") TNull, out)
  else None.

(** Tokens are accumulated most recent first, and so are the bytes of the
    token being read. *)
Definition lex_step (st : lex_state) (out : list token) (c : ascii)
  : option (lex_state * list token) :=
  let b := byte_val c in
  match st with
  | LIdle => lex_begin c out
  | LStr acc =>
      if b =? 34 then Some (LIdle, TString (rev acc) :: out)
      else if b =? 92 then Some (LStrEsc (c :: acc), out)
      else if b <? 32 then None
      else Some (LStr (c :: acc), out)
  | LStrEsc acc =>
      if (b =? 98) || (b =? 102) || (b =? 110) || (b =? 114) || (b =? 116)
         || (b =? 92) || (b =? 47) || (b =? 34)
      then Some (LStr (c :: acc), out)
      else if b =? 117 then Some (LStrU 4 (c :: acc), out)
      else None
  | LStrU k acc =>
      if is_hex c then
        match k with
        | S (S k') => Some (LStrU (S k') (c :: acc), out)
        | _ => Some (LStr (c :: acc), out)
        end
      else None
  | LNum ns acc =>
      match num_step ns c with
      | Some ns' => Some (LNum ns' (c :: acc), out)
      | None =>
          if num_final ns then lex_begin c (TNumber (rev acc) :: out) else None
      end
  | LLit rest t =>
      match rest with
      | [] => None
      | [r] => if Ascii.eqb c r then Some (LIdle, t :: out) else None
      | r :: rest' => if Ascii.eqb c r then Some (LLit rest' t, out) else None
      end
  end.

Fixpoint lex_run (st : lex_state) (out : list token) (s : string)
  : option (lex_state * list token) :=
  match s with
  | EmptyString => Some (st, out)
  | String c s' =>
      match lex_step st out c with
      | Some (st', out') => lex_run st' out' s'
      | None => None
      end
  end.

(** The end of the input: only between tokens, or after a complete number. *)
Definition lex_eof (st : lex_state) (out : list token) : option (list token) :=
  match st with
  | LIdle => Some (rev out)
  | LNum ns acc => if num_final ns then Some (rev (TNumber (rev acc) :: out)) else None
  | _ => None
  end.

Definition tokens (s : string) : option (list token) :=
  match lex_run LIdle [] s with
  | Some (st, out) => lex_eof st out
  | None => None
  end.

(** *** String literals ([unquote])

    The bytes between the quotes of a literal the scanner accepted are
    turned into the Go string: escapes are interpreted, a [\u] escape
    becomes the UTF-8 encoding of its code point (two escapes forming a
    surrogate pair become one code point, an unpaired surrogate becomes
    U+FFFD), and bytes that are not well-formed UTF-8 are replaced by
    U+FFFD one byte at a time. *)

Inductive unq_state :=
| UNorm
| UEsc
| UHex (k : nat) (v : Z) (hi : option Z)
| UPend (h : Z)
| UPendEsc (h : Z)
| UUtf (buf : list ascii) (remaining : nat) (lo hi : Z).

Definition emit (bs : list ascii) (out : list ascii) : list ascii :=
  (rev bs ++ out)%list.

Fixpoint emit_replacements (n : nat) (out : list ascii) : list ascii :=
  match n with
  | O => out
  | S n' => emit_replacements n' (emit replacement out)
  end.

Definition is_surrogate (r : Z) : bool := (55296 <=? r) && (r <? 57344).

(** [utf16.DecodeRune]. *)
Definition surrogate_pair (r1 r2 : Z) : option Z :=
  if (55296 <=? r1) && (r1 <? 56320) && (56320 <=? r2) && (r2 <? 57344)
  then Some ((r1 - 55296) * 1024 + (r2 - 56320) + 65536)
  else None.

(** The first byte of a UTF-8 sequence: how many bytes follow and the
    range of the second byte ([utf8.first] and [utf8.acceptRanges]). *)
Definition utf8_lead (c : ascii) : option (nat * Z * Z) :=
  let b := byte_val c in
  if (194 <=? b) && (b <=? 223) then Some (1%nat, 128, 191)
  else if b =? 224 then Some (2%nat, 160, 191)
  else if b =? 237 then Some (2%nat, 128, 159)
  else if (225 <=? b) && (b <=? 239) then Some (2%nat, 128, 191)
  else if b =? 240 then Some (3%nat, 144, 191)
  else if (241 <=? b) && (b <=? 243) then Some (3%nat, 128, 191)
  else if b =? 244 then Some (3%nat, 128, 143)
  else None.

Definition unq_norm (c : ascii) (out : list ascii) : unq_state * list ascii :=
  let b := byte_val c in
  if b =? 92 then (UEsc, out)
  else if b <? 128 then (UNorm, c :: out)
  else match utf8_lead c with
       | Some (n, lo, hi) => (UUtf [c] n lo hi, out)
       | None => (UNorm, emit replacement out)
       end.

Definition unq_esc (c : ascii) (out : list ascii) : unq_state * list ascii :=
  let b := byte_val c in
  if b =? 117 then (UHex 4 0 None, out)
  else if b =? 98 then (UNorm, byte_of 8 :: out)
  else if b =? 102 then (UNorm, byte_of 12 :: out)
  else if b =? 110 then (UNorm, byte_of 10 :: out)
  else if b =? 114 then (UNorm, byte_of 13 :: out)
  else if b =? 116 then (UNorm, byte_of 9 :: out)
  else (UNorm, c :: out).

(** A complete [\u] escape with value [rr], no surrogate pending. *)
Definition unq_rune (rr : Z) (out : list ascii) : unq_state * list ascii :=
  if is_surrogate rr then (UPend rr, out)
  else (UNorm, emit (utf8_encode rr) out).

Definition unq_step (st : unq_state) (out : list ascii) (c : ascii)
  : unq_state * list ascii :=
  match st with
  | UNorm => unq_norm c out
  | UEsc => unq_esc c out
  | UHex k v hi =>
      let v' := v * 16 + hex_val c in
      match k with
      | S (S k') => (UHex (S k') v' hi, out)
      | _ =>
          match hi with
          | None => unq_rune v' out
          | Some h =>
              match surrogate_pair h v' with
              | Some dec => (UNorm, emit (utf8_encode dec) out)
              | None => unq_rune v' (emit replacement out)
              end
          end
      end
  | UPend h =>
      if byte_val c =? 92 then (UPendEsc h, out)
      else unq_norm c (emit replacement out)
  | UPendEsc h =>
      if byte_val c =? 117 then (UHex 4 0 (Some h), out)
      else unq_esc c (emit replacement out)
  | UUtf buf n lo hi =>
      if in_range lo hi c then
        match n with
        | S (S n') => (UUtf (c :: buf) (S n') 128 191, out)
        | _ => (UNorm, (c :: buf ++ out)%list)
        end
      else unq_norm c (emit_replacements (length buf) out)
  end.

Fixpoint unq_run (st : unq_state) (out : list ascii) (raw : list ascii)
  : unq_state * list ascii :=
  match raw with
  | [] => (st, out)
  | c :: raw' => let '(st', out') := unq_step st out c in unq_run st' out' raw'
  end.

Definition unquote (raw : list ascii) : string :=
  match unq_run UNorm [] raw with
  | (UPend _, out) => of_rev (emit replacement out)
  | (UUtf buf _ _ _, out) => of_rev (emit_replacements (length buf) out)
  | (_, out) => of_rev out
  end.

(** *** Values *)

Inductive frame :=
| FArr (acc : list json)
| FObj (acc : list (string * json)) (key : option string).

Inductive pstate :=
| PValue
| PValueOrEnd
| PKeyOrEnd
| PKey
| PColon
| PEndValue
| PDone (v : json).

(** The scanner refuses more than 10000 open arrays and objects. *)
Definition maxNestingDepth : Z := 10000.

(** A complete value goes to the container being read, or is the result. *)
Definition push_value (v : json) (stack : list frame) : option (pstate * list frame) :=
  match stack with
  | [] => Some (PDone v, [])
  | FArr acc :: stack' => Some (PEndValue, FArr (v :: acc) :: stack')
  | FObj acc (Some k) :: stack' => Some (PEndValue, FObj ((k, v) :: acc) None :: stack')
  | FObj _ None :: _ => None
  end.

Definition open_frame (f : frame) (st : pstate) (stack : list frame)
  : option (pstate * list frame) :=
  if Z.of_nat (length stack) <? maxNestingDepth then Some (st, f :: stack) else None.

Definition begin_value (t : token) (stack : list frame) : option (pstate * list frame) :=
  match t with
  | TLBrack => open_frame (FArr []) PValueOrEnd stack
  | TLBrace => open_frame (FObj [] None) PKeyOrEnd stack
  | TString raw => push_value (JStr (unquote raw)) stack
  | TNumber lit => push_value (JNum (string_of_list_ascii lit)) stack
  | TTrue => push_value (JBool true) stack
  | TFalse => push_value (JBool false) stack
  | TNull => push_value JNull stack
  | _ => None
  end.

Definition close_array (stack : list frame) : option (pstate * list frame) :=
  match stack with
  | FArr acc :: stack' => push_value (JArr (rev acc)) stack'
  | _ => None
  end.

Definition close_object (stack : list frame) : option (pstate * list frame) :=
  match stack with
  | FObj acc None :: stack' => push_value (JObj (rev acc)) stack'
  | _ => None
  end.

Definition read_key (t : token) (stack : list frame) : option (pstate * list frame) :=
  match t, stack with
  | TString raw, FObj acc None :: stack' =>
      Some (PColon, FObj acc (Some (unquote raw)) :: stack')
  | _, _ => None
  end.

Definition parse_step (st : pstate) (stack : list frame) (t : token)
  : option (pstate * list frame) :=
  match st with
  | PValue => begin_value t stack
  | PValueOrEnd =>
      match t with
      | TRBrack => close_array stack
      | _ => begin_value t stack
      end
  | PKeyOrEnd =>
      match t with
      | TRBrace => close_object stack
      | _ => read_key t stack
      end
  | PKey => read_key t stack
  | PColon =>
      match t with
      | TColon => Some (PValue, stack)
      | _ => None
      end
  | PEndValue =>
      match t, stack with
      | TComma, FArr _ :: _ => Some (PValue, stack)
      | TComma, FObj _ _ :: _ => Some (PKey, stack)
      | TRBrack, _ => close_array stack
      | TRBrace, _ => close_object stack
      | _, _ => None
      end
  | PDone _ => None
  end.

Fixpoint parse_run (st : pstate) (stack : list frame) (ts : list token)
  : option pstate :=
  match ts with
  | [] => Some st
  | t :: ts' =>
      match parse_step st stack t with
      | Some (st', stack') => parse_run st' stack' ts'
      | None => None
      end
  end.

(** [parse s] is the value of the JSON text [s], [None] when
    [json.Unmarshal] reports a syntax error. *)
Definition parse (s : string) : option json :=
  match tokens s with
  | Some ts =>
      match parse_run PValue [] ts with
      | Some (PDone v) => Some v
      | _ => None
      end
  | None => None
  end.

(** *** Typed decoding

    [json.Unmarshal] into a typed target fails when the text is not JSON or
    when some value does not fit the Go type it is decoded into (the
    decoder goes on after such a mismatch, but the call returns the error;
    the client never uses a target whose decoding failed, so the decoders
    return [None] for it).  [null] leaves a string or an integer as it was
    and makes a map or a slice nil. *)

(** A Go map [map[string]V]: [None] is the nil map. *)
Abbreviation gomap V := (option (gmap string V)).

Definition decode_string (cur : string) (v : json) : option string :=
  match v with
  | JStr s => Some s
  | JNull => Some cur
  | _ => None
  end.

(** [strconv.ParseInt(lit, 10, 64)] on a JSON number literal. *)
Fixpoint parse_digits (acc : Z) (s : string) : option Z :=
  match s with
  | EmptyString => Some acc
  | String c s' =>
      if is_digit c then parse_digits (acc * 10 + (byte_val c - 48)) s' else None
  end.

Definition parse_int64 (lit : string) : option Z :=
  let r :=
    match lit with
    | EmptyString => None
    | String c s' =>
        if byte_val c =? 45 then
          match s' with
          | EmptyString => None
          | _ => z ← parse_digits 0 s'; Some (- z)
          end
        else parse_digits 0 lit
    end in
  z ← r;
  if (- 2 ^ 63 <=? z) && (z <? 2 ^ 63) then Some z else None.

Definition decode_int (cur : Z) (v : json) : option Z :=
  match v with
  | JNum lit => parse_int64 lit
  | JNull => Some cur
  | _ => None
  end.

(** The elements of a [[]string]: an element that exists already is
    decoded in place, a new one starts as the empty string. *)
Fixpoint decode_strings (cur : list string) (items : list json) : option (list string) :=
  match items with
  | [] => Some []
  | v :: items' =>
      s ← decode_string (hd "" cur) v;
      rest ← decode_strings (tl cur) items';
      Some (s :: rest)
  end.

(** A [[]string]; the nil slice and the empty one are both [[]]: the
    client only takes the length and the elements of its slices. *)
Definition decode_string_slice (cur : list string) (v : json) : option (list string) :=
  match v with
  | JArr items => decode_strings cur items
  | JNull => Some []
  | _ => None
  end.

(** A [map[string]V] whose elements are decoded by [dec], each from the
    zero value; a key met twice keeps the later element. *)
Definition decode_members {V} (dec : json → option V) (m : gmap string V)
    (members : list (string * json)) : option (gmap string V) :=
  foldl (λ acc kv, m' ← acc; y ← dec kv.2; Some (<[kv.1 := y]> m')) (Some m) members.

Definition decode_map {V} (dec : json → option V) (cur : gomap V) (v : json)
  : option (gomap V) :=
  match v with
  | JObj members => Some <$> decode_members dec (default ∅ cur) members
  | JNull => Some None
  | _ => None
  end.

(** [foldName]: the key under which a field is found when no field has
    exactly the name.  ASCII letters go to upper case, and the two code
    points outside ASCII that fold to an ASCII letter, U+017F and U+212A,
    go to [S] and [K].  The field names of the client are all ASCII, so it
    only matters for other code points that they stay outside ASCII. *)
Fixpoint fold_name (s : string) : string :=
  match s with
  | EmptyString => EmptyString
  | String c s' =>
      let b := byte_val c in
      if in_range 97 122 c then String (byte_of (b - 32)) (fold_name s')
      else
        match s' with
        | String c1 s1 =>
            if (b =? 197) && (byte_val c1 =? 191) then String "S"%char (fold_name s1)
            else
              match s1 with
              | String c2 s2 =>
                  if (b =? 226) && (byte_val c1 =? 132) && (byte_val c2 =? 170)
                  then String "K"%char (fold_name s2)
                  else String c (fold_name s')
              | EmptyString => String c (fold_name s')
              end
        | EmptyString => String c EmptyString
        end
  end.

(** The field of a struct an object key goes to, among the json names
    [names] of the fields: the field of that exact name, or else the first
    one with the same folded name; [None] when the key is ignored. *)
Definition find_field (names : list string) (key : string) : option string :=
  match List.find (String.eqb key) names with
  | Some n => Some n
  | None => List.find (λ n, String.eqb (fold_name n) (fold_name key)) names
  end.

(** A struct: [set] stores the value of a member in the field named. *)
Definition decode_fields {T} (names : list string)
    (set : string → json → T → option T) (members : list (string * json)) (cur : T)
  : option T :=
  foldl (λ acc kv,
           t ← acc;
           match find_field names kv.1 with
           | Some n => set n kv.2 t
           | None => Some t
           end) (Some cur) members.

Definition decode_struct {T} (names : list string)
    (set : string → json → T → option T) (cur : T) (v : json) : option T :=
  match v with
  | JObj members => decode_fields names set members cur
  | JNull => Some cur
  | _ => None
  end.

(** [json.Unmarshal(data, &target)] for a decoder [dec] of the target. *)
Definition Unmarshal {T} (dec : T → json → option T) (data : string) (cur : T)
  : option T :=
  v ← parse data; dec cur v.

End Json.

(** ** Errors and the error normalizer *)

Module Errors.
Import Bytes Json.

(** The three error structs of the package; [E] is the type of Go's
    [error] values, tied below. *)
Record GoBitpinError_ (E : Type) := mkGoBitpinError {
  Message : string;
  Err : option E
}.
Arguments mkGoBitpinError {E}.
Arguments Message {E}.
Arguments Err {E}.

Record RequestError_ (E : Type) := mkRequestError {
  req_GoBitpinError : GoBitpinError_ E;
  Operation : string
}.
Arguments mkRequestError {E}.
Arguments req_GoBitpinError {E}.
Arguments Operation {E}.

Record APIError_ (E : Type) := mkAPIError {
  api_GoBitpinError : GoBitpinError_ E;
  StatusCode : Z;
  Details : gomap (list string)
}.
Arguments mkAPIError {E}.
Arguments api_GoBitpinError {E}.
Arguments StatusCode {E}.
Arguments Details {E}.

(** A non-nil [error]: a pointer to one of the structs above, or an error
    made by another package ([fmt], [encoding/json], [net/http], the JWT
    library), of which only the origin is kept, not the text. *)
#[local] Unset Elimination Schemes.
Inductive error :=
| Foreign (origin : string)
| EGoBitpin (e : GoBitpinError_ error)
| ERequest (e : RequestError_ error)
| EAPI (e : APIError_ error).
#[local] Set Elimination Schemes.

Abbreviation GoBitpinError := (GoBitpinError_ error).
Abbreviation RequestError := (RequestError_ error).
Abbreviation APIError := (APIError_ error).

(** [details[field]]: reading a nil map gives nothing, as reading a map
    without the key. *)
Definition entry (details : gomap (list string)) (field : string) : option (list string) :=
  m ← details; m !! field.

(** [formatErrorDetails], on the entries of the map in the order in which
    the [range] loop visits them. *)
Definition formatErrorDetails_step (msg : string) (entry : string * list string) : string :=
  match entry.2 with
  | first :: _ =>
      (if String.eqb msg "" then msg else msg ++ "; ") ++ entry.1 ++ ": " ++ first
  | [] => msg
  end.

Definition formatErrorDetails_entries (entries : list (string * list string)) : string :=
  foldl formatErrorDetails_step "" entries.

Section Normalizer.

(** Go does not specify the order in which [range] visits a map:
    [map_range m] is the order taken for [m]. *)
Variable map_range : gmap string (list string) → list (string * list string).

Definition formatErrorDetails (details : gomap (list string)) : string :=
  match details with
  | Some m => formatErrorDetails_entries (map_range m)
  | None => ""
  end.

(** The anonymous struct of the third attempt. *)
Record errResp := mkErrResp {
  Detail : string;
  Code : string;
  Messages : gomap string
}.

Definition errResp_names : list string := ["detail"; "code"; "messages"].

Definition errResp_set (name : string) (v : json) (r : errResp) : option errResp :=
  if String.eqb name "detail" then
    d ← decode_string (Detail r) v; Some (mkErrResp d (Code r) (Messages r))
  else if String.eqb name "code" then
    c ← decode_string (Code r) v; Some (mkErrResp (Detail r) c (Messages r))
  else
    m ← decode_map (decode_string "") (Messages r) v;
    Some (mkErrResp (Detail r) (Code r) m).

(** The three typed attempts of [parseErrorResponse] on the body. *)
Definition unmarshal_field_errors (respBody : string) : option (gomap (list string)) :=
  Unmarshal (decode_map (decode_string_slice [])) respBody None.

Definition unmarshal_simple (respBody : string) : option (gomap string) :=
  Unmarshal (decode_map (decode_string "")) respBody None.

Definition unmarshal_errResp (respBody : string) : option errResp :=
  Unmarshal (decode_struct errResp_names errResp_set) respBody (mkErrResp "" "" None).

(** [for k, v := range m { details[k] = []string{v} }] *)
Definition wrap_into (m : gomap string) (details : gmap string (list string))
  : gmap string (list string) :=
  map_fold (λ k v d, <[k := [v]]> d) details (default ∅ m).

Definition errResp_details (r : errResp) : gmap string (list string) :=
  let details := ∅ in
  let details :=
    if negb (String.eqb (Detail r) "") then <["detail" := [Detail r]]> details
    else details in
  let details :=
    if negb (String.eqb (Code r) "") then <["code" := [Code r]]> details
    else details in
  wrap_into (Messages r) details.

Definition api_error (statusCode : Z) (text : string) (details : gomap (list string))
  : APIError :=
  mkAPIError
    (mkGoBitpinError ("API error (status " ++ pretty statusCode ++ "): " ++ text) None)
    statusCode details.

Definition parseErrorResponse (statusCode : Z) (respBody : string) : APIError :=
  match unmarshal_field_errors respBody with
  | Some details => api_error statusCode (formatErrorDetails details) details
  | None =>
      match unmarshal_simple respBody with
      | Some simpleDetails =>
          let details := Some (wrap_into simpleDetails ∅) in
          api_error statusCode (formatErrorDetails details) details
      | None =>
          match unmarshal_errResp respBody with
          | Some r =>
              let details := Some (errResp_details r) in
              api_error statusCode (formatErrorDetails details) details
          | None =>
              api_error statusCode respBody (Some {[ "raw" := [respBody] ]})
          end
      end
  end.

End Normalizer.

(** What a fallible Go function returns: its value, or an error. *)
Inductive result (A : Type) :=
| Ok (a : A)
| Fail (e : error).
Arguments Ok {A}.
Arguments Fail {A}.

End Errors.

(** ** Package utils: the token codec and the query encoder *)

Module Utils.
Import Bytes Json Errors.

(** *** Time

    A [time.Time] is the number of nanoseconds since the Unix epoch, a
    [time.Duration] a number of nanoseconds. *)

Definition Second : Z := 1000000000.

(** [t.Unix()] *)
Definition Unix (t : Z) : Z := t / Second.

(** [t.Add(d)] *)
Definition Add (t d : Z) : Z := t + d.

(** *** Tokens *)

Record JWT := mkJWT {
  TokenType : string;
  Exp : Z;
  Jti : string;
  UserId : Z;
  Ip : list string;
  ApiCredentialId : Z
}.

(** [j.IsExpired()] when [time.Now()] is [now]. *)
Definition IsExpired (j : JWT) (now : Z) : bool :=
  Exp j <? Unix now.

(** [j.IsExpiredIn(t)] when [time.Now()] is [now]. *)
Definition IsExpiredIn (j : JWT) (now : Z) (t : Z) : bool :=
  Exp j <? Unix (Add now t).

Definition JWT_names : list string :=
  ["token_type"; "exp"; "jti"; "user_id"; "ip"; "api_credential_id"].

Definition JWT_set (name : string) (v : json) (j : JWT) : option JWT :=
  if String.eqb name "token_type" then
    x ← decode_string (TokenType j) v;
    Some (mkJWT x (Exp j) (Jti j) (UserId j) (Ip j) (ApiCredentialId j))
  else if String.eqb name "exp" then
    x ← decode_int (Exp j) v;
    Some (mkJWT (TokenType j) x (Jti j) (UserId j) (Ip j) (ApiCredentialId j))
  else if String.eqb name "jti" then
    x ← decode_string (Jti j) v;
    Some (mkJWT (TokenType j) (Exp j) x (UserId j) (Ip j) (ApiCredentialId j))
  else if String.eqb name "user_id" then
    x ← decode_int (UserId j) v;
    Some (mkJWT (TokenType j) (Exp j) (Jti j) x (Ip j) (ApiCredentialId j))
  else if String.eqb name "ip" then
    x ← decode_string_slice (Ip j) v;
    Some (mkJWT (TokenType j) (Exp j) (Jti j) (UserId j) x (ApiCredentialId j))
  else
    x ← decode_int (ApiCredentialId j) v;
    Some (mkJWT (TokenType j) (Exp j) (Jti j) (UserId j) (Ip j) x).

Section DecodeJWT.

(** The JWT library is not part of the repository.  [ParseUnverified tok]
    is the claims of the token ([jwt.MapClaims]) when the library parses
    it, and [MarshalClaims] is [json.Marshal] on such claims. *)
Variable Claims : Type.
Variable ParseUnverified : string → option Claims.
Variable MarshalClaims : Claims → option string.

Definition DecodeJWT (tokenString : string) : result JWT :=
  match ParseUnverified tokenString with
  | None => Fail (Foreign "failed to parse token")
  | Some claims =>
      match MarshalClaims claims with
      | None => Fail (Foreign "failed to marshal claims")
      | Some claimsJSON =>
          match Unmarshal (decode_struct JWT_names JWT_set) claimsJSON
                  (mkJWT "" 0 "" 0 [] 0) with
          | None => Fail (Foreign "failed to unmarshal claims into struct")
          | Some payload => Ok payload
          end
      end
  end.

End DecodeJWT.

(** *** Go values as [reflect] sees them

    [StructToURLParams] looks at its argument through [reflect]: the kind
    of a value, whether it is the zero value of its type, its elements or
    fields, and its rendering by [fmt]'s [%v].  A field is given with the
    value of its [json] tag ([field.Tag.Get("json")], empty without a
    tag).  Fields are exported and no type has a [String] method. *)

(** A floating-point number: whether its bits are those of [+0], whether
    it equals zero, and its renderings by
    [strconv.FormatFloat(f, 'f', -1, 64)] and by [%v]. *)
Record float_view := mkFloat {
  f_bits_zero : bool;
  f_eq_zero : bool;
  f_text_f : string;
  f_text_v : string
}.

#[local] Unset Elimination Schemes.
Inductive value :=
| VBool (b : bool)
| VInt (n : Z)
| VFloat (f : float_view)
| VString (s : string)
| VSlice (elems : option (list value))
| VArray (elems : list value)
| VStruct (fields : list (string * value))
| VOther (zero : bool) (text : string).
#[local] Set Elimination Schemes.

(** [value.IsZero()] *)
Fixpoint IsZero (v : value) : bool :=
  match v with
  | VBool b => negb b
  | VInt n => n =? 0
  | VFloat f => f_bits_zero f
  | VString s => String.eqb s ""
  | VSlice None => true
  | VSlice (Some _) => false
  | VArray elems => forallb IsZero elems
  | VStruct fields => forallb (λ kv, IsZero kv.2) fields
  | VOther zero _ => zero
  end.

Definition join_space (l : list string) : string := String.concat " " l.

(** [fmt.Sprintf("%v", v.Interface())] *)
Fixpoint fmt_v (v : value) : string :=
  match v with
  | VBool b => if b then "true" else "false"
  | VInt n => pretty n
  | VFloat f => f_text_v f
  | VString s => s
  | VSlice None => "[]"
  | VSlice (Some elems) => "[" ++ join_space (map fmt_v elems) ++ "]"
  | VArray elems => "[" ++ join_space (map fmt_v elems) ++ "]"
  | VStruct fields => "{" ++ join_space (map (λ kv, fmt_v kv.2) fields) ++ "}"
  | VOther _ text => text
  end.

(** *** [url.Values] *)

Definition Values_Add (key val : string) (values : gmap string (list string))
  : gmap string (list string) :=
  <[key := (default [] (values !! key) ++ [val])%list]> values.

Definition hex_digit (n : Z) : ascii :=
  if n <? 10 then byte_of (48 + n) else byte_of (55 + n).

Definition unreserved (c : ascii) : bool :=
  let b := byte_val c in
  in_range 97 122 c || in_range 65 90 c || is_digit c
  || (b =? 45) || (b =? 95) || (b =? 46) || (b =? 126).

(** [url.QueryEscape] *)
Fixpoint QueryEscape (s : string) : string :=
  match s with
  | EmptyString => EmptyString
  | String c s' =>
      if unreserved c then String c (QueryEscape s')
      else if byte_val c =? 32 then String "+"%char (QueryEscape s')
      else String "%"%char
             (String (hex_digit (byte_val c / 16))
                (String (hex_digit (byte_val c mod 16)) (QueryEscape s')))
  end.

Fixpoint insert_sorted (k : string) (l : list string) : list string :=
  match l with
  | [] => [k]
  | k' :: l' => if String.leb k k' then k :: l else k' :: insert_sorted k l'
  end.

(** The keys of the map in increasing byte order. *)
Definition sorted_keys (values : gmap string (list string)) : list string :=
  foldr insert_sorted [] (map fst (map_to_list values)).

Definition Encode_pair (keyEscaped : string) (buf v : string) : string :=
  (if String.eqb buf "" then buf else buf ++ "&") ++ keyEscaped ++ "=" ++ QueryEscape v.

(** [values.Encode()] *)
Definition Values_Encode (values : gmap string (list string)) : string :=
  foldl (λ buf k, foldl (Encode_pair (QueryEscape k)) buf (default [] (values !! k)))
        "" (sorted_keys values).

(** *** [StructToURLParams]

    The argument is not the nil interface ([Request] has tested it). *)

Definition add_all (key : string) (elems : list value) (values : gmap string (list string))
  : gmap string (list string) :=
  foldl (λ vs e, Values_Add key (fmt_v e) vs) values elems.

(** The body of the loop over the fields. *)
Definition add_field (values : gmap string (list string)) (field : string * value)
  : gmap string (list string) :=
  let key := field.1 in
  let value := field.2 in
  if String.eqb key "" || String.eqb key "-" then values
  else if IsZero value then values
  else
    match value with
    | VSlice None => values
    | VSlice (Some elems) | VArray elems => add_all key elems values
    | VInt n => if negb (n =? 0) then Values_Add key (pretty n) values else values
    | VFloat f => if negb (f_eq_zero f) then Values_Add key (f_text_f f) values else values
    | VBool b => Values_Add key (if b then "true" else "false") values
    | VString s => if negb (String.eqb s "") then Values_Add key (fmt_v value) values else values
    | VStruct _ | VOther _ _ => Values_Add key (fmt_v value) values
    end.

Definition StructToURLParams (inputStruct : value) : result string :=
  match inputStruct with
  | VStruct fields => Ok (Values_Encode (foldl add_field ∅ fields))
  | _ => Fail (Foreign "input must be a struct")
  end.

End Utils.

(** ** Package bitpin: the client *)

Module ClientOptions.

(** [http.Client]: its transport (named; the empty name is the default
    transport) and its timeout. *)
Record http_Client := mkHttpClient {
  Transport : string;
  Timeout_ : Z
}.

(** [ClientOptions]; [HttpClient] is a pointer, [None] when nil. *)
Record t := mk {
  HttpClient : option http_Client;
  Timeout : Z;
  BaseUrl : string;
  AccessToken : string;
  RefreshToken : string;
  ApiKey : string;
  SecretKey : string;
  AutoAuth : bool;
  AutoRefresh : bool
}.

End ClientOptions.

Module Bitpin.
Import Bytes Json Errors Utils.
Export ClientOptions(http_Client, mkHttpClient, Transport, Timeout_).

Definition BaseUrl_default : string := "https://api.bitpin.ir".
Definition Version : string := "v1".

Record Client := mkClient {
  HttpClient : http_Client;
  BaseUrl : string;
  AccessToken : string;
  RefreshToken : string;
  ApiKey : string;
  SecretKey : string;
  AutoRefresh : bool
}.

Definition with_AccessToken (tok : string) (c : Client) : Client :=
  mkClient (HttpClient c) (BaseUrl c) tok (RefreshToken c) (ApiKey c) (SecretKey c)
    (AutoRefresh c).

Definition with_RefreshToken (tok : string) (c : Client) : Client :=
  mkClient (HttpClient c) (BaseUrl c) (AccessToken c) tok (ApiKey c) (SecretKey c)
    (AutoRefresh c).

(** *** HTTP *)

(** [http.Request], as the pipeline builds it. *)
Record http_Request := mkRequest {
  Method : string;
  URL : string;
  Header : gmap string string;
  Body : string
}.

(** What [io.ReadAll(resp.Body)] gives. *)
Inductive read_result :=
| ReadOk (respBody : string)
| ReadFail.

(** What [HttpClient.Do] gives: an error, or a response with its status
    code and its body still to be read. *)
Inductive do_result :=
| DoFail
| DoResponse (statusCode : Z) (body : read_result).

(** *** The world outside the client

    The clock, the network and the libraries that are not modelled.  The
    clock and the network are asked one question after the other: the
    answer to the [k]-th question may depend on [k]. *)
Record Env := mkEnv {
  Claims : Type;
  ParseUnverified : string → option Claims;
  MarshalClaims : Claims → option string;
  (** [json.Marshal] on a [map[string]string], which cannot fail *)
  MarshalMap : gmap string string → string;
  (** whether [http.NewRequest] refuses the method or the URL *)
  NewRequest_fails : string → string → bool;
  (** [time.Now()] *)
  Now : nat → Z;
  (** [client.Do(req)] *)
  Do : http_Client → nat → http_Request → do_result;
  (** the order of [range] over a map *)
  map_range : gmap string (list string) → list (string * list string)
}.

(** How far the world has got: the number of questions asked so far, and
    the requests sent, oldest first. *)
Record World := mkWorld {
  tick : nat;
  sent : list http_Request
}.

Record State := mkState {
  client : Client;
  world : World
}.

(** A method of [*Client]: it may change the fields of the client and
    move the world. *)
Definition M (A : Type) : Type := State → A * State.

#[export] Instance M_ret : MRet M := λ A a s, (a, s).
#[export] Instance M_bind : MBind M :=
  λ A B f m s, let '(a, s') := m s in f a s'.

Definition get_client : M Client := λ s, (client s, s).

Definition set_client (f : Client → Client) : M unit :=
  λ s, (tt, mkState (f (client s)) (world s)).

(** The argument [body interface{}] of [Request], when it is not nil: the
    value as [reflect] sees it, and what [json.Marshal] makes of it
    ([None] when it fails). *)
Record body := mkBody {
  body_value : value;
  body_json : option string
}.

(** [json.Unmarshal(data, result)] for a target of type [T]: the target
    afterwards, and whether the error is nil. *)
Definition decoder (T : Type) : Type := string → T → T * bool.

(** The decoder of a target the client makes itself: of a decoding that
    fails, it keeps nothing. *)
Definition decoder_of {T} (dec : T → json → option T) : decoder T :=
  λ data cur,
    match Unmarshal dec data cur with
    | Some x => (x, true)
    | None => (cur, false)
    end.

(** [assertAuth] *)
Definition assertAuth (c : Client) : option error :=
  if String.eqb (AccessToken c) "" then
    Some (EGoBitpin (mkGoBitpinError "access token is empty" None))
  else if String.eqb (RefreshToken c) "" then
    Some (EGoBitpin (mkGoBitpinError "refresh token is empty" None))
  else None.

(** [createApiURI] *)
Definition createApiURI (c : Client) (endpoint version : string) : string :=
  let version := if String.eqb version "" then Version else version in
  BaseUrl c ++ "/api/" ++ version ++ endpoint.

(** [types.AuthenticationResponse] and [types.RefreshTokenResponse] *)
Record AuthenticationResponse := mkAuthenticationResponse {
  Refresh : string;
  Access : string
}.

Record RefreshTokenResponse := mkRefreshTokenResponse {
  Access_ : string
}.

Definition AuthenticationResponse_set (name : string) (v : json)
    (r : AuthenticationResponse) : option AuthenticationResponse :=
  if String.eqb name "refresh" then
    x ← decode_string (Refresh r) v; Some (mkAuthenticationResponse x (Access r))
  else
    x ← decode_string (Access r) v; Some (mkAuthenticationResponse (Refresh r) x).

Definition unmarshal_AuthenticationResponse : decoder AuthenticationResponse :=
  decoder_of (decode_struct ["refresh"; "access"] AuthenticationResponse_set).

Definition RefreshTokenResponse_set (name : string) (v : json)
    (r : RefreshTokenResponse) : option RefreshTokenResponse :=
  x ← decode_string (Access_ r) v; Some (mkRefreshTokenResponse x).

Definition unmarshal_RefreshTokenResponse : decoder RefreshTokenResponse :=
  decoder_of (decode_struct ["access"] RefreshTokenResponse_set).

Section Pipeline.

Variable env : Env.

(** [time.Now()] *)
Definition now : M Z :=
  λ s, let w := world s in
       (Now env (tick w), mkState (client s) (mkWorld (S (tick w)) (sent w))).

(** [c.HttpClient.Do(req)] followed by [io.ReadAll(resp.Body)] *)
Definition send (req : http_Request) : M do_result :=
  λ s, let w := world s in
       (Do env (HttpClient (client s)) (tick w) req,
        mkState (client s) (mkWorld (S (tick w)) (sent w ++ [req])%list)).

(** A [map[string]string] passed as the body of a request. *)
Definition map_body (m : gmap string string) (text : string) : body :=
  mkBody (VOther false text) (Some (MarshalMap env m)).

Definition request_error (message operation origin : string) : error :=
  ERequest (mkRequestError (mkGoBitpinError message (Some (Foreign origin))) operation).

(** *** [Request]

    [Request] calls [handleAutoRefresh], which calls [Authenticate] and
    [RefreshAccessToken], which call [Request] again, without
    authentication.  The functions are first written over the procedure
    [refresh] that [Request] runs for an authenticated call. *)
Section Open.

Variable refresh : M (option error).

(** The first half of [Request], up to the [Authorization] header: the
    request to send, or the error returned before anything is sent. *)
Definition build_request (method url : string) (auth : bool) (body : option body)
  : M (result http_Request) :=
  let prepared_url :=
    if String.eqb method "GET" then
      match body with
      | Some b =>
          match StructToURLParams (body_value b) with
          | Fail err =>
              Fail (ERequest (mkRequestError
                      (mkGoBitpinError "failed to convert struct to URL params" (Some err))
                      "preparing request parameters"))
          | Ok urlParams => Ok (url ++ "?" ++ urlParams)
          end
      | None => Ok url
      end
    else Ok url in
  match prepared_url with
  | Fail err => mret (Fail err)
  | Ok url =>
      let prepared_body :=
        if String.eqb method "POST" then
          match body with
          | Some b =>
              match body_json b with
              | None =>
                  Fail (request_error "failed to marshal request body"
                          "preparing request body" "json.Marshal")
              | Some reqBody => Ok reqBody
              end
          | None => Ok ""
          end
        else Ok "" in
      match prepared_body with
      | Fail err => mret (Fail err)
      | Ok reqBody =>
          if NewRequest_fails env method url then
            mret (Fail (request_error "failed to create request" "creating request"
                          "http.NewRequest"))
          else
            let header : gmap string string := {[ "Content-Type" := "application/json" ]} in
            if auth then
              c ← get_client;
              refreshed ← (if AutoRefresh c then refresh else mret None);
              match refreshed with
              | Some err =>
                  mret (Fail (EGoBitpin (mkGoBitpinError
                                "failed to refresh authentication" (Some err))))
              | None =>
                  c ← get_client;
                  match assertAuth c with
                  | Some err =>
                      mret (Fail (EGoBitpin (mkGoBitpinError
                                    "authentication validation failed" (Some err))))
                  | None =>
                      mret (Ok (mkRequest method url
                                  (<["Authorization" := "Bearer " ++ AccessToken c]> header)
                                  reqBody))
                  end
              end
            else mret (Ok (mkRequest method url header reqBody))
      end
  end.

(** The second half: the request is sent, the body of the response read,
    and the response turned into the error or decoded into [result]. *)
Definition dispatch {T} (req : http_Request) (unmarshal : decoder T) (result : option T)
  : M (option error * option T) :=
  resp ← send req;
  match resp with
  | DoFail =>
      mret (Some (request_error "failed to send request" "sending request"
                    "http.Client.Do"), result)
  | DoResponse _ ReadFail =>
      mret (Some (request_error "failed to read response body"
                    "reading response" "io.ReadAll"), result)
  | DoResponse statusCode (ReadOk respBody) =>
      if (statusCode <? 200) || (statusCode >=? 300) then
        mret (Some (EAPI (parseErrorResponse (map_range env) statusCode respBody)), result)
      else
        match result with
        | Some target =>
            let '(target, ok) := unmarshal respBody target in
            if ok then mret (None, Some target)
            else
              mret (Some (request_error "failed to unmarshal response"
                            "parsing response" "json.Unmarshal"),
                    Some target)
        | None => mret (None, None)
        end
  end.

(** [Request]: the error, and [result] as the call leaves it. *)
Definition Request_with {T} (method url : string) (auth : bool) (body : option body)
    (unmarshal : decoder T) (result : option T) : M (option error * option T) :=
  built ← build_request method url auth body;
  match built with
  | Fail err => mret (Some err, result)
  | Ok req => dispatch req unmarshal result
  end.

(** [ApiRequest] *)
Definition ApiRequest_with {T} (method endpoint version : string) (auth : bool)
    (body : option body) (unmarshal : decoder T) (result : option T)
  : M (option error * option T) :=
  c ← get_client;
  Request_with method (createApiURI c endpoint version) auth body unmarshal result.

(** [Authenticate] *)
Definition Authenticate_with (apiKey secretKey : string) : M (result AuthenticationResponse) :=
  if String.eqb apiKey "" || String.eqb secretKey "" then
    mret (Fail (EGoBitpin (mkGoBitpinError "API key and/or secret key are empty" None)))
  else
    let reqBody :=
      map_body {[ "api_key" := apiKey; "secret_key" := secretKey ]}
        ("map[api_key:" ++ apiKey ++ " secret_key:" ++ secretKey ++ "]") in
    r ← ApiRequest_with "POST" "/usr/authenticate/" Version false (Some reqBody)
          unmarshal_AuthenticationResponse (Some (mkAuthenticationResponse "" ""));
    match r with
    | (Some err, _) => mret (Fail err)
    | (None, target) =>
        let authResponse := default (mkAuthenticationResponse "" "") target in
        _ ← set_client (with_AccessToken (Access authResponse));
        _ ← set_client (with_RefreshToken (Refresh authResponse));
        mret (Ok authResponse)
    end.

(** [RefreshAccessToken] *)
Definition RefreshAccessToken_with : M (option error) :=
  c ← get_client;
  let reqBody :=
    map_body {[ "refresh" := RefreshToken c ]} ("map[refresh:" ++ RefreshToken c ++ "]") in
  r ← ApiRequest_with "POST" "/usr/refresh_token/" Version false (Some reqBody)
        unmarshal_RefreshTokenResponse (Some (mkRefreshTokenResponse ""));
  match r with
  | (Some err, _) => mret (Some err)
  | (None, target) =>
      let refreshResponse := default (mkRefreshTokenResponse "") target in
      _ ← set_client (with_AccessToken (Access_ refreshResponse));
      mret None
  end.

(** [handleAutoRefresh] *)
Definition handleAutoRefresh_with : M (option error) :=
  c ← get_client;
  first ←
    (if negb (String.eqb (AccessToken c) "") then
       match DecodeJWT (Claims env) (ParseUnverified env) (MarshalClaims env)
               (AccessToken c) with
       | Fail err => mret (Some err)
       | Ok decoded =>
           t ← now;
           if IsExpired decoded t then RefreshAccessToken_with else mret None
       end
     else mret None);
  match first with
  | Some err => mret (Some err)
  | None =>
      c ← get_client;
      if negb (String.eqb (RefreshToken c) "") then
        match DecodeJWT (Claims env) (ParseUnverified env) (MarshalClaims env)
                (RefreshToken c) with
        | Fail err => mret (Some err)
        | Ok decoded =>
            t ← now;
            if IsExpired decoded t then
              if String.eqb (ApiKey c) "" || String.eqb (SecretKey c) "" then
                mret (Some (EGoBitpin (mkGoBitpinError
                              "API key and/or secret key are empty" None)))
              else
                r ← Authenticate_with (ApiKey c) (SecretKey c);
                match r with
                | Fail err => mret (Some err)
                | Ok _ => mret None
                end
            else mret None
        end
      else mret None
  end.

End Open.

(** The calls of [Request] below [handleAutoRefresh] are not
    authenticated and never run the refresh procedure: whatever stands for
    it there is not used (lemma [handleAutoRefresh_unfold]). *)
Definition handleAutoRefresh : M (option error) := handleAutoRefresh_with (mret None).

Definition Request {T} := @Request_with handleAutoRefresh T.
Definition ApiRequest {T} := @ApiRequest_with handleAutoRefresh T.
Definition Authenticate := Authenticate_with handleAutoRefresh.
Definition RefreshAccessToken := RefreshAccessToken_with handleAutoRefresh.

(** The client as [NewClient] fills it in from the options, before it
    calls [handleAutoRefresh]. *)
Definition configure (opts : ClientOptions.t) : Client :=
  mkClient
    (match ClientOptions.HttpClient opts with
     | Some h => h
     | None => mkHttpClient "" (ClientOptions.Timeout opts)
     end)
    (if negb (String.eqb (ClientOptions.BaseUrl opts) "")
     then ClientOptions.BaseUrl opts else BaseUrl_default)
    (ClientOptions.AccessToken opts)
    (ClientOptions.RefreshToken opts)
    (ClientOptions.ApiKey opts)
    (ClientOptions.SecretKey opts)
    (ClientOptions.AutoRefresh opts).

(** [NewClient]: the client (or the error) and the world afterwards. *)
Definition NewClient (opts : ClientOptions.t) (w : World) : result Client * World :=
  let c := configure opts in
  let run : M (option error) :=
    err ← handleAutoRefresh;
    match err with
    | Some e => mret (Some e)
    | None =>
        if negb (String.eqb (ClientOptions.ApiKey opts) "")
           && negb (String.eqb (ClientOptions.SecretKey opts) "") then
          r ← Authenticate (ClientOptions.ApiKey opts) (ClientOptions.SecretKey opts);
          match r with
          | Fail e => mret (Some e)
          | Ok _ => mret None
          end
        else mret None
    end in
  let '(err, s) := run (mkState c w) in
  match err with
  | Some e => (Fail e, world s)
  | None => (Ok (client s), world s)
  end.

(** [DecodeJWT] with the JWT library of the world. *)
Definition decode (tokenString : string) : result JWT :=
  DecodeJWT (Claims env) (ParseUnverified env) (MarshalClaims env) tokenString.

(** The request [RefreshAccessToken] sends for the client [c], and the one
    [Authenticate] sends. *)
Definition refresh_request (c : Client) : http_Request :=
  mkRequest "POST" (createApiURI c "/usr/refresh_token/" Version)
    {[ "Content-Type" := "application/json" ]}
    (MarshalMap env {[ "refresh" := RefreshToken c ]}).

Definition authenticate_request (c : Client) (apiKey secretKey : string) : http_Request :=
  mkRequest "POST" (createApiURI c "/usr/authenticate/" Version)
    {[ "Content-Type" := "application/json" ]}
    (MarshalMap env {[ "api_key" := apiKey; "secret_key" := secretKey ]}).

End Pipeline.

(** *** The errors of the authentication gate and of the lifecycle *)

Definition access_token_missing : error :=
  EGoBitpin (mkGoBitpinError "access token is empty" None).

Definition refresh_token_missing : error :=
  EGoBitpin (mkGoBitpinError "refresh token is empty" None).

Definition missing_credentials : error :=
  EGoBitpin (mkGoBitpinError "API key and/or secret key are empty" None).

Definition refresh_failed (err : error) : error :=
  EGoBitpin (mkGoBitpinError "failed to refresh authentication" (Some err)).

(** The status code of an API error. *)
Definition StatusCode_of (e : error) : option Z :=
  match e with
  | EAPI a => Some (StatusCode a)
  | _ => None
  end.

(** The errors the two halves of [Request] make themselves. *)
Definition is_request_error (e : error) : Prop :=
  (∃ g op, e = ERequest (mkRequestError g op)) ∨ (∃ a, e = EAPI a).

(** The state once [req] has been sent. *)
Definition after_send (req : http_Request) (s : State) : State :=
  mkState (client s)
    (mkWorld (S (tick (world s))) (sent (world s) ++ [req])%list).

(** The state once the clock has been read. *)
Definition after_now (s : State) : State :=
  mkState (client s) (mkWorld (S (tick (world s))) (sent (world s))).

(** The options with another value of the flag [AutoAuth]. *)
Definition with_AutoAuth (b : bool) (opts : ClientOptions.t) : ClientOptions.t :=
  ClientOptions.mk (ClientOptions.HttpClient opts) (ClientOptions.Timeout opts)
    (ClientOptions.BaseUrl opts) (ClientOptions.AccessToken opts)
    (ClientOptions.RefreshToken opts) (ClientOptions.ApiKey opts)
    (ClientOptions.SecretKey opts) b (ClientOptions.AutoRefresh opts).

End Bitpin.

(** ** A test bench

    A small world to run the client in: four tokens whose claims are known
    to the JWT library, a clock that shows the second 3000, and three
    servers. *)

Module Bench.
Import Bytes Json Errors Utils Bitpin.

(** The expiry of the tokens the library can parse. *)
Definition claims_of (tok : string) : option Z :=
  if String.eqb tok "access-expired" then Some 1000
  else if String.eqb tok "refresh-expired" then Some 2000
  else if String.eqb tok "access-fresh" then Some 5000
  else if String.eqb tok "refresh-fresh" then Some 6000
  else None.

Definition marshal_claims (exp : Z) : option string :=
  Some (jq "{'exp':" ++ pretty exp ++ "}").

(** An encoder for maps whose strings need no escaping. *)
Definition marshal_map (m : gmap string string) : string :=
  "{" ++ String.concat ","
           (map (λ k, jq "'" ++ k ++ jq "':'" ++ default "" (m !! k) ++ jq "'")
                (foldr insert_sorted [] (map fst (map_to_list m))))
      ++ "}".

Definition clock (k : nat) : Z := 3000 * Second.

Definition env_of (server : http_Request → do_result) : Env :=
  mkEnv Z claims_of marshal_claims marshal_map (λ _ _, false) clock
        (λ _ _ req, server req) map_to_list.

(** A server that refuses every token. *)
Definition server_401 (req : http_Request) : do_result :=
  DoResponse 401
    (ReadOk (jq "{'detail':'Token is invalid or expired','code':'token_not_valid'}")).

(** A server that knows no resource. *)
Definition server_404 (req : http_Request) : do_result :=
  DoResponse 404 (ReadOk (jq "{'detail':'not found'}")).

(** A server that issues fresh tokens and has no orders. *)
Definition server_ok (req : http_Request) : do_result :=
  if String.eqb (URL req) "https://api.bitpin.ir/api/v1/usr/refresh_token/" then
    DoResponse 200 (ReadOk (jq "{'access':'access-fresh'}"))
  else if String.eqb (URL req) "https://api.bitpin.ir/api/v1/usr/authenticate/" then
    DoResponse 200 (ReadOk (jq "{'access':'access-fresh','refresh':'refresh-fresh'}"))
  else DoResponse 200 (ReadOk "[]").

Definition start : World := mkWorld 0 [].

Definition client_of (access refresh apiKey secretKey : string) (autoRefresh : bool)
  : Client :=
  mkClient (mkHttpClient "" 0) BaseUrl_default access refresh apiKey secretKey autoRefresh.

Definition options_of (access refresh apiKey secretKey : string) (autoAuth : bool)
  : ClientOptions.t :=
  ClientOptions.mk None 0 "" access refresh apiKey secretKey autoAuth false.

(** Both tokens expired and no API key: the client of the escalation
    property. *)
Definition expired_pair : Client :=
  client_of "access-expired" "refresh-expired" "" "" true.

(** An expired access token, with and without [AutoRefresh]. *)
Definition stale (autoRefresh : bool) : Client :=
  client_of "access-expired" "refresh-fresh" "" "" autoRefresh.

(** Options with both keys and an access token that is not a JWT. *)
Definition garbage_options : ClientOptions.t :=
  options_of "garbage" "" "k" "s" false.

Definition orders_url : string := "https://api.bitpin.ir/api/v1/odr/orders/".

(** A decoder for a response that is a JSON string. *)
Definition unmarshal_string : decoder string := decoder_of decode_string.

(** The parameters of the test property of the query encoder:
    [{name: "", age: 0, active: false}]. *)
Definition inactive_params : value :=
  VStruct [("name", VString ""); ("age", VInt 0); ("active", VBool false)].


End Bench.

(** ** Package types: the parameters of the endpoints

    Each struct comes with the value [reflect] sees: a field is listed
    with what [field.Tag.Get("json")] returns for it, which is the whole
    tag, options included. *)

Module GetWalletParams.

Record t := mk {
  Assets : option (list string);
  Service : string;
  Offset : Z;
  Limit : Z
}.

Definition reflect (p : t) : Utils.value :=
  Utils.VStruct
    [("assets,omitempty", Utils.VSlice (map Utils.VString <$> Assets p));
     ("service,omitempty", Utils.VString (Service p));
     ("offset,omitempty", Utils.VInt (Offset p));
     ("limit,omitempty", Utils.VInt (Limit p))].

End GetWalletParams.

Module GetOrdersHistoryParams.

Record t := mk {
  Symbol : string;
  Side : string;
  State : string;
  Type_ : string;
  Identifier : string;
  Start : string;
  End_ : string;
  IdsIn : string;
  IdentifiersIn : string;
  Offset : Z;
  Limit : Z
}.

Definition reflect (p : t) : Utils.value :=
  Utils.VStruct
    [("symbol,omitempty", Utils.VString (Symbol p));
     ("side,omitempty", Utils.VString (Side p));
     ("state,omitempty", Utils.VString (State p));
     ("type,omitempty", Utils.VString (Type_ p));
     ("identifier,omitempty", Utils.VString (Identifier p));
     ("start,omitempty", Utils.VString (Start p));
     ("end,omitempty", Utils.VString (End_ p));
     ("ids_in,omitempty", Utils.VString (IdsIn p));
     ("identifiers_in,omitempty", Utils.VString (IdentifiersIn p));
     ("offset,omitempty", Utils.VInt (Offset p));
     ("limit,omitempty", Utils.VInt (Limit p))].

(** [params.State = state] *)
Definition with_State (state : string) (p : t) : t :=
  mk (Symbol p) (Side p) state (Type_ p) (Identifier p) (Start p) (End_ p) (IdsIn p)
     (IdentifiersIn p) (Offset p) (Limit p).

End GetOrdersHistoryParams.

Module GetUserTradesParams.

Record t := mk {
  Symbol : string;
  Side : string;
  Offset : Z;
  Limit : Z
}.

Definition reflect (p : t) : Utils.value :=
  Utils.VStruct
    [("symbol,omitempty", Utils.VString (Symbol p));
     ("side,omitempty", Utils.VString (Side p));
     ("offset,omitempty", Utils.VInt (Offset p));
     ("limit,omitempty", Utils.VInt (Limit p))].

End GetUserTradesParams.

Module CreateOrderParams.

Record t := mk {
  Symbol : string;
  Type_ : string;
  Side : string;
  BaseAmount : string;
  QuoteAmount : string;
  Price : string;
  StopPrice : string;
  OcoTargetPrice : string;
  Identifier : string
}.

Definition reflect (p : t) : Utils.value :=
  Utils.VStruct
    [("symbol", Utils.VString (Symbol p));
     ("type", Utils.VString (Type_ p));
     ("side", Utils.VString (Side p));
     ("base_amount,omitempty", Utils.VString (BaseAmount p));
     ("quote_amount,omitempty", Utils.VString (QuoteAmount p));
     ("price,omitempty", Utils.VString (Price p));
     ("stop_price,omitempty", Utils.VString (StopPrice p));
     ("oco_target_price,omitempty", Utils.VString (OcoTargetPrice p));
     ("identifier,omitempty", Utils.VString (Identifier p))].

End CreateOrderParams.

(** ** Package bitpin: the endpoints

    Every endpoint passes the address of a nil pointer as [result] and
    returns the pointer: the target is an [option], [None] while the
    pointer is nil.  The types of the responses are not modelled: an
    endpoint takes the decoder of its target. *)

Module Endpoints.
Import Bytes Json Errors Utils Bitpin.

Section Endpoints.

Variable env : Env.

(** [json.Marshal] on the parameters of an endpoint. *)
Variable Marshal : value → option string.

Definition params_body (v : value) : body := mkBody v (Marshal v).

(** What an endpoint makes of the outcome of [ApiRequest]. *)
Definition returned {R} (r : option error * option (option R)) : M (result (option R)) :=
  match r with
  | (Some err, _) => mret (Fail err)
  | (None, target) => mret (Ok (default None target))
  end.

Definition GetCurrencies {R} (unmarshal : decoder (option R)) : M (result (option R)) :=
  r ← ApiRequest env "GET" "/mkt/currencies/" Version false None unmarshal (Some None);
  returned r.

Definition GetMarkets {R} (unmarshal : decoder (option R)) : M (result (option R)) :=
  r ← ApiRequest env "GET" "/mkt/markets/" Version false None unmarshal (Some None);
  returned r.

Definition GetTickers {R} (unmarshal : decoder (option R)) : M (result (option R)) :=
  r ← ApiRequest env "GET" "/mkt/tickers/" Version false None unmarshal (Some None);
  returned r.

Definition GetOrderBook {R} (unmarshal : decoder (option R)) (symbol : string)
  : M (result (option R)) :=
  r ← ApiRequest env "GET" ("/mth/orderbook/" ++ symbol ++ "/") Version false None
        unmarshal (Some None);
  returned r.

Definition GetRecentTrades {R} (unmarshal : decoder (option R)) (symbol : string)
  : M (result (option R)) :=
  r ← ApiRequest env "GET" ("/mth/matches/" ++ symbol ++ "/") Version false None
        unmarshal (Some None);
  returned r.

Definition GetWallets {R} (unmarshal : decoder (option R)) (params : GetWalletParams.t)
  : M (result (option R)) :=
  r ← ApiRequest env "GET" "/wlt/wallets/" Version true
        (Some (params_body (GetWalletParams.reflect params))) unmarshal (Some None);
  returned r.

Definition CreateOrder {R} (unmarshal : decoder (option R)) (params : CreateOrderParams.t)
  : M (result (option R)) :=
  r ← ApiRequest env "POST" "/odr/orders/" Version true
        (Some (params_body (CreateOrderParams.reflect params))) unmarshal (Some None);
  returned r.

(** [CancelOrder] passes no target: no decoder is ever run. *)
Definition CancelOrder (orderId : Z) : M (option error) :=
  r ← ApiRequest env "DELETE" ("/odr/orders/" ++ pretty orderId ++ "/") Version true None
        (λ _ (u : unit), (u, true)) None;
  mret r.1.

Definition GetOrdersHistory {R} (unmarshal : decoder (option R))
    (params : GetOrdersHistoryParams.t) : M (result (option R)) :=
  r ← ApiRequest env "GET" "/odr/orders/" Version true
        (Some (params_body (GetOrdersHistoryParams.reflect params))) unmarshal (Some None);
  returned r.

Definition GetOpenOrders {R} (unmarshal : decoder (option R))
    (params : GetOrdersHistoryParams.t) : M (result (option R)) :=
  let params := GetOrdersHistoryParams.with_State "active" params in
  r ← ApiRequest env "GET" "/odr/orders/" Version true
        (Some (params_body (GetOrdersHistoryParams.reflect params))) unmarshal (Some None);
  returned r.

Definition GetOrderStatuses {R} (unmarshal : decoder (option R)) (orderIds : list string)
  : M (result (option R)) :=
  r ← ApiRequest env "GET" ("/odr/orders/" ++ String.concat "," orderIds ++ "/") Version true
        None unmarshal (Some None);
  returned r.

Definition GetUserTrades {R} (unmarshal : decoder (option R))
    (params : GetUserTradesParams.t) : M (result (option R)) :=
  r ← ApiRequest env "GET" "/odr/fills/" Version true
        (Some (params_body (GetUserTradesParams.reflect params))) unmarshal (Some None);
  returned r.

End Endpoints.

End Endpoints.

(** ** Words for the properties *)

Module Words.
Import Bytes Json Errors Utils Bitpin.

(** What the loop of [StructToURLParams] adds under the key of a field. *)
Definition field_values (field : string * value) : list string :=
  if String.eqb field.1 "" || String.eqb field.1 "-" then []
  else if IsZero field.2 then []
  else
    match field.2 with
    | VSlice None => []
    | VSlice (Some elems) | VArray elems => map fmt_v elems
    | VInt n => [pretty n]
    | VFloat f => if f_eq_zero f then [] else [f_text_f f]
    | VBool b => [if b then "true" else "false"]
    | VString s => [s]
    | VStruct _ | VOther _ _ => [fmt_v field.2]
    end.

(** Whether the loop passes over a field without adding anything. *)
Definition skipped (field : string * value) : bool :=
  match field_values field with
  | [] => true
  | _ => false
  end.

(** [vals] added, in order, to the values of [key]. *)
Definition add_values (key : string) (vals : list string) (values : gmap string (list string))
  : gmap string (list string) :=
  match vals with
  | [] => values
  | _ => <[key := (default [] (values !! key) ++ vals)%list]> values
  end.

(** The pairs [key=value] of one key, as [Encode] writes them. *)
Definition pairs_of (values : gmap string (list string)) (key : string) : list string :=
  map (λ v, QueryEscape key ++ "=" ++ QueryEscape v) (default [] (values !! key)).

(** The characters [QueryEscape] writes. *)
Definition query_safe (c : ascii) : bool :=
  unreserved c || Ascii.eqb c "+"%char || Ascii.eqb c "%"%char.

(** [url.QueryUnescape] *)
Fixpoint QueryUnescape (s : string) : option string :=
  match s with
  | EmptyString => Some EmptyString
  | String c s' =>
      if Ascii.eqb c "%"%char then
        match s' with
        | String h1 (String h2 s'') =>
            if is_hex h1 && is_hex h2 then
              r ← QueryUnescape s'';
              Some (String (byte_of (hex_val h1 * 16 + hex_val h2)) r)
            else None
        | _ => None
        end
      else if Ascii.eqb c "+"%char then r ← QueryUnescape s'; Some (String " "%char r)
      else r ← QueryUnescape s'; Some (String c r)
  end.

(** The message of one entry of the details, if it has one. *)
Definition entry_text (entry : string * list string) : option string :=
  match entry.2 with
  | first :: _ => Some (entry.1 ++ ": " ++ first)
  | [] => None
  end.

(** The errors of the package's own types. *)
Definition is_sdk_error (e : error) : Prop :=
  match e with
  | Foreign _ => False
  | _ => True
  end.

(** The fields of the client that are not tokens. *)
Definition same_settings (c c' : Client) : Prop :=
  HttpClient c' = HttpClient c ∧ BaseUrl c' = BaseUrl c ∧ ApiKey c' = ApiKey c
  ∧ SecretKey c' = SecretKey c ∧ AutoRefresh c' = AutoRefresh c.

(** The world has only moved on: the requests sent before are still
    there, followed by [new]. *)
Definition extends (w w' : World) (new : list http_Request) : Prop :=
  sent w' = (sent w ++ new)%list ∧ (tick w <= tick w')%nat.

(** What the loop adds under [key] over all the fields, in order. *)
Definition contributions (key : string) (fields : list (string * value)) : list string :=
  flat_map field_values (List.filter (λ f, String.eqb f.1 key) fields).

(** The pairs of the query of [GetWallets], in the order of [Encode]. *)
Definition wallet_pairs (p : GetWalletParams.t) : list string :=
  (map (λ a, ("assets%2Comitempty=" ++ QueryEscape a)%string)
       (default [] (GetWalletParams.Assets p))
   ++ (if GetWalletParams.Limit p =? 0 then []
       else [("limit%2Comitempty=" ++ QueryEscape (pretty (GetWalletParams.Limit p)))%string])
   ++ (if GetWalletParams.Offset p =? 0 then []
       else [("offset%2Comitempty=" ++ QueryEscape (pretty (GetWalletParams.Offset p)))%string])
   ++ (if String.eqb (GetWalletParams.Service p) "" then []
       else [("service%2Comitempty=" ++ QueryEscape (GetWalletParams.Service p))%string]))%list.

Section Checks.
Variable env : Env.

(** The second half of [handleAutoRefresh], on the refresh token. *)
Definition refresh_token_check (s1 : State) : option error * State :=
  if negb (String.eqb (RefreshToken (client s1)) "") then
    match decode env (RefreshToken (client s1)) with
    | Fail err => (Some err, s1)
    | Ok decoded =>
        if IsExpired decoded (Now env (tick (world s1))) then
          if String.eqb (ApiKey (client s1)) "" || String.eqb (SecretKey (client s1)) ""
          then (Some missing_credentials, after_now s1)
          else
            match Authenticate env (ApiKey (client s1)) (SecretKey (client s1))
                    (after_now s1) with
            | (Fail err, s2) => (Some err, s2)
            | (Ok _, s2) => (None, s2)
            end
        else (None, after_now s1)
    end
  else (None, s1).

(** The first half, on the access token. *)
Definition access_token_check (s : State) : option error * State :=
  if negb (String.eqb (AccessToken (client s)) "") then
    match decode env (AccessToken (client s)) with
    | Fail err => (Some err, s)
    | Ok decoded =>
        if IsExpired decoded (Now env (tick (world s)))
        then RefreshAccessToken env (after_now s)
        else (None, after_now s)
    end
  else (None, s).

(** Whether the second half of [handleAutoRefresh] finds a refresh token
    that is present, decodes and is expired: the case in which it goes on
    to the keys. *)
Definition refresh_token_expired (s1 : State) : bool :=
  negb (String.eqb (RefreshToken (client s1)) "")
  && match decode env (RefreshToken (client s1)) with
     | Ok decoded => IsExpired decoded (Now env (tick (world s1)))
     | Fail _ => false
     end.

End Checks.

End Words.

(** ** More of the test bench *)

Module Cases.
Import Bytes Json Errors Utils Bitpin Bench.

(** Both tokens expired, and both keys. *)
Definition expired_with_keys : Client :=
  client_of "access-expired" "refresh-expired" "k" "s" true.

(** Two tokens in their time, no key. *)
Definition fresh_pair (autoRefresh : bool) : Client :=
  client_of "access-fresh" "refresh-fresh" "" "" autoRefresh.

(** An access token that is not a JWT. *)
Definition garbage : Client := client_of "garbage" "" "k" "s" true.

(** An expired access token beside a refresh token that is not a JWT. *)
Definition garbage_refresh : Client :=
  client_of "access-expired" "garbage" "k" "s" true.

(** No credential at all. *)
Definition anonymous : Client := client_of "" "" "" "" false.

(** Options with an expired refresh token and both keys. *)
Definition expired_refresh_options : ClientOptions.t :=
  options_of "" "refresh-expired" "k" "s" false.

(** Options with two tokens in their time and no key. *)
Definition fresh_options : ClientOptions.t :=
  options_of "access-fresh" "refresh-fresh" "" "" false.

(** A [json.Marshal] that writes every struct as the empty object. *)
Definition marshal_empty (v : value) : option string := Some "{}".

(** A decoder that keeps its target. *)
Definition keep : decoder (option unit) := λ _ target, (target, true).

(** A JWT library whose tokens carry no expiry. *)
Definition claims_without_expiry : string := jq "{'jti':'a','EXP ':7}".

End Cases.

(** * Properties *)

Import Bytes Json Errors Utils Bitpin.

(** ** The decoder and the encoder on small inputs *)

Example parse_object :
  parse (jq "{'a': [1, -2.5e3, true, null], 'b': {}}")
  = Some (JObj [("a", JArr [JNum "1"; JNum "-2.5e3"; JBool true; JNull]); ("b", JObj [])]).
Proof. vm_compute. reflexivity. Qed.

Example parse_rejects :
  parse "" = None ∧ parse "[1,]" = None ∧ parse "01" = None
  ∧ parse (jq "{'a':1,}") = None ∧ parse "nulll" = None ∧ parse (jq "'a' 'b'") = None.
Proof. vm_compute. repeat split. Qed.

Example parse_surrogate_pair :
  parse (jq "'\ud83d\ude00'") = parse (jq "'😀'").
Proof. vm_compute. reflexivity. Qed.

Example field_names_fold :
  find_field errResp_names "Detail" = Some "detail"
  ∧ find_field errResp_names "MESSAGES" = Some "messages"
  ∧ find_field errResp_names "details" = None.
Proof. vm_compute. repeat split. Qed.

Example exp_must_be_an_integer :
  Unmarshal (decode_struct JWT_names JWT_set) (jq "{'exp': 1.5}") (mkJWT "" 0 "" 0 [] 0) = None
  ∧ Unmarshal (decode_struct JWT_names JWT_set) (jq "{'exp': 15, 'ip': ['::1']}")
      (mkJWT "" 0 "" 0 [] 0)
    = Some (mkJWT "" 15 "" 0 ["::1"] 0).
Proof. vm_compute. split; reflexivity. Qed.

Example encode_sorts_the_keys :
  StructToURLParams
    (VStruct [("name", VString "John"); ("age", VInt 30);
              ("tags", VSlice (Some [VString "golang"; VString "developer"]));
              ("is_admin", VBool true)])
  = Ok "age=30&is_admin=true&name=John&tags=golang&tags=developer".
Proof. vm_compute. reflexivity. Qed.

Example encode_expands_sequences :
  StructToURLParams (VStruct [("tags", VSlice (Some [VString "a"; VString "b"]))])
  = Ok "tags=a&tags=b".
Proof. vm_compute. reflexivity. Qed.

Example encode_escapes :
  StructToURLParams (VStruct [("q", VString "a b&c"); ("skipped", VInt 0); ("-", VInt 1)])
  = Ok "q=a+b%26c".
Proof. vm_compute. reflexivity. Qed.

Example encode_wants_a_struct :
  StructToURLParams (VString "x") = Fail (Foreign "input must be a struct").
Proof. reflexivity. Qed.

(** ** The token codec *)

Lemma Unix_Add_seconds (now k : Z) : Unix (Add now (k * Second)) = Unix now + k.
Proof. unfold Unix, Add, Second. rewrite Z.div_add by lia. reflexivity. Qed.

(** C7. For every decoded token and every reading of the clock,
    [IsExpired] holds exactly when the expiry is strictly before the Unix
    time of now, and [IsExpiredIn t] exactly when it is strictly before the
    Unix time of now plus [t] (for a window of [k] whole seconds, before
    now plus [k]).  With the expiry at now + 3600, the window of 7200
    seconds gives true and the window of 1800 seconds gives false. *)
Theorem token_expiry_predicates (j : JWT) (now t : Z) :
  (IsExpired j now = true ↔ Exp j < Unix now)
  ∧ (IsExpiredIn j now t = true ↔ Exp j < Unix (Add now t))
  ∧ (∀ k : Z, IsExpiredIn j now (k * Second) = true ↔ Exp j < Unix now + k)
  ∧ (let j' := mkJWT (TokenType j) (Unix now + 3600) (Jti j) (UserId j) (Ip j)
                 (ApiCredentialId j) in
     IsExpiredIn j' now (7200 * Second) = true
     ∧ IsExpiredIn j' now (1800 * Second) = false).
Proof.
  unfold IsExpired, IsExpiredIn. repeat split.
  - apply Z.ltb_lt.
  - apply Z.ltb_lt.
  - apply Z.ltb_lt.
  - apply Z.ltb_lt.
  - rewrite Unix_Add_seconds. apply Z.ltb_lt.
  - rewrite Unix_Add_seconds. apply Z.ltb_lt.
  - cbn [Exp]. rewrite Unix_Add_seconds. apply Z.ltb_lt. lia.
  - cbn [Exp]. rewrite Unix_Add_seconds. apply Z.ltb_ge. lia.
Qed.

(** ** The credential state *)

(** C8. [assertAuth] fails with one error when the access token is
    empty, fails when the refresh token is empty (with a second, different
    error, unless the access token is empty too, which is checked first),
    and succeeds exactly when both tokens are non-empty; the tokens are
    not looked into. *)
Theorem auth_gate (c : Client) :
  (AccessToken c = "" → assertAuth c = Some access_token_missing)
  ∧ (RefreshToken c = "" →
       assertAuth c = Some (if String.eqb (AccessToken c) ""
                            then access_token_missing else refresh_token_missing))
  ∧ access_token_missing ≠ refresh_token_missing
  ∧ (assertAuth c = None ↔ AccessToken c ≠ "" ∧ RefreshToken c ≠ "").
Proof.
  unfold assertAuth.
  destruct (String.eqb_spec (RefreshToken c) "") as [Hr|Hr];
    destruct (String.eqb_spec (AccessToken c) "") as [Ha|Ha];
    (split; [|split; [|split; [|split]]]);
    try discriminate; try tauto; try congruence; try (intros []; congruence).
Qed.

(** ** The error normalizer *)

Lemma parseErrorResponse_cases range statusCode respBody :
  (∃ details, unmarshal_field_errors respBody = Some details
      ∧ parseErrorResponse range statusCode respBody
        = api_error statusCode (formatErrorDetails range details) details)
  ∨ (∃ simpleDetails, unmarshal_field_errors respBody = None
      ∧ unmarshal_simple respBody = Some simpleDetails
      ∧ parseErrorResponse range statusCode respBody
        = api_error statusCode
            (formatErrorDetails range (Some (wrap_into simpleDetails ∅)))
            (Some (wrap_into simpleDetails ∅)))
  ∨ (∃ r, unmarshal_field_errors respBody = None
      ∧ unmarshal_simple respBody = None
      ∧ unmarshal_errResp respBody = Some r
      ∧ parseErrorResponse range statusCode respBody
        = api_error statusCode (formatErrorDetails range (Some (errResp_details r)))
            (Some (errResp_details r)))
  ∨ (unmarshal_field_errors respBody = None
      ∧ unmarshal_simple respBody = None
      ∧ unmarshal_errResp respBody = None
      ∧ parseErrorResponse range statusCode respBody
        = api_error statusCode respBody (Some {[ "raw" := [respBody] ]})).
Proof.
  unfold parseErrorResponse.
  destruct (unmarshal_field_errors respBody) as [details|]; [left; eauto|].
  destruct (unmarshal_simple respBody) as [simpleDetails|]; [right; left; eauto|].
  destruct (unmarshal_errResp respBody) as [r|]; [right; right; left; eauto|].
  right; right; right; eauto.
Qed.

Lemma parseErrorResponse_Details range statusCode respBody :
  Details (parseErrorResponse range statusCode respBody) =
    match unmarshal_field_errors respBody with
    | Some details => details
    | None =>
        match unmarshal_simple respBody with
        | Some simpleDetails => Some (wrap_into simpleDetails ∅)
        | None =>
            match unmarshal_errResp respBody with
            | Some r => Some (errResp_details r)
            | None => Some {[ "raw" := [respBody] ]}
            end
        end
    end.
Proof. unfold parseErrorResponse. repeat case_match; reflexivity. Qed.


(** C10. For every status code, the bodies [null] and [{}] are decoded by
    the first attempt of [parseErrorResponse]: the details are the nil map
    and the empty map, without an entry [raw].  The details are the entry
    [raw] of the fallback only when the three attempts have failed;
    otherwise they are those of an attempt that has succeeded. *)
Theorem null_and_empty_object_are_field_errors
    (range : gmap string (list string) → list (string * list string))
    (statusCode : Z) :
  unmarshal_field_errors "null" = Some None
  ∧ Details (parseErrorResponse range statusCode "null") = None
  ∧ unmarshal_field_errors "{}" = Some (Some ∅)
  ∧ Details (parseErrorResponse range statusCode "{}") = Some ∅
  ∧ entry (Details (parseErrorResponse range statusCode "null")) "raw" = None
  ∧ entry (Details (parseErrorResponse range statusCode "{}")) "raw" = None
  ∧ ∀ respBody,
      (Details (parseErrorResponse range statusCode respBody) = Some {[ "raw" := [respBody] ]}
       ∧ unmarshal_field_errors respBody = None
       ∧ unmarshal_simple respBody = None
       ∧ unmarshal_errResp respBody = None)
      ∨ (∃ details, unmarshal_field_errors respBody = Some details
           ∧ Details (parseErrorResponse range statusCode respBody) = details)
      ∨ (∃ simpleDetails, unmarshal_simple respBody = Some simpleDetails
           ∧ Details (parseErrorResponse range statusCode respBody)
             = Some (wrap_into simpleDetails ∅))
      ∨ (∃ r, unmarshal_errResp respBody = Some r
           ∧ Details (parseErrorResponse range statusCode respBody)
             = Some (errResp_details r)).
Proof.
  split; [vm_compute; reflexivity|].
  split; [rewrite parseErrorResponse_Details; vm_compute; reflexivity|].
  split; [vm_compute; reflexivity|].
  split; [rewrite parseErrorResponse_Details; vm_compute; reflexivity|].
  split; [rewrite parseErrorResponse_Details; vm_compute; reflexivity|].
  split; [rewrite parseErrorResponse_Details; vm_compute; reflexivity|].
  intros respBody.
  destruct (parseErrorResponse_cases range statusCode respBody)
    as [(d & H1 & ->)|[(m & H1 & H2 & ->)|[(r & H1 & H2 & H3 & ->)|(H1 & H2 & H3 & ->)]]];
    cbn [Details api_error]; eauto 10.
Qed.

(** ** The query encoder *)

(** C1. On the parameters [{name: "", age: 0, active: false}] the query
    encoder returns the empty string, not [active=false]: the test of
    [IsZero] that comes before the switch on the kind skips a field that
    holds [false], whatever its key, as it skips an empty string and a
    zero integer, and the case of booleans is reached for [true] only. *)
Theorem false_boolean_is_skipped :
  StructToURLParams Bench.inactive_params = Ok ""
  ∧ StructToURLParams Bench.inactive_params ≠ Ok "active=false"
  ∧ (∀ key values, add_field values (key, VBool false) = values)
  ∧ (∀ values, add_field values ("active", VBool true) = Values_Add "active" "true" values)
  ∧ (∀ key values, add_field values (key, VString "") = values)
  ∧ (∀ key values, add_field values (key, VInt 0) = values).
Proof.
  split; [vm_compute; reflexivity|].
  split; [vm_compute; discriminate|].
  split; [|split; [|split]].
  - intros key values. unfold add_field. cbn. by destruct (_ || _).
  - intros values. reflexivity.
  - intros key values. unfold add_field. cbn. by destruct (_ || _).
  - intros key values. unfold add_field. cbn. by destruct (_ || _).
Qed.

(** ** The request pipeline *)

Section PipelineFacts.
Variable env : Env.

Ltac run := unfold mbind, M_bind, mret, M_ret, get_client, set_client, send in *; cbn beta iota in *.

(** The recursion of the source is the one of the model: below
    [handleAutoRefresh] the refresh procedure of [Request] is out of
    reach, so that [handleAutoRefresh] is its own refresh procedure. *)
Lemma handleAutoRefresh_unfold :
  handleAutoRefresh env = handleAutoRefresh_with env (handleAutoRefresh env).
Proof. reflexivity. Qed.

Lemma build_request_unauth refresh method url body s :
  ∃ r, build_request env refresh method url false body s = (r, s)
       ∧ ∀ e, r = Fail e → ∃ g op, e = ERequest (mkRequestError g op).
Proof.
  unfold build_request, request_error. run.
  repeat case_match; simplify_eq; (eexists; split; [reflexivity|]);
    intros e' He; simplify_eq; eauto.
Qed.

Lemma dispatch_cases {T} req (unm : decoder T) result s :
  ∃ out, dispatch env req unm result s = (out, after_send req s)
    ∧ match out.1 with
      | Some e => (∃ g op, e = ERequest (mkRequestError g op)) ∨ (∃ a, e = EAPI a)
      | None =>
          ∃ sc respBody,
            Do env (HttpClient (client s)) (tick (world s)) req = DoResponse sc (ReadOk respBody)
            ∧ 200 <= sc < 300
            ∧ out.2 = (λ t, (unm respBody t).1) <$> result
            ∧ ∀ t, result = Some t → (unm respBody t).2 = true
      end.
Proof.
  unfold dispatch, request_error, after_send. run.
  destruct (Do env _ _ req) as [|sc [respBody|]]; cbn.
  - eexists; split; [reflexivity|]; cbn; eauto.
  - destruct ((sc <? 200) || (sc >=? 300)) eqn:Hsc.
    + eexists; split; [reflexivity|]; cbn; eauto.
    + apply orb_false_iff in Hsc as [H1 H2].
      apply Z.ltb_ge in H1. rewrite Z.geb_leb in H2. apply Z.leb_gt in H2.
      destruct result as [t|]; [destruct (unm respBody t) as [t' ok] eqn:Hu; destruct ok|].
      * eexists; split; [reflexivity|]; cbn. exists sc, respBody.
        rewrite Hu. repeat split; try lia. intros ? [= <-]. by rewrite Hu.
      * eexists; split; [reflexivity|]; cbn; eauto.
      * eexists; split; [reflexivity|]; cbn. exists sc, respBody.
        repeat split; try lia. intros; discriminate.
  - eexists; split; [reflexivity|]; cbn; eauto.
Qed.

Lemma dispatch_error_status {T} req (unm : decoder T) result s sc respBody :
  Do env (HttpClient (client s)) (tick (world s)) req = DoResponse sc (ReadOk respBody) →
  sc < 200 ∨ 300 <= sc →
  dispatch env req unm result s =
    ((Some (EAPI (parseErrorResponse (map_range env) sc respBody)), result),
     after_send req s).
Proof.
  intros HDo Hsc. unfold dispatch. run. rewrite HDo.
  assert ((sc <? 200) || (sc >=? 300) = true) as ->; [|reflexivity].
  apply orb_true_iff. rewrite Z.geb_leb, Z.ltb_lt, Z.leb_le. lia.
Qed.

(** C4. When [Request] has built its request and sent it, and the
    response read has a status code outside [200, 300), [Request] returns
    the error [parseErrorResponse] makes of the status code and the body,
    and [result] is as the caller passed it, whatever the decoder of the
    target would do. *)
Theorem error_status_short_circuits {T} method url auth body (unmarshal : decoder T)
    (result : option T) s req s1 statusCode respBody :
  build_request env (handleAutoRefresh env) method url auth body s = (Ok req, s1) →
  Do env (HttpClient (client s1)) (tick (world s1)) req
    = DoResponse statusCode (ReadOk respBody) →
  statusCode < 200 ∨ 300 <= statusCode →
  Request env method url auth body unmarshal result s =
    ((Some (EAPI (parseErrorResponse (map_range env) statusCode respBody)), result),
     after_send req s1)
  ∧ StatusCode (parseErrorResponse (map_range env) statusCode respBody) = statusCode.
Proof.
  intros Hb HDo Hsc. split.
  - unfold Request, Request_with. run. rewrite Hb.
    by apply dispatch_error_status.
  - unfold parseErrorResponse. repeat case_match; reflexivity.
Qed.


Lemma unauth_post {T} refresh endpoint m text (unm : decoder T) target s :
  let req := mkRequest "POST" (createApiURI (client s) endpoint Version)
               {[ "Content-Type" := "application/json" ]} (MarshalMap env m) in
  (NewRequest_fails env "POST" (createApiURI (client s) endpoint Version) = true
   ∧ ∃ e, is_request_error e
        ∧ ApiRequest_with env refresh "POST" endpoint Version false
            (Some (map_body env m text)) unm (Some target) s = ((Some e, Some target), s))
  ∨ (NewRequest_fails env "POST" (createApiURI (client s) endpoint Version) = false
     ∧ ApiRequest_with env refresh "POST" endpoint Version false
         (Some (map_body env m text)) unm (Some target) s
       = dispatch env req unm (Some target) s).
Proof.
  unfold ApiRequest_with, Request_with, build_request, map_body, request_error. run.
  cbn [String.eqb Ascii.eqb Bool.eqb body_json body_value].
  destruct (NewRequest_fails env "POST" _) eqn:Hn; [left|right]; (split; [reflexivity|]).
  - eexists; split; [|reflexivity]. left; eauto.
  - reflexivity.
Qed.

Lemma RefreshAccessToken_eq s :
  RefreshAccessToken env s =
    match ApiRequest_with env (handleAutoRefresh env) "POST" "/usr/refresh_token/" Version false
            (Some (map_body env {[ "refresh" := RefreshToken (client s) ]}
                     ("map[refresh:" ++ RefreshToken (client s) ++ "]")))
            unmarshal_RefreshTokenResponse (Some (mkRefreshTokenResponse "")) s with
    | ((Some err, _), s') => (Some err, s')
    | ((None, target), s') =>
        (None, mkState (with_AccessToken (Access_ (default (mkRefreshTokenResponse "") target))
                          (client s')) (world s'))
    end.
Proof.
  unfold RefreshAccessToken, RefreshAccessToken_with. run.
  destruct (ApiRequest_with _ _ _ _ _ _ _ _ _ s) as [[[e|] tgt] s']; reflexivity.
Qed.

Lemma Authenticate_eq apiKey secretKey s :
  apiKey ≠ "" → secretKey ≠ "" →
  Authenticate env apiKey secretKey s =
    match ApiRequest_with env (handleAutoRefresh env) "POST" "/usr/authenticate/" Version false
            (Some (map_body env {[ "api_key" := apiKey; "secret_key" := secretKey ]}
                     ("map[api_key:" ++ apiKey ++ " secret_key:" ++ secretKey ++ "]")))
            unmarshal_AuthenticationResponse (Some (mkAuthenticationResponse "" "")) s with
    | ((Some err, _), s') => (Fail err, s')
    | ((None, target), s') =>
        let authResponse := default (mkAuthenticationResponse "" "") target in
        (Ok authResponse,
         mkState (with_RefreshToken (Refresh authResponse)
                    (with_AccessToken (Access authResponse) (client s'))) (world s'))
    end.
Proof.
  intros Hk Hs. unfold Authenticate, Authenticate_with.
  apply String.eqb_neq in Hk, Hs. rewrite Hk, Hs. cbn [orb]. run.
  destruct (ApiRequest_with _ _ _ _ _ _ _ _ _ s) as [[[e|] tgt] s']; reflexivity.
Qed.

Lemma Authenticate_missing apiKey secretKey s :
  apiKey = "" ∨ secretKey = "" →
  Authenticate env apiKey secretKey s = (Fail missing_credentials, s).
Proof.
  intros H. unfold Authenticate, Authenticate_with.
  assert (String.eqb apiKey "" || String.eqb secretKey "" = true) as ->; [|reflexivity].
  apply orb_true_iff. rewrite !String.eqb_eq. exact H.
Qed.

Lemma RefreshAccessToken_cases s :
  let req := refresh_request env (client s) in
  (∃ e, is_request_error e ∧ RefreshAccessToken env s = (Some e, s))
  ∨ (∃ e, is_request_error e ∧ RefreshAccessToken env s = (Some e, after_send req s))
  ∨ (∃ sc respBody resp,
       Do env (HttpClient (client s)) (tick (world s)) req = DoResponse sc (ReadOk respBody)
       ∧ 200 <= sc < 300
       ∧ unmarshal_RefreshTokenResponse respBody (mkRefreshTokenResponse "") = (resp, true)
       ∧ RefreshAccessToken env s
         = (None, mkState (with_AccessToken (Access_ resp) (client s))
                    (world (after_send req s)))).
Proof.
  intros req. rewrite RefreshAccessToken_eq.
  destruct (unauth_post (handleAutoRefresh env) "/usr/refresh_token/"
              {[ "refresh" := RefreshToken (client s) ]}
              ("map[refresh:" ++ RefreshToken (client s) ++ "]")
              unmarshal_RefreshTokenResponse (mkRefreshTokenResponse "") s)
    as [(_ & e & He & ->)|[_ ->]].
  - left. eauto.
  - destruct (dispatch_cases (refresh_request env (client s)) unmarshal_RefreshTokenResponse
                (Some (mkRefreshTokenResponse "")) s) as ([[e|] tgt] & Hd & Hout);
      unfold refresh_request in Hd; rewrite Hd; cbn in Hout.
    + right; left. exists e. split; [exact Hout|reflexivity].
    + right; right. destruct Hout as (sc & respBody & HDo & Hsc & -> & Hok).
      specialize (Hok _ eq_refl).
      destruct (unmarshal_RefreshTokenResponse respBody (mkRefreshTokenResponse ""))
        as [resp ok] eqn:Hu.
      cbn in Hok; subst ok. exists sc, respBody, resp. cbn.
      repeat split; try lia; eauto.
Qed.

Lemma Authenticate_cases apiKey secretKey s :
  apiKey ≠ "" → secretKey ≠ "" →
  let req := authenticate_request env (client s) apiKey secretKey in
  (∃ e, is_request_error e ∧ Authenticate env apiKey secretKey s = (Fail e, s))
  ∨ (∃ e, is_request_error e ∧ Authenticate env apiKey secretKey s = (Fail e, after_send req s))
  ∨ (∃ sc respBody resp,
       Do env (HttpClient (client s)) (tick (world s)) req = DoResponse sc (ReadOk respBody)
       ∧ 200 <= sc < 300
       ∧ unmarshal_AuthenticationResponse respBody (mkAuthenticationResponse "" "") = (resp, true)
       ∧ Authenticate env apiKey secretKey s
         = (Ok resp, mkState (with_RefreshToken (Refresh resp)
                               (with_AccessToken (Access resp) (client s)))
                      (world (after_send req s)))).
Proof.
  intros Hk Hs req. rewrite Authenticate_eq by assumption.
  destruct (unauth_post (handleAutoRefresh env) "/usr/authenticate/"
              {[ "api_key" := apiKey; "secret_key" := secretKey ]}
              ("map[api_key:" ++ apiKey ++ " secret_key:" ++ secretKey ++ "]")
              unmarshal_AuthenticationResponse (mkAuthenticationResponse "" "") s)
    as [(_ & e & He & ->)|[_ ->]].
  - left. eauto.
  - destruct (dispatch_cases (authenticate_request env (client s) apiKey secretKey)
                unmarshal_AuthenticationResponse
                (Some (mkAuthenticationResponse "" "")) s) as ([[e|] tgt] & Hd & Hout);
      unfold authenticate_request in Hd; rewrite Hd; cbn in Hout.
    + right; left. exists e. split; [exact Hout|reflexivity].
    + right; right. destruct Hout as (sc & respBody & HDo & Hsc & -> & Hok).
      specialize (Hok _ eq_refl).
      destruct (unmarshal_AuthenticationResponse respBody (mkAuthenticationResponse "" ""))
        as [resp ok] eqn:Hu.
      cbn in Hok; subst ok. exists sc, respBody, resp. cbn.
      repeat split; try lia; eauto.
Qed.


Lemma handleAutoRefresh_eq s :
  handleAutoRefresh env s =
    let '(first, s1) :=
      if negb (String.eqb (AccessToken (client s)) "") then
        match decode env (AccessToken (client s)) with
        | Fail err => (Some err, s)
        | Ok decoded =>
            if IsExpired decoded (Now env (tick (world s)))
            then RefreshAccessToken env (after_now s)
            else (None, after_now s)
        end
      else (None, s) in
    match first with
    | Some err => (Some err, s1)
    | None =>
        if negb (String.eqb (RefreshToken (client s1)) "") then
          match decode env (RefreshToken (client s1)) with
          | Fail err => (Some err, s1)
          | Ok decoded =>
              if IsExpired decoded (Now env (tick (world s1))) then
                if String.eqb (ApiKey (client s1)) "" || String.eqb (SecretKey (client s1)) ""
                then (Some missing_credentials, after_now s1)
                else
                  match Authenticate env (ApiKey (client s1)) (SecretKey (client s1))
                          (after_now s1) with
                  | (Fail err, s2) => (Some err, s2)
                  | (Ok _, s2) => (None, s2)
                  end
              else (None, after_now s1)
          end
        else (None, s1)
    end.
Proof.
  change (handleAutoRefresh env s)
    with (handleAutoRefresh_with env (handleAutoRefresh env) s).
  unfold handleAutoRefresh_with, decode, now, after_now. run.
  fold (RefreshAccessToken env) (Authenticate env).
  destruct (negb (String.eqb (AccessToken (client s)) "")).
  - destruct (DecodeJWT _ _ _ (AccessToken (client s))) as [ja|e]; [|reflexivity].
    cbn [client world tick sent].
    destruct (IsExpired ja _).
    + destruct (RefreshAccessToken env _) as [[e|] s1]; [reflexivity|].
      cbn [client world tick sent].
      repeat (case_match; simplify_eq; cbn [client world tick sent] in *; try reflexivity).
    + cbn [client world tick sent].
      repeat (case_match; simplify_eq; cbn [client world tick sent] in *; try reflexivity).
  - cbn [client world tick sent].
    repeat (case_match; simplify_eq; cbn [client world tick sent] in *; try reflexivity).
Qed.

End PipelineFacts.

(** ** The lifecycle of the tokens *)

Section Lifecycle.
Variable env : Env.

Lemma request_error_not_missing e : is_request_error e → e ≠ missing_credentials.
Proof. intros [(g & op & ->)|(a & ->)]; discriminate. Qed.

Lemma keys_missing_eqb (c : Client) :
  ApiKey c = "" ∨ SecretKey c = "" →
  String.eqb (ApiKey c) "" || String.eqb (SecretKey c) "" = true.
Proof. intros H. apply orb_true_iff. by rewrite !String.eqb_eq. Qed.

Lemma nonempty_negb (x : string) : x ≠ "" → negb (String.eqb x "") = true.
Proof. intros H. apply String.eqb_neq in H. by rewrite H. Qed.

(** C2, as amended. Let the refresh token be present and expired and the
    API key or the secret key be empty.  If the access token is empty or
    not expired, [handleAutoRefresh] fails with the missing-credentials
    error and sends nothing.  If the access token is expired too,
    [handleAutoRefresh] calls [RefreshAccessToken] first: it returns the
    error of that call, which is never the missing-credentials error, or,
    when the call has succeeded, the missing-credentials error after the
    refresh request has been sent. *)
Theorem missing_credentials_follow_the_access_check (c : Client) (w : World) (jr : JWT) :
  RefreshToken c ≠ "" →
  decode env (RefreshToken c) = Ok jr →
  (∀ k, IsExpired jr (Now env k) = true) →
  ApiKey c = "" ∨ SecretKey c = "" →
  (AccessToken c = "" →
     handleAutoRefresh env (mkState c w)
       = (Some missing_credentials, after_now (mkState c w))
     ∧ sent (world (after_now (mkState c w))) = sent w)
  ∧ (∀ ja, AccessToken c ≠ "" → decode env (AccessToken c) = Ok ja →
       IsExpired ja (Now env (tick w)) = false →
       handleAutoRefresh env (mkState c w)
         = (Some missing_credentials, after_now (after_now (mkState c w)))
       ∧ sent (world (after_now (after_now (mkState c w)))) = sent w)
  ∧ (∀ ja, AccessToken c ≠ "" → decode env (AccessToken c) = Ok ja →
       IsExpired ja (Now env (tick w)) = true →
       match RefreshAccessToken env (after_now (mkState c w)) with
       | (Some e, s1) =>
           handleAutoRefresh env (mkState c w) = (Some e, s1)
           ∧ e ≠ missing_credentials
       | (None, s1) =>
           handleAutoRefresh env (mkState c w) = (Some missing_credentials, after_now s1)
           ∧ sent (world (after_now s1)) = (sent w ++ [refresh_request env c])%list
       end).
Proof.
  intros Hr Hjr Hexp Hkeys.
  pose proof (nonempty_negb _ Hr) as Hr'.
  pose proof (keys_missing_eqb _ Hkeys) as Hk'.
  split; [|split].
  - intros Ha. split; [|reflexivity].
    rewrite handleAutoRefresh_eq. cbn [client world].
    rewrite Ha. cbn [String.eqb negb]. cbn [client]. rewrite Hr', Hjr, Hexp, Hk'. reflexivity.
  - intros ja Ha Hja Hfresh. split; [|reflexivity].
    rewrite handleAutoRefresh_eq. cbn [client world].
    rewrite (nonempty_negb _ Ha), Hja, Hfresh. cbn [after_now client world].
    rewrite Hr', Hjr, Hexp, Hk'. reflexivity.
  - intros ja Ha Hja Hold.
    rewrite handleAutoRefresh_eq. cbn [client world].
    rewrite (nonempty_negb _ Ha), Hja, Hold.
    destruct (RefreshAccessToken_cases env (after_now (mkState c w)))
      as [(e & He & ->)|[(e & He & ->)|(sc & respBody & resp & _ & _ & _ & ->)]].
    + split; [reflexivity|]. by apply request_error_not_missing.
    + split; [reflexivity|]. by apply request_error_not_missing.
    + cbn [after_now after_send client world with_AccessToken RefreshToken ApiKey SecretKey
             tick sent].
      rewrite Hr', Hjr, Hexp, Hk'. split; reflexivity.
Qed.

(** C6. [RefreshAccessToken] leaves the refresh token, the API key, the
    secret key and the other fields of the client as they are.  When it
    succeeds, the access token is the one of the response to the refresh
    request; when it fails the access token is unchanged too. *)
Theorem refresh_overwrites_the_access_token_only (s s' : State) (err : option error) :
  RefreshAccessToken env s = (err, s') →
  RefreshToken (client s') = RefreshToken (client s)
  ∧ ApiKey (client s') = ApiKey (client s)
  ∧ SecretKey (client s') = SecretKey (client s)
  ∧ BaseUrl (client s') = BaseUrl (client s)
  ∧ HttpClient (client s') = HttpClient (client s)
  ∧ AutoRefresh (client s') = AutoRefresh (client s)
  ∧ match err with
    | Some _ => AccessToken (client s') = AccessToken (client s)
    | None =>
        ∃ statusCode respBody resp,
          Do env (HttpClient (client s)) (tick (world s)) (refresh_request env (client s))
            = DoResponse statusCode (ReadOk respBody)
          ∧ 200 <= statusCode < 300
          ∧ unmarshal_RefreshTokenResponse respBody (mkRefreshTokenResponse "") = (resp, true)
          ∧ AccessToken (client s') = Access_ resp
          ∧ sent (world s') = (sent (world s) ++ [refresh_request env (client s)])%list
    end.
Proof.
  intros H.
  destruct (RefreshAccessToken_cases env s)
    as [(e & He & Heq)|[(e & He & Heq)|(sc & respBody & resp & HDo & Hsc & Hu & Heq)]];
    rewrite Heq in H; simplify_eq; cbn; repeat split; eauto 10.
Qed.

Lemma NewClient_eq (opts : ClientOptions.t) (w : World) :
  NewClient env opts w =
    match handleAutoRefresh env (mkState (configure opts) w) with
    | (Some e, s1) => (Fail e, world s1)
    | (None, s1) =>
        if negb (String.eqb (ClientOptions.ApiKey opts) "")
           && negb (String.eqb (ClientOptions.SecretKey opts) "")
        then
          match Authenticate env (ClientOptions.ApiKey opts) (ClientOptions.SecretKey opts) s1 with
          | (Fail e, s2) => (Fail e, world s2)
          | (Ok _, s2) => (Ok (client s2), world s2)
          end
        else (Ok (client s1), world s1)
    end.
Proof.
  unfold NewClient. unfold mbind, M_bind, mret, M_ret. cbn beta iota.
  destruct (handleAutoRefresh env _) as [[e|] s1]; [reflexivity|].
  destruct (negb _ && negb _); [|reflexivity].
  destruct (Authenticate env _ _ s1) as [[resp|e] s2]; reflexivity.
Qed.

Lemma build_request_authorized
    (method url : string) (body : option body) (s s1 : State) (req : http_Request) :
  build_request env (handleAutoRefresh env) method url true body s = (Ok req, s1) →
  Header req !! "Authorization" = Some ("Bearer " ++ AccessToken (client s1))
  ∧ (if AutoRefresh (client s)
     then handleAutoRefresh env s = (None, s1)
     else s1 = s).
Proof.
  unfold build_request, request_error.
  unfold mbind, M_bind, mret, M_ret, get_client. cbn beta iota.
  destruct (if String.eqb method "GET" then _ else _) as [url'|]; [|discriminate].
  destruct (if String.eqb method "POST" then _ else _) as [reqBody|]; [|discriminate].
  destruct (NewRequest_fails env method url'); [discriminate|].
  destruct (AutoRefresh (client s)).
  - destruct (handleAutoRefresh env s) as [[e|] s2]; [discriminate|].
    destruct (assertAuth (client s2)); [discriminate|].
    intros [= <- <-]. cbn. by rewrite lookup_insert_eq.
  - destruct (assertAuth (client s)); [discriminate|].
    intros [= <- <-]. cbn. by rewrite lookup_insert_eq.
Qed.

Lemma handleAutoRefresh_without_tokens (c : Client) (w : World) :
  AccessToken c = "" → RefreshToken c = "" →
  handleAutoRefresh env (mkState c w) = (None, mkState c w).
Proof.
  intros Ha Hr. rewrite handleAutoRefresh_eq. cbn [client]. rewrite Ha. cbn. by rewrite Hr.
Qed.

(** C5, as amended. When an authenticated call of [Request] gets as far
    as its [Authorization] header and the client has [AutoRefresh] set,
    [handleAutoRefresh] has run before, without error, and the header
    carries the access token it has left; without [AutoRefresh] the state
    is untouched and the header carries the access token as it is.
    [NewClient] runs [handleAutoRefresh] once, first, on the client filled
    in from the options, whatever the flag; that does nothing when no token
    was supplied. *)
Theorem refresh_precedes_authorization_when_enabled :
  (∀ method url body s s1 req,
     build_request env (handleAutoRefresh env) method url true body s = (Ok req, s1) →
     Header req !! "Authorization" = Some ("Bearer " ++ AccessToken (client s1))
     ∧ (if AutoRefresh (client s)
        then handleAutoRefresh env s = (None, s1)
        else s1 = s))
  ∧ (∀ opts w,
       NewClient env opts w =
         match handleAutoRefresh env (mkState (configure opts) w) with
         | (Some e, s1) => (Fail e, world s1)
         | (None, s1) =>
             if negb (String.eqb (ClientOptions.ApiKey opts) "")
                && negb (String.eqb (ClientOptions.SecretKey opts) "")
             then
               match Authenticate env (ClientOptions.ApiKey opts)
                       (ClientOptions.SecretKey opts) s1 with
               | (Fail e, s2) => (Fail e, world s2)
               | (Ok _, s2) => (Ok (client s2), world s2)
               end
             else (Ok (client s1), world s1)
         end)
  ∧ (∀ c w, AccessToken c = "" → RefreshToken c = "" →
       handleAutoRefresh env (mkState c w) = (None, mkState c w)).
Proof.
  split; [|split].
  - intros method url body s s1 req. apply build_request_authorized.
  - apply NewClient_eq.
  - apply handleAutoRefresh_without_tokens.
Qed.

Lemma Authenticate_overwrites_tokens apiKey secretKey s1 s2 resp :
  Authenticate env apiKey secretKey s1 = (Ok resp, s2) →
  AccessToken (client s2) = Access resp ∧ RefreshToken (client s2) = Refresh resp.
Proof.
  intros H.
  destruct (String.eqb_spec apiKey "") as [Hk|Hk];
    [rewrite Authenticate_missing in H by auto; discriminate|].
  destruct (String.eqb_spec secretKey "") as [Hs|Hs];
    [rewrite Authenticate_missing in H by auto; discriminate|].
  destruct (Authenticate_cases env apiKey secretKey s1 Hk Hs)
    as [(e & _ & Heq)|[(e & _ & Heq)|(sc & respBody & resp' & _ & _ & _ & Heq)]];
    rewrite Heq in H; simplify_eq. split; reflexivity.
Qed.

Lemma handleAutoRefresh_sent_without_keys s x s1 :
  ApiKey (client s) = "" ∨ SecretKey (client s) = "" →
  handleAutoRefresh env s = (x, s1) →
  sent (world s1) = sent (world s)
  ∨ sent (world s1) = (sent (world s) ++ [refresh_request env (client s)])%list.
Proof.
  intros Hkeys. rewrite handleAutoRefresh_eq.
  assert (∀ s0 : State,
            ApiKey (client s0) = ApiKey (client s) → SecretKey (client s0) = SecretKey (client s) →
            ∀ x s1,
            (if negb (String.eqb (RefreshToken (client s0)) "") then
               match decode env (RefreshToken (client s0)) with
               | Fail err => (Some err, s0)
               | Ok decoded =>
                   if IsExpired decoded (Now env (tick (world s0))) then
                     if String.eqb (ApiKey (client s0)) "" || String.eqb (SecretKey (client s0)) ""
                     then (Some missing_credentials, after_now s0)
                     else
                       match Authenticate env (ApiKey (client s0)) (SecretKey (client s0))
                               (after_now s0) with
                       | (Fail err, s2) => (Some err, s2)
                       | (Ok _, s2) => (None, s2)
                       end
                   else (None, after_now s0)
               end
             else (None, s0)) = (x, s1) →
            sent (world s1) = sent (world s0)) as Hsecond.
  { intros s0 Hk Hs x' s1'. rewrite keys_missing_eqb by (rewrite Hk, Hs; exact Hkeys).
    repeat case_match; intros; simplify_eq; reflexivity. }
  destruct (negb (String.eqb (AccessToken (client s)) "")).
  - destruct (decode env (AccessToken (client s))) as [ja|e]; [|intros; simplify_eq; by left].
    destruct (IsExpired ja _).
    + destruct (RefreshAccessToken_cases env (after_now s))
        as [(e & _ & ->)|[(e & _ & ->)|(sc & respBody & resp & _ & _ & _ & ->)]].
      * intros; simplify_eq. by left.
      * intros; simplify_eq. by right.
      * intros H. apply Hsecond in H; [|reflexivity..]. right. exact H.
    + intros H. apply Hsecond in H; [|reflexivity..]. left. exact H.
  - intros H. apply Hsecond in H; [|reflexivity..]. left. exact H.
Qed.

Lemma append_cancel (a x y : string) : a ++ x = a ++ y → x = y.
Proof. induction a as [|c a IH]; cbn; [auto|]. intros [= H]. auto. Qed.

Lemma refresh_is_not_authenticate (c : Client) apiKey secretKey :
  URL (refresh_request env c) ≠ URL (authenticate_request env c apiKey secretKey).
Proof.
  unfold refresh_request, authenticate_request, createApiURI. cbn.
  intros H. apply append_cancel in H. discriminate.
Qed.

End Lifecycle.

(** ** The properties on the test bench *)

Section OnTheBench.
Import Bench.

(** C2 fails as stated: with both tokens expired and no API key, a server
    that refuses the expired refresh token makes [handleAutoRefresh] fail
    with the API error 401, after a request; and a server that accepts it
    makes it fail with the missing-credentials error, after a request too. *)
Lemma expired_pair_refreshes_first :
  decode (env_of server_401) (AccessToken expired_pair) = Ok (mkJWT "" 1000 "" 0 [] 0)
  ∧ decode (env_of server_401) (RefreshToken expired_pair) = Ok (mkJWT "" 2000 "" 0 [] 0)
  ∧ (∀ k, IsExpired (mkJWT "" 1000 "" 0 [] 0) (Now (env_of server_401) k) = true)
  ∧ (∀ k, IsExpired (mkJWT "" 2000 "" 0 [] 0) (Now (env_of server_401) k) = true)
  ∧ ApiKey expired_pair = ""
  ∧ (∃ e s',
       handleAutoRefresh (env_of server_401) (mkState expired_pair start) = (Some e, s')
       ∧ StatusCode_of e = Some 401
       ∧ e ≠ missing_credentials
       ∧ sent (world s') = [refresh_request (env_of server_401) expired_pair])
  ∧ (∃ s',
       handleAutoRefresh (env_of server_ok) (mkState expired_pair start)
         = (Some missing_credentials, s')
       ∧ sent (world s') = [refresh_request (env_of server_ok) expired_pair]
       ∧ sent (world s') ≠ sent start).
Proof.
  split; [vm_compute; reflexivity|].
  split; [vm_compute; reflexivity|].
  split; [intros; vm_compute; reflexivity|].
  split; [intros; vm_compute; reflexivity|].
  split; [reflexivity|].
  split.
  - eexists _, _. split; [vm_compute; reflexivity|].
    split; [reflexivity|]. split; [discriminate|]. vm_compute; reflexivity.
  - eexists. split; [vm_compute; reflexivity|]. split; [vm_compute; reflexivity|].
    discriminate.
Qed.


(** C2 as amended, on the bench. *)
Lemma expired_pair_reaches_the_check_after_refreshing :
  handleAutoRefresh (env_of server_ok) (mkState expired_pair start)
    = (Some missing_credentials,
       mkState (with_AccessToken "access-fresh" expired_pair)
         (mkWorld 3 [refresh_request (env_of server_ok) expired_pair]))
  ∧ handleAutoRefresh (env_of server_ok)
      (mkState (client_of "" "refresh-expired" "" "" true) start)
    = (Some missing_credentials,
       mkState (client_of "" "refresh-expired" "" "" true) (mkWorld 1 [])).
Proof.
  assert (decode (env_of server_ok) "refresh-expired" = Ok (mkJWT "" 2000 "" 0 [] 0)) as Hjr
    by (vm_compute; reflexivity).
  assert (∀ k, IsExpired (mkJWT "" 2000 "" 0 [] 0) (Now (env_of server_ok) k) = true) as Hexp
    by (intros; vm_compute; reflexivity).
  split.
  - destruct (missing_credentials_follow_the_access_check (env_of server_ok)
                expired_pair start (mkJWT "" 2000 "" 0 [] 0)) as (_ & _ & H);
      [discriminate|exact Hjr|exact Hexp|left; reflexivity|].
    specialize (H (mkJWT "" 1000 "" 0 [] 0)).
    destruct H as [H _]; [discriminate|vm_compute; reflexivity..|].
    exact H.
  - destruct (missing_credentials_follow_the_access_check (env_of server_ok)
                (client_of "" "refresh-expired" "" "" true) start (mkJWT "" 2000 "" 0 [] 0))
      as (H & _);
      [discriminate|exact Hjr|exact Hexp|left; reflexivity|].
    destruct H as [H _]; [reflexivity|]. exact H.
Defined.

(** C4 on the bench: a 404 with the body [{"detail":"not found"}]. *)
Lemma not_found_leaves_the_target :
  Request (env_of server_404) "GET" orders_url false None unmarshal_string (Some "before")
    (mkState (stale false) start)
  = ((Some (EAPI (parseErrorResponse map_to_list 404 (jq "{'detail':'not found'}"))),
      Some "before"),
     after_send (mkRequest "GET" orders_url {[ "Content-Type" := "application/json" ]} "")
       (mkState (stale false) start))
  ∧ StatusCode (parseErrorResponse map_to_list 404 (jq "{'detail':'not found'}")) = 404.
Proof.
  apply (error_status_short_circuits (env_of server_404) "GET" orders_url false None
           unmarshal_string (Some "before") (mkState (stale false) start)
           (mkRequest "GET" orders_url {[ "Content-Type" := "application/json" ]} "")
           (mkState (stale false) start) 404 (jq "{'detail':'not found'}")).
  - reflexivity.
  - reflexivity.
  - right. lia.
Defined.

(** C6 on the bench. *)
Lemma refreshing_on_the_bench :
  RefreshToken (client (RefreshAccessToken (env_of server_ok) (mkState (stale true) start)).2)
    = "refresh-fresh"
  ∧ AccessToken (client (RefreshAccessToken (env_of server_ok) (mkState (stale true) start)).2)
    = "access-fresh".
Proof.
  destruct (RefreshAccessToken (env_of server_ok) (mkState (stale true) start))
    as [err s'] eqn:H.
  pose proof (refresh_overwrites_the_access_token_only (env_of server_ok) _ _ _ H)
    as (Hr & _).
  split; [exact Hr|].
  vm_compute in H. by simplify_eq.
Defined.

(** C5 fails as stated: without [AutoRefresh], an authenticated call
    sends the expired access token and nothing else, although
    [handleAutoRefresh] would have refreshed it. *)
Lemma stale_token_goes_out_without_refresh :
  AutoRefresh (stale false) = false
  ∧ decode (env_of server_ok) (AccessToken (stale false)) = Ok (mkJWT "" 1000 "" 0 [] 0)
  ∧ IsExpired (mkJWT "" 1000 "" 0 [] 0) (Now (env_of server_ok) 0) = true
  ∧ handleAutoRefresh (env_of server_ok) (mkState (stale false) start)
    = (None, mkState (with_AccessToken "access-fresh" (stale false))
               (mkWorld 3 [refresh_request (env_of server_ok) (stale false)]))
  ∧ Request (env_of server_ok) "GET" orders_url true None unmarshal_string None
      (mkState (stale false) start)
    = ((None, None),
       mkState (stale false)
         (mkWorld 1 [mkRequest "GET" orders_url
                       {[ "Authorization" := "Bearer access-expired";
                          "Content-Type" := "application/json" ]} ""])).
Proof.
  repeat split; vm_compute; reflexivity.
Qed.

(** C5 as amended, on the bench. *)
Lemma fresh_token_goes_out_after_refresh :
  ∃ req s1,
    build_request (env_of server_ok) (handleAutoRefresh (env_of server_ok)) "GET" orders_url
      true None (mkState (stale true) start) = (Ok req, s1)
    ∧ Header req !! "Authorization" = Some "Bearer access-fresh"
    ∧ handleAutoRefresh (env_of server_ok) (mkState (stale true) start) = (None, s1)
    ∧ sent (world s1) = [refresh_request (env_of server_ok) (stale true)].
Proof.
  destruct (build_request (env_of server_ok) (handleAutoRefresh (env_of server_ok)) "GET"
              orders_url true None (mkState (stale true) start)) as [r s1] eqn:H.
  assert (∃ req, r = Ok req ∧ AccessToken (client s1) = "access-fresh"
                 ∧ sent (world s1) = [refresh_request (env_of server_ok) (stale true)])
    as (req & -> & Ha & Hs).
  { vm_compute in H. simplify_eq. eexists. split; [reflexivity|]. split; vm_compute; reflexivity. }
  exists req, s1. split; [reflexivity|].
  destruct (proj1 (refresh_precedes_authorization_when_enabled (env_of server_ok))
              _ _ _ _ _ _ H) as [Hh Hr].
  rewrite Ha in Hh. cbn [stale client_of AutoRefresh client] in Hr.
  repeat split; assumption.
Defined.

(** C9 fails as stated: both keys are given, but the access token cannot
    be decoded, and [NewClient] fails before any authentication. *)
Lemma keys_given_but_no_authentication :
  ClientOptions.ApiKey garbage_options ≠ ""
  ∧ ClientOptions.SecretKey garbage_options ≠ ""
  ∧ NewClient (env_of server_ok) garbage_options start
    = (Fail (Foreign "failed to parse token"), start)
  ∧ sent (NewClient (env_of server_ok) garbage_options start).2 = [].
Proof.
  repeat split; try discriminate; vm_compute; reflexivity.
Qed.

End OnTheBench.

(** * Further properties *)

Import Words.

(** ** The query encoder *)

Lemma add_all_values key elems (m : gmap string (list string)) :
  add_all key elems m = add_values key (map fmt_v elems) m.
Proof.
  unfold add_all. revert m. induction elems as [|e es IH]; intros m; [reflexivity|].
  cbn [foldl map]. rewrite IH. unfold add_values, Values_Add.
  destruct (map fmt_v es) as [|x xs] eqn:Hes.
  - reflexivity.
  - rewrite lookup_insert_eq, insert_insert_eq. cbn [default id].
    by rewrite <- app_assoc.
Qed.

Lemma add_field_values m (f : string * value) :
  add_field m f = add_values f.1 (field_values f) m.
Proof.
  unfold add_field, field_values.
  destruct (String.eqb f.1 "" || String.eqb f.1 "-"); [reflexivity|].
  destruct (IsZero f.2) eqn:Hz; [reflexivity|].
  destruct f.2 as [b|n|fl|s|[elems|]|elems|fs|z t]; cbn in Hz |- *;
    try rewrite Hz; try reflexivity; try apply add_all_values.
  destruct (f_eq_zero fl); reflexivity.
Qed.

Lemma lookup_add_values k l (m : gmap string (list string)) k' :
  add_values k l m !! k' =
    if decide (k = k') then
      match l with [] => m !! k' | _ => Some (default [] (m !! k') ++ l)%list end
    else m !! k'.
Proof.
  unfold add_values. destruct l as [|x l]; [by case_decide|].
  rewrite lookup_insert. case_decide; by subst.
Qed.

Lemma lookup_fields fs (m : gmap string (list string)) k :
  foldl add_field m fs !! k =
    match contributions k fs with
    | [] => m !! k
    | l => Some (default [] (m !! k) ++ l)%list
    end.
Proof.
  unfold contributions. revert m. induction fs as [|f fs IH]; intros m; [reflexivity|].
  cbn [foldl]. rewrite IH, add_field_values.
  rewrite lookup_add_values. cbn [List.filter].
  destruct (String.eqb_spec f.1 k) as [->|Hne].
  - rewrite decide_True by done. cbn [flat_map].
    destruct (field_values f) as [|x l]; [reflexivity|].
    cbn [default app]. destruct (flat_map _ _); [by rewrite app_nil_r|].
    cbn [id]. by rewrite <- app_assoc.
  - rewrite decide_False by done. reflexivity.
Qed.

Lemma lookup_encoded fs k :
  foldl add_field ∅ fs !! k =
    match contributions k fs with
    | [] => None
    | l => Some l
    end.
Proof. rewrite lookup_fields, lookup_empty. reflexivity. Qed.

Lemma append_assoc (a b c : string) : (a ++ b) ++ c = a ++ b ++ c.
Proof.
  induction a as [|x a IH]; [done|].
  change (String x ((a ++ b) ++ c) = String x (a ++ b ++ c)). by rewrite IH.
Qed.

Lemma concat_snoc sep ps x :
  String.concat sep (ps ++ [x]) =
    match ps with [] => x | _ => String.concat sep ps ++ sep ++ x end.
Proof.
  induction ps as [|p ps IH]; [reflexivity|].
  cbn [app String.concat]. destruct ps as [|q ps].
  - reflexivity.
  - cbn [app] in *. rewrite IH. by rewrite !append_assoc.
Qed.

Lemma concat_nonempty sep ps :
  Forall (λ p, p ≠ "") ps → ps ≠ [] → String.concat sep ps ≠ "".
Proof.
  intros Hall Hne. destruct ps as [|p ps]; [done|].
  inversion_clear Hall as [|?? Hp _]. cbn. destruct ps; [done|].
  destruct p; [done|]. discriminate.
Qed.

Lemma encode_values ke ps vs :
  Forall (λ p, p ≠ "") ps →
  foldl (Encode_pair ke) (String.concat "&" ps) vs
  = String.concat "&" (ps ++ map (λ v, ke ++ "=" ++ QueryEscape v) vs).
Proof.
  revert ps. induction vs as [|v vs IH]; intros ps Hps; [by rewrite app_nil_r|].
  cbn [foldl map].
  assert (Encode_pair ke (String.concat "&" ps) v
          = String.concat "&" (ps ++ [ke ++ "=" ++ QueryEscape v])) as ->.
  { unfold Encode_pair. rewrite concat_snoc. destruct ps as [|p ps]; [reflexivity|].
    destruct (String.eqb_spec (String.concat "&" (p :: ps)) "") as [He|He].
    - by apply concat_nonempty in He.
    - by rewrite !append_assoc. }
  rewrite IH.
  - by rewrite <- app_assoc.
  - apply Forall_app. split; [done|]. constructor; [|done].
    destruct ke; discriminate.
Qed.

Lemma encode_keys (values : gmap string (list string)) ps keys :
  Forall (λ p, p ≠ "") ps →
  foldl (λ buf k, foldl (Encode_pair (QueryEscape k)) buf (default [] (values !! k)))
        (String.concat "&" ps) keys
  = String.concat "&" (ps ++ flat_map (pairs_of values) keys).
Proof.
  revert ps. induction keys as [|k keys IH]; intros ps Hps; [by rewrite app_nil_r|].
  cbn [foldl flat_map]. rewrite encode_values by done.
  rewrite IH.
  - by rewrite <- app_assoc.
  - apply Forall_app. split; [done|]. apply Forall_map, Forall_forall.
    intros v _. destruct (QueryEscape k); discriminate.
Qed.

Lemma Values_Encode_join (values : gmap string (list string)) :
  Values_Encode values = String.concat "&" (flat_map (pairs_of values) (sorted_keys values)).
Proof. unfold Values_Encode. by rewrite (encode_keys values []). Qed.

(* sorted keys *)
Lemma insert_sorted_perm k l : Permutation (insert_sorted k l) (k :: l).
Proof.
  induction l as [|k' l IH]; cbn; [done|].
  destruct (String.leb k k'); [done|].
  rewrite IH. apply perm_swap.
Qed.

Lemma sorted_keys_perm (values : gmap string (list string)) :
  Permutation (sorted_keys values) (map fst (map_to_list values)).
Proof.
  unfold sorted_keys. induction (map fst (map_to_list values)) as [|k l IH]; cbn; [done|].
  rewrite insert_sorted_perm. by constructor.
Qed.

Lemma insert_sorted_sorted k l :
  LocallySorted (λ a b, String.leb a b = true) l →
  LocallySorted (λ a b, String.leb a b = true) (insert_sorted k l).
Proof.
  induction 1 as [|a|a b l Hl IH Hab]; cbn.
  - constructor.
  - destruct (String.leb k a) eqn:Hk; repeat constructor; auto.
    destruct (String.leb_total k a); congruence.
  - destruct (String.leb k a) eqn:Hk; [repeat constructor; auto|].
    cbn in IH. destruct (String.leb k b) eqn:Hkb.
    + constructor; [exact IH|]. destruct (String.leb_total k a); congruence.
    + constructor; [exact IH|exact Hab].
Qed.

Lemma sorted_keys_sorted (values : gmap string (list string)) :
  LocallySorted (λ a b, String.leb a b = true) (sorted_keys values).
Proof.
  unfold sorted_keys. induction (map fst (map_to_list values)) as [|k l IH]; cbn.
  - constructor.
  - by apply insert_sorted_sorted.
Qed.

Lemma sorted_keys_elem (values : gmap string (list string)) k :
  In k (sorted_keys values) ↔ is_Some (values !! k).
Proof.
  rewrite <- list_elem_of_In, sorted_keys_perm.
  rewrite list_elem_of_fmap. split.
  - intros ([k' v] & -> & H). apply elem_of_map_to_list in H. eauto.
  - intros [v H]. exists (k, v). split; [done|]. by apply elem_of_map_to_list.
Qed.

Lemma sorted_keys_NoDup (values : gmap string (list string)) : NoDup (sorted_keys values).
Proof. rewrite sorted_keys_perm. apply NoDup_fst_map_to_list. Qed.

(** X1. [StructToURLParams] succeeds on every struct, and its query is
    the pairs [key=value] joined by [&]: the keys are those that have
    received a value, each once, in increasing order of their bytes; under
    a key come the values of the fields with that tag, in the order of the
    fields; keys and values are escaped. *)
Theorem query_is_the_join_of_the_pairs (fields : list (string * value)) :
  let values := foldl add_field ∅ fields in
  StructToURLParams (VStruct fields)
    = Ok (String.concat "&"
            (flat_map
               (λ k, map (λ v, QueryEscape k ++ "=" ++ QueryEscape v) (contributions k fields))
               (sorted_keys values)))
  ∧ LocallySorted (λ a b, String.leb a b = true) (sorted_keys values)
  ∧ NoDup (sorted_keys values)
  ∧ ∀ k, In k (sorted_keys values) ↔ contributions k fields ≠ [].
Proof.
  intros values. split; [|split; [|split]].
  - cbn [StructToURLParams]. fold values. rewrite Values_Encode_join. f_equal. f_equal.
    apply flat_map_ext. intros k. unfold pairs_of, values.
    rewrite lookup_encoded. by destruct (contributions k fields).
  - apply sorted_keys_sorted.
  - apply sorted_keys_NoDup.
  - intros k. rewrite sorted_keys_elem. unfold values. rewrite lookup_encoded.
    destruct (contributions k fields); split; intros H; try done; try (by destruct H); eauto.
Qed.

Lemma add_values_comm k1 l1 k2 l2 (m : gmap string (list string)) :
  k1 ≠ k2 →
  add_values k1 l1 (add_values k2 l2 m) = add_values k2 l2 (add_values k1 l1 m).
Proof.
  intros Hne. unfold add_values.
  destruct l1 as [|x1 l1], l2 as [|x2 l2]; try reflexivity.
  rewrite !lookup_insert_ne by done. by apply insert_insert_ne.
Qed.

Lemma fields_permutation fs fs' (m : gmap string (list string)) :
  Permutation fs fs' → NoDup (map fst fs) →
  foldl add_field m fs = foldl add_field m fs'.
Proof.
  intros Hp. revert m. induction Hp as [|x l l' Hp IH|x y l|l l' l'' Hp1 IH1 Hp2 IH2];
    intros m Hnd; cbn [foldl].
  - reflexivity.
  - apply IH. cbn in Hnd. by apply NoDup_cons_1_2 in Hnd.
  - f_equal. rewrite !add_field_values. apply add_values_comm.
    cbn in Hnd. apply NoDup_cons_1_1 in Hnd. set_solver.
  - rewrite IH1 by done. apply IH2. by rewrite <- Hp1.
Qed.

(** X2. When no two fields of a struct have the same tag, the query does
    not depend on the order in which the struct declares its fields. *)
Theorem field_order_does_not_matter (fields fields' : list (string * value)) :
  Permutation fields fields' →
  NoDup (map fst fields) →
  StructToURLParams (VStruct fields) = StructToURLParams (VStruct fields').
Proof.
  intros Hp Hnd. cbn [StructToURLParams]. by rewrite (fields_permutation _ _ ∅ Hp Hnd).
Qed.

Lemma fields_filter fs (m : gmap string (list string)) :
  foldl add_field m fs = foldl add_field m (List.filter (λ f, negb (skipped f)) fs).
Proof.
  revert m. induction fs as [|f fs IH]; intros m; [reflexivity|].
  cbn [foldl List.filter]. rewrite add_field_values.
  destruct (skipped f) eqn:Hs; unfold skipped in Hs; cbn [negb].
  - destruct (field_values f); [|discriminate]. apply IH.
  - cbn [foldl]. rewrite add_field_values. apply IH.
Qed.

(** X3. The fields the loop passes over leave no trace: the query is the
    one of the struct without them.  A field is passed over when its tag
    is empty or [-] or when it holds the zero value of its type, and adding
    such a field changes nothing; a non-empty string, a non-zero integer
    and [true] under a tag are never passed over. *)
Theorem skipped_fields_leave_no_trace (fields : list (string * value)) :
  StructToURLParams (VStruct fields)
    = StructToURLParams (VStruct (List.filter (λ f, negb (skipped f)) fields))
  ∧ (∀ key v, key = "" ∨ key = "-" ∨ IsZero v = true → skipped (key, v) = true)
  ∧ (∀ key v values, skipped (key, v) = true → add_field values (key, v) = values)
  ∧ (∀ key s, key ≠ "" → key ≠ "-" → s ≠ "" → skipped (key, VString s) = false)
  ∧ (∀ key n, key ≠ "" → key ≠ "-" → n ≠ 0 → skipped (key, VInt n) = false)
  ∧ (∀ key, key ≠ "" → key ≠ "-" → skipped (key, VBool true) = false).
Proof.
  split; [|split; [|split; [|split; [|split]]]].
  - cbn [StructToURLParams]. by rewrite (fields_filter fields ∅).
  - intros key v H. unfold skipped, field_values. cbn [fst snd].
    destruct (String.eqb_spec key "") as [->|H1]; [reflexivity|].
    destruct (String.eqb_spec key "-") as [->|H2]; [reflexivity|]. cbn [orb].
    destruct H as [?|[?|H]]; [done..|]. by rewrite H.
  - intros key v values H. rewrite add_field_values. unfold skipped in H.
    by destruct (field_values (key, v)).
  - intros key s H1 H2 H3. unfold skipped, field_values. cbn [fst snd IsZero].
    apply String.eqb_neq in H1, H2, H3. by rewrite H1, H2, H3.
  - intros key n H1 H2 H3. unfold skipped, field_values. cbn [fst snd IsZero].
    apply String.eqb_neq in H1, H2. apply Z.eqb_neq in H3. by rewrite H1, H2, H3.
  - intros key H1 H2. unfold skipped, field_values. cbn [fst snd IsZero].
    apply String.eqb_neq in H1, H2. by rewrite H1, H2.
Qed.

Ltac compute_keys :=
  match goal with
  | |- context [sorted_keys ?m] =>
      let r := eval vm_compute in (sorted_keys m) in
      replace (sorted_keys m) with r by (vm_compute; reflexivity)
  end;
  cbn [flat_map pairs_of];
  repeat match goal with
    | |- context [@lookup _ _ (gmap string (list string)) _ ?k ?m] =>
        let r := eval vm_compute in (m !! k) in
        replace (m !! k) with r by (vm_compute; reflexivity)
    end.

Section Wallet.
Import GetWalletParams.

Lemma wallet_values (p : GetWalletParams.t) :
  foldl add_field ∅ [("assets,omitempty", VSlice (map VString <$> Assets p));
                     ("service,omitempty", VString (Service p));
                     ("offset,omitempty", VInt (Offset p));
                     ("limit,omitempty", VInt (Limit p))]
  = add_values "limit,omitempty" (if Limit p =? 0 then [] else [pretty (Limit p)])
      (add_values "offset,omitempty" (if Offset p =? 0 then [] else [pretty (Offset p)])
         (add_values "service,omitempty"
            (if String.eqb (Service p) "" then [] else [Service p])
            (add_values "assets,omitempty" (default [] (Assets p)) ∅))).
Proof.
  cbn [foldl]. rewrite !add_field_values. unfold field_values. cbn [fst snd IsZero].
  cbn [String.eqb Ascii.eqb Bool.eqb orb].
  do 4 f_equal. destruct (Assets p) as [l|]; [|reflexivity]. cbn.
  rewrite map_map. cbn. by rewrite map_id.
Qed.

(** X4. The query of [GetWallets].  The key of a field is its whole
    [json] tag, the option [omitempty] included, so the keys are
    [assets,omitempty], [limit,omitempty], [offset,omitempty] and
    [service,omitempty], escaped; the pairs are those of the assets, then
    of the limit, the offset and the service, each when it is not zero. *)
Theorem wallet_query_keys_keep_the_tag_options (p : GetWalletParams.t) :
  StructToURLParams (reflect p) = Ok (String.concat "&" (wallet_pairs p)).
Proof.
  unfold reflect. cbn [StructToURLParams]. rewrite wallet_values, Values_Encode_join.
  f_equal. unfold wallet_pairs.
  generalize (pretty (Limit p)) (pretty (Offset p)). intros x y.
  destruct (Limit p =? 0); destruct (Offset p =? 0); destruct (String.eqb (Service p) "");
    destruct (default [] (Assets p)) as [|a l];
    generalize (Service p); intros z; unfold add_values;
    try (generalize (a :: l); clear a l; intros vs);
    compute_keys.
  all: cbn [default app map].
  all: rewrite ?app_nil_r.
  all: try reflexivity.
Qed.

Lemma contributions_key key fields :
  contributions key fields ≠ [] → In key (map fst fields).
Proof.
  unfold contributions. induction fields as [|f fs IH]; [done|].
  cbn [List.filter map]. destruct (String.eqb_spec f.1 key) as [->|Hne].
  - intros _. by left.
  - intros H. right. by apply IH.
Qed.

End Wallet.

Section OpenOrders.
Import Endpoints.
Variable env : Env.
Variable Marshal : value → option string.

(** X5. [GetOpenOrders] ignores the state its caller has put in the
    parameters: it is [GetOrdersHistory] on the parameters with the state
    [active], and the query has the pair [state%2Comitempty=active] and no
    other pair of that key. *)
Theorem open_orders_ask_for_the_active_state {R} (unmarshal : decoder (option R))
    (params : GetOrdersHistoryParams.t) :
  (∀ state,
     GetOpenOrders env Marshal unmarshal (GetOrdersHistoryParams.with_State state params)
     = GetOpenOrders env Marshal unmarshal params)
  ∧ GetOpenOrders env Marshal unmarshal params
    = GetOrdersHistory env Marshal unmarshal
        (GetOrdersHistoryParams.with_State "active" params)
  ∧ ∃ pairs,
      StructToURLParams
        (GetOrdersHistoryParams.reflect (GetOrdersHistoryParams.with_State "active" params))
      = Ok (String.concat "&" pairs)
      ∧ In "state%2Comitempty=active" pairs
      ∧ ∀ pair, In pair pairs → String.prefix "state%2Comitempty=" pair = true →
                pair = "state%2Comitempty=active".
Proof.
  split; [reflexivity|]. split; [reflexivity|].
  unfold GetOrdersHistoryParams.reflect, GetOrdersHistoryParams.with_State.
  cbn [GetOrdersHistoryParams.Symbol GetOrdersHistoryParams.Side GetOrdersHistoryParams.State
       GetOrdersHistoryParams.Type_ GetOrdersHistoryParams.Identifier
       GetOrdersHistoryParams.Start GetOrdersHistoryParams.End_ GetOrdersHistoryParams.IdsIn
       GetOrdersHistoryParams.IdentifiersIn GetOrdersHistoryParams.Offset
       GetOrdersHistoryParams.Limit].
  set (fields := [("symbol,omitempty", _); _; _; _; _; _; _; _; _; _; _]).
  assert (contributions "state,omitempty" fields = ["active"]) as Hstate
    by (vm_compute; reflexivity).
  exists (flat_map (pairs_of (foldl add_field ∅ fields))
            (sorted_keys (foldl add_field ∅ fields))).
  split; [|split].
  - cbn [StructToURLParams]. by rewrite Values_Encode_join.
  - apply in_flat_map. exists "state,omitempty". split.
    + apply sorted_keys_elem. rewrite lookup_encoded, Hstate. by eexists.
    + unfold pairs_of. rewrite lookup_encoded, Hstate. by left.
  - intros pair Hin Hprefix. apply in_flat_map in Hin as (key & Hkey & Hin).
    unfold pairs_of in Hin. apply in_map_iff in Hin as (v & <- & Hv).
    apply sorted_keys_elem in Hkey. rewrite lookup_encoded in Hkey, Hv.
    assert (In key (map fst fields)) as Hk.
    { apply contributions_key. intros Hnil. rewrite Hnil in Hkey. by destruct Hkey. }
    cbn [map fst fields] in Hk.
    repeat (destruct Hk as [<-|Hk];
            [first [ rewrite Hstate in Hv; cbn [default] in Hv;
                     destruct Hv as [<-|[]]; reflexivity
                   | exfalso; clear -Hprefix; vm_compute in Hprefix;
                     discriminate ]|]).
    destruct Hk.
Qed.

End OpenOrders.

(** *** Escaping *)

Lemma escape_char (c : ascii) :
  (unreserved c = true ∧ Ascii.eqb c "%"%char = false ∧ Ascii.eqb c "+"%char = false)
  ∨ (unreserved c = false ∧ byte_val c = 32 ∧ c = " "%char)
  ∨ (unreserved c = false ∧ (byte_val c =? 32) = false
     ∧ is_hex (hex_digit (byte_val c / 16)) = true
     ∧ is_hex (hex_digit (byte_val c mod 16)) = true
     ∧ query_safe (hex_digit (byte_val c / 16)) = true
     ∧ query_safe (hex_digit (byte_val c mod 16)) = true
     ∧ byte_of (hex_val (hex_digit (byte_val c / 16)) * 16
                + hex_val (hex_digit (byte_val c mod 16))) = c).
Proof.
  destruct c as [[] [] [] [] [] [] [] []]; vm_compute; intuition congruence.
Qed.

Lemma QueryUnescape_QueryEscape (s : string) : QueryUnescape (QueryEscape s) = Some s.
Proof.
  induction s as [|c s IH]; [reflexivity|].
  cbn [QueryEscape].
  destruct (escape_char c) as [(Hu & Hp & Hq)|[(Hu & Hb & Hc)|(Hu & Hb & H1 & H2 & _ & _ & Hc)]].
  - rewrite Hu. cbn [QueryUnescape]. rewrite Hp, Hq, IH. reflexivity.
  - rewrite Hu, Hb. change (32 =? 32) with true. cbn iota.
    cbn [QueryUnescape]. cbn [Ascii.eqb Bool.eqb]. rewrite IH, Hc. reflexivity.
  - rewrite Hu, Hb. cbn [QueryUnescape]. cbn [Ascii.eqb Bool.eqb].
    rewrite H1, H2, IH. cbn. by rewrite Hc.
Qed.

Lemma QueryEscape_safe (s : string) :
  Forall (λ c, query_safe c = true) (list_ascii_of_string (QueryEscape s)).
Proof.
  induction s as [|c s IH]; [constructor|].
  cbn [QueryEscape].
  destruct (escape_char c) as [(Hu & Hp & Hq)|[(Hu & Hb & Hc)|(Hu & Hb & _ & _ & H1 & H2 & _)]].
  - rewrite Hu. cbn [list_ascii_of_string]. constructor; [|exact IH].
    unfold query_safe. by rewrite Hu.
  - rewrite Hu, Hb. change (32 =? 32) with true. cbn iota.
    cbn [list_ascii_of_string]. constructor; [reflexivity|exact IH].
  - rewrite Hu, Hb. cbn [list_ascii_of_string]. repeat constructor; auto.
Qed.

(** X6. [QueryEscape] writes unreserved characters, [+] and [%] only, and
    [QueryUnescape] gives the text back: two texts with the same escaped
    form are equal. *)
Theorem query_escape_is_safe_and_reversible (s : string) :
  Forall (λ c, query_safe c = true) (list_ascii_of_string (QueryEscape s))
  ∧ QueryUnescape (QueryEscape s) = Some s
  ∧ ∀ s', QueryEscape s = QueryEscape s' → s = s'.
Proof.
  split; [apply QueryEscape_safe|]. split; [apply QueryUnescape_QueryEscape|].
  intros s' H. apply (f_equal QueryUnescape) in H.
  rewrite !QueryUnescape_QueryEscape in H. congruence.
Qed.

(** ** The error normalizer *)

Lemma append_nonempty_r (a b : string) : b ≠ "" → a ++ b ≠ "".
Proof. destruct a; [done|discriminate]. Qed.

Lemma entry_text_nonempty e t : entry_text e = Some t → t ≠ "".
Proof.
  unfold entry_text. destruct e.2; [discriminate|]. intros [= <-].
  apply append_nonempty_r. discriminate.
Qed.

Lemma format_entries_from (done rest : list (string * list string)) :
  foldl formatErrorDetails_step (String.concat "; " (omap entry_text done)) rest
  = String.concat "; " (omap entry_text (done ++ rest)%list).
Proof.
  revert done. induction rest as [|e rest IH]; intros done; [by rewrite app_nil_r|].
  cbn [foldl].
  assert (formatErrorDetails_step (String.concat "; " (omap entry_text done)) e
          = String.concat "; " (omap entry_text (done ++ [e])%list)) as ->.
  { rewrite omap_app. unfold formatErrorDetails_step.
    destruct e as [field [|first more]]; cbn [omap list_omap entry_text fst snd].
    - by rewrite app_nil_r.
    - rewrite concat_snoc.
      destruct (omap entry_text done) as [|p ps] eqn:Hd; [reflexivity|].
      destruct (String.eqb_spec (String.concat "; " (p :: ps)) "") as [Hempty|_].
      + exfalso. revert Hempty. apply concat_nonempty; [|done].
        rewrite <- Hd. apply Forall_forall. intros t Ht.
        apply list_elem_of_omap in Ht as (x & _ & Hx).
        by apply entry_text_nonempty in Hx.
      + by rewrite !append_assoc. }
  rewrite IH. by rewrite <- app_assoc.
Qed.

(** X7. The text of [formatErrorDetails] is the texts [field: message] of
    the entries that have a message, made of the first message of each, in
    the order of the loop and joined by [; ].  The nil map gives the empty
    text, and the text is empty exactly when no entry has a message. *)
Theorem error_message_joins_the_first_messages
    (range : gmap string (list string) → list (string * list string))
    (entries : list (string * list string)) (details : gmap string (list string)) :
  formatErrorDetails_entries entries = String.concat "; " (omap entry_text entries)
  ∧ formatErrorDetails range (Some details)
    = String.concat "; " (omap entry_text (range details))
  ∧ formatErrorDetails range None = ""
  ∧ (formatErrorDetails_entries entries = "" ↔ Forall (λ e, e.2 = []) entries).
Proof.
  assert (∀ l, formatErrorDetails_entries l = String.concat "; " (omap entry_text l)) as H.
  { intros l. apply (format_entries_from [] l). }
  split; [apply H|]. split; [apply H|]. split; [reflexivity|].
  rewrite H. split.
  - intros Hempty. apply Forall_forall. intros e He.
    destruct e.2 as [|first more] eqn:Hfirst; [reflexivity|]. exfalso.
    revert Hempty. apply concat_nonempty.
    + apply Forall_forall. intros t Ht.
      apply list_elem_of_omap in Ht as (x & _ & Hx).
      by apply entry_text_nonempty in Hx.
    + intros Hnil.
      assert (e.1 ++ ": " ++ first ∈ omap entry_text entries) as Hin.
      { apply list_elem_of_omap. exists e. split; [done|].
        unfold entry_text. by rewrite Hfirst. }
      rewrite Hnil in Hin. by apply elem_of_nil in Hin.
  - intros Hall. assert (omap entry_text entries = []) as ->; [|reflexivity].
    induction Hall as [|[field errs] l He _ IH]; [reflexivity|].
    cbn [snd] in He. subst errs. cbn [omap list_omap entry_text snd]. exact IH.
Qed.

(** X8. A body that is not JSON, or that is JSON but neither an object
    nor [null], fails the three attempts of [parseErrorResponse]: the
    error has the body as its only detail, under [raw], and the body at the
    end of its message. *)
Theorem body_that_is_no_object_is_kept_raw
    (range : gmap string (list string) → list (string * list string))
    (statusCode : Z) (respBody : string) :
  parse respBody ≠ Some JNull →
  (∀ members, parse respBody ≠ Some (JObj members)) →
  parseErrorResponse range statusCode respBody
  = mkAPIError
      (mkGoBitpinError ("API error (status " ++ pretty statusCode ++ "): " ++ respBody) None)
      statusCode (Some {[ "raw" := [respBody] ]}).
Proof.
  intros Hnull Hobj.
  unfold parseErrorResponse, unmarshal_field_errors, unmarshal_simple, unmarshal_errResp,
    Unmarshal.
  destruct (parse respBody) as [[| | | | |members]|]; cbn; try reflexivity.
  - done.
  - by destruct (Hobj members).
Qed.

Lemma wrap_into_lookup (m : gomap string) (details : gmap string (list string)) k :
  wrap_into m details !! k
  = match default ∅ m !! k with
    | Some v => Some [v]
    | None => details !! k
    end.
Proof.
  unfold wrap_into. generalize (default ∅ m). clear m. intros m.
  apply (map_fold_weak_ind
           (λ (r : gmap string (list string)) (m : gmap string string),
              r !! k = match m !! k with Some v => Some [v] | None => details !! k end)).
  - by rewrite lookup_empty.
  - intros i x m' r Hi IH. destruct (decide (i = k)) as [->|Hne].
    + by rewrite !lookup_insert_eq.
    + by rewrite !lookup_insert_ne.
Qed.

(** X9. The details made by the second and the third attempt of
    [parseErrorResponse] have exactly one message under each key.  In the
    third attempt a key of [messages] wins over [detail] and [code], which
    are entered only when they are not empty. *)
Theorem messages_override_detail_and_code (simple : gomap string) (r : errResp) (k : string) :
  wrap_into simple ∅ !! k = (λ v, [v]) <$> (default ∅ simple !! k)
  ∧ errResp_details r !! k
    = match default ∅ (Messages r) !! k with
      | Some v => Some [v]
      | None =>
          if String.eqb k "code" then (if String.eqb (Code r) "" then None else Some [Code r])
          else if String.eqb k "detail"
               then (if String.eqb (Detail r) "" then None else Some [Detail r])
               else None
      end
  ∧ (∀ errors, errResp_details r !! k = Some errors → length errors = 1%nat)
  ∧ (∀ errors, wrap_into simple ∅ !! k = Some errors → length errors = 1%nat).
Proof.
  assert (errResp_details r !! k
          = match default ∅ (Messages r) !! k with
            | Some v => Some [v]
            | None =>
                if String.eqb k "code"
                then (if String.eqb (Code r) "" then None else Some [Code r])
                else if String.eqb k "detail"
                     then (if String.eqb (Detail r) "" then None else Some [Detail r])
                     else None
            end) as Hr.
  { unfold errResp_details. rewrite wrap_into_lookup.
    destruct (default ∅ (Messages r) !! k); [reflexivity|].
    destruct (String.eqb_spec k "code") as [->|Hc].
    - destruct (String.eqb (Code r) ""), (String.eqb (Detail r) ""); cbn [negb];
        rewrite ?lookup_insert_eq; rewrite ?lookup_insert_ne by done;
        by rewrite ?lookup_insert_eq, ?lookup_empty.
    - destruct (String.eqb_spec k "detail") as [->|Hd].
      + destruct (String.eqb (Code r) ""), (String.eqb (Detail r) ""); cbn [negb];
          rewrite ?lookup_insert_ne by done; by rewrite ?lookup_insert_eq.
      + destruct (String.eqb (Code r) ""), (String.eqb (Detail r) ""); cbn [negb];
          rewrite ?lookup_insert_ne by done; by rewrite lookup_empty. }
  assert (wrap_into simple ∅ !! k = (λ v, [v]) <$> (default ∅ simple !! k)) as Hs.
  { rewrite wrap_into_lookup, lookup_empty. by destruct (default ∅ simple !! k). }
  split; [exact Hs|]. split; [exact Hr|]. split.
  - intros errors. rewrite Hr.
    repeat case_match; intros; simplify_eq; reflexivity.
  - intros errors. rewrite Hs. destruct (default ∅ simple !! k); cbn; intros; by simplify_eq.
Qed.

(** ** The token codec *)

Lemma Unix_mono (t t' : Z) : t <= t' → Unix t <= Unix t'.
Proof. intros H. unfold Unix, Second. apply Z.div_le_mono; lia. Qed.

(** X10. [IsExpired] is [IsExpiredIn] with the window zero.  A token that
    is expired stays expired as time passes, and one expired within a
    window is expired within every longer window.  Times count in whole
    seconds: during the second of its expiry a token is not expired yet,
    and from the next second on it is. *)
Theorem expiry_only_moves_forward (j : JWT) (now : Z) :
  IsExpired j now = IsExpiredIn j now 0
  ∧ (∀ later, now <= later → IsExpired j now = true → IsExpired j later = true)
  ∧ (∀ t t', t <= t' → IsExpiredIn j now t = true → IsExpiredIn j now t' = true)
  ∧ (∀ t, t <= 0 → IsExpiredIn j now t = true → IsExpired j now = true)
  ∧ (∀ t later, now <= later → IsExpiredIn j later t = false → IsExpiredIn j now t = false)
  ∧ (Exp j * Second <= now < (Exp j + 1) * Second → IsExpired j now = false)
  ∧ ((Exp j + 1) * Second <= now → IsExpired j now = true).
Proof.
  unfold IsExpired, IsExpiredIn, Add. split; [by rewrite Z.add_0_r|].
  split; [|split; [|split; [|split; [|split]]]].
  - intros later Hle H. apply Z.ltb_lt in H. apply Z.ltb_lt.
    pose proof (Unix_mono now later Hle). lia.
  - intros t t' Hle H. apply Z.ltb_lt in H. apply Z.ltb_lt.
    pose proof (Unix_mono (now + t) (now + t')). lia.
  - intros t Hle H. apply Z.ltb_lt in H. apply Z.ltb_lt.
    pose proof (Unix_mono (now + t) now). lia.
  - intros t later Hle H. apply Z.ltb_ge in H. apply Z.ltb_ge.
    pose proof (Unix_mono (now + t) (later + t)). lia.
  - intros [H1 H2]. apply Z.ltb_ge. unfold Unix, Second in *.
    apply Z.lt_succ_r. apply Z.div_lt_upper_bound; lia.
  - intros H. apply Z.ltb_lt. unfold Unix, Second in *.
    apply Z.lt_le_trans with (Exp j + 1); [lia|].
    apply Z.div_le_lower_bound; lia.
Qed.

(* decoding leaves the expiry alone unless a key names it *)
Lemma JWT_set_Exp name v j j' :
  name ≠ "exp" → JWT_set name v j = Some j' → Exp j' = Exp j.
Proof.
  intros Hn. unfold JWT_set. apply String.eqb_neq in Hn. rewrite Hn.
  repeat case_match; intros Hset; apply bind_Some in Hset as (x & _ & [= <-]); reflexivity.
Qed.

Lemma decode_fields_Exp members j j' :
  Forall (λ kv, find_field JWT_names kv.1 ≠ Some "exp") members →
  decode_fields JWT_names JWT_set members j = Some j' →
  Exp j' = Exp j.
Proof.
  unfold decode_fields. revert j. induction members as [|kv members IH]; intros j Hall.
  - cbn. by intros [= <-].
  - inversion_clear Hall as [|?? Hkv Hrest]. cbn [foldl].
    cbn [mbind option_bind].
    destruct (find_field JWT_names kv.1) as [n|] eqn:Hn.
    + destruct (JWT_set n kv.2 j) as [j1|] eqn:Hset.
      * intros H. rewrite (IH j1 Hrest H). eapply JWT_set_Exp; [|exact Hset]. congruence.
      * intros H. exfalso. clear -H. induction members as [|kv' ms IHm]; [discriminate|].
        apply IHm. exact H.
    + apply IH. exact Hrest.
Qed.

Section NoExpiry.
Variable Claims : Type.
Variable ParseUnverified : string → option Claims.
Variable MarshalClaims : Claims → option string.

(** X11. When the claims of a token are an object in which no key names
    the field [exp], [DecodeJWT] leaves the expiry at zero, and the token
    counts as expired at every time from the first second of 1970 on. *)
Theorem token_without_expiry_counts_as_expired tokenString claims claimsJSON members j :
  ParseUnverified tokenString = Some claims →
  MarshalClaims claims = Some claimsJSON →
  parse claimsJSON = Some (JObj members) →
  Forall (λ kv, find_field JWT_names kv.1 ≠ Some "exp") members →
  DecodeJWT Claims ParseUnverified MarshalClaims tokenString = Ok j →
  Exp j = 0 ∧ ∀ now, Second <= now → IsExpired j now = true.
Proof.
  intros Hp Hm Hparse Hall. unfold DecodeJWT, Unmarshal. rewrite Hp, Hm, Hparse.
  cbn [mbind option_bind decode_struct].
  destruct (decode_fields _ _ _ _) as [j0|] eqn:Hd; [|discriminate].
  intros [= <-]. apply decode_fields_Exp in Hd; [|exact Hall]. cbn [Exp] in Hd.
  split; [exact Hd|]. intros now Hnow. unfold IsExpired. rewrite Hd. apply Z.ltb_lt.
  unfold Unix, Second in *. apply Z.lt_le_trans with 1; [lia|].
  apply Z.div_le_lower_bound; lia.
Qed.

End NoExpiry.

(** ** The client *)

Section More.
Variable env : Env.

Lemma same_settings_refl c : same_settings c c.
Proof. by repeat split. Qed.

Lemma same_settings_trans c1 c2 c3 :
  same_settings c1 c2 → same_settings c2 c3 → same_settings c1 c3.
Proof. unfold same_settings. intros (?&?&?&?&?) (?&?&?&?&?). repeat split; congruence. Qed.

Lemma extends_refl w : extends w w [].
Proof. split; [by rewrite app_nil_r|lia]. Qed.

Lemma extends_trans w1 w2 w3 l1 l2 :
  extends w1 w2 l1 → extends w2 w3 l2 → extends w1 w3 (l1 ++ l2).
Proof. intros [H1 ?] [H2 ?]. split; [|lia]. by rewrite H2, H1, app_assoc. Qed.

Lemma extends_after_now s : extends (world s) (world (after_now s)) [].
Proof. split; cbn; [by rewrite app_nil_r|lia]. Qed.

Lemma extends_after_send req s : extends (world s) (world (after_send req s)) [req].
Proof. split; cbn; [done|lia]. Qed.

(** The outcomes of [Authenticate], whatever the keys. *)
Lemma Authenticate_frame apiKey secretKey s r s' :
  Authenticate env apiKey secretKey s = (r, s') →
  same_settings (client s) (client s')
  ∧ (∃ new, extends (world s) (world s') new
       ∧ (new = [] ∨ new = [authenticate_request env (client s) apiKey secretKey]))
  ∧ match r with
    | Fail e => client s' = client s ∧ is_sdk_error e
    | Ok resp =>
        AccessToken (client s') = Access resp ∧ RefreshToken (client s') = Refresh resp
        ∧ sent (world s')
          = (sent (world s) ++ [authenticate_request env (client s) apiKey secretKey])%list
    end.
Proof.
  intros H.
  destruct (String.eqb_spec apiKey "") as [Hk|Hk];
    [rewrite Authenticate_missing in H by auto; simplify_eq;
     split; [apply same_settings_refl|]; split; [exists []; split; [apply extends_refl|by left]|];
     by split|].
  destruct (String.eqb_spec secretKey "") as [Hs|Hs];
    [rewrite Authenticate_missing in H by auto; simplify_eq;
     split; [apply same_settings_refl|]; split; [exists []; split; [apply extends_refl|by left]|];
     by split|].
  destruct (Authenticate_cases env apiKey secretKey s Hk Hs)
    as [(e & He & Heq)|[(e & He & Heq)|(sc & respBody & resp & _ & _ & _ & Heq)]];
    rewrite Heq in H; simplify_eq.
  - split; [apply same_settings_refl|]. split; [exists []; split; [apply extends_refl|by left]|].
    split; [done|]. by destruct He as [(?&?&->)|(?&->)].
  - split; [apply same_settings_refl|].
    split; [eexists; split; [apply extends_after_send|by right]|].
    split; [done|]. by destruct He as [(?&?&->)|(?&->)].
  - split; [by repeat split|].
    split; [eexists; split; [apply (extends_after_send _ s)|by right]|].
    by repeat split.
Qed.

Lemma RefreshAccessToken_frame s r s' :
  RefreshAccessToken env s = (r, s') →
  same_settings (client s) (client s')
  ∧ RefreshToken (client s') = RefreshToken (client s)
  ∧ (∃ new, extends (world s) (world s') new
       ∧ (new = [] ∨ new = [refresh_request env (client s)]))
  ∧ match r with
    | Some e => client s' = client s ∧ is_sdk_error e
    | None => sent (world s') = (sent (world s) ++ [refresh_request env (client s)])%list
    end.
Proof.
  intros H.
  destruct (RefreshAccessToken_cases env s)
    as [(e & He & Heq)|[(e & He & Heq)|(sc & respBody & resp & _ & _ & _ & Heq)]];
    rewrite Heq in H; simplify_eq.
  - split; [apply same_settings_refl|]. split; [done|].
    split; [exists []; split; [apply extends_refl|by left]|].
    split; [done|]. by destruct He as [(?&?&->)|(?&->)].
  - split; [apply same_settings_refl|]. split; [done|].
    split; [eexists; split; [apply extends_after_send|by right]|].
    split; [done|]. by destruct He as [(?&?&->)|(?&->)].
  - split; [by repeat split|]. split; [done|].
    split; [eexists; split; [apply (extends_after_send _ s)|by right]|]. done.
Qed.

Lemma handleAutoRefresh_two_checks s :
  handleAutoRefresh env s =
    match access_token_check env s with
    | (Some err, s1) => (Some err, s1)
    | (None, s1) => refresh_token_check env s1
    end.
Proof.
  rewrite handleAutoRefresh_eq. unfold access_token_check, refresh_token_check.
  destruct (if negb _ then _ else _) as [[e|] s1]; reflexivity.
Qed.

Lemma refresh_token_check_frame s r s' :
  refresh_token_check env s = (r, s') →
  same_settings (client s) (client s')
  ∧ ∃ new, extends (world s) (world s') new
      ∧ (new = []
         ∨ new = [authenticate_request env (client s) (ApiKey (client s)) (SecretKey (client s))]).
Proof.
  unfold refresh_token_check.
  destruct (negb _); [|intros; simplify_eq; split; [apply same_settings_refl|];
                       exists []; split; [apply extends_refl|by left]].
  destruct (decode env _) as [j|e]; [|intros; simplify_eq; split; [apply same_settings_refl|];
                       exists []; split; [apply extends_refl|by left]].
  destruct (IsExpired j _); [|intros; simplify_eq; split; [apply same_settings_refl|];
                       exists []; split; [apply extends_after_now|by left]].
  destruct (_ || _); [intros; simplify_eq; split; [apply same_settings_refl|];
                       exists []; split; [apply extends_after_now|by left]|].
  destruct (Authenticate env _ _ (after_now s)) as [ra s2] eqn:Ha.
  apply Authenticate_frame in Ha as (Hs & (new & Hext & Hnew) & _).
  intros H. assert (s' = s2) as -> by (destruct ra; congruence).
  split; [exact Hs|]. exists new. split; [|exact Hnew].
  apply (extends_trans _ _ _ [] new (extends_after_now s) Hext).
Qed.

Lemma access_token_check_frame s r s' :
  access_token_check env s = (r, s') →
  same_settings (client s) (client s')
  ∧ RefreshToken (client s') = RefreshToken (client s)
  ∧ ∃ new, extends (world s) (world s') new
      ∧ (new = [] ∨ new = [refresh_request env (client s)]).
Proof.
  unfold access_token_check.
  destruct (negb _); [|intros; simplify_eq; split; [apply same_settings_refl|]; split; [done|];
                       exists []; split; [apply extends_refl|by left]].
  destruct (decode env _) as [j|e]; [|intros; simplify_eq; split; [apply same_settings_refl|];
                       split; [done|]; exists []; split; [apply extends_refl|by left]].
  destruct (IsExpired j _); [|intros; simplify_eq; split; [apply same_settings_refl|];
                       split; [done|]; exists []; split; [apply extends_after_now|by left]].
  intros H. apply RefreshAccessToken_frame in H as (Hs & Hr & (new & Hext & Hnew) & _).
  split; [exact Hs|]. split; [exact Hr|]. exists new. split; [|exact Hnew].
  apply (extends_trans _ _ _ [] new (extends_after_now s) Hext).
Qed.

Lemma authenticate_request_settings c c' k sk :
  same_settings c c' → authenticate_request env c' k sk = authenticate_request env c k sk.
Proof.
  intros (_ & Hb & _). unfold authenticate_request, createApiURI. by rewrite Hb.
Qed.

Lemma handleAutoRefresh_frame s r s' :
  handleAutoRefresh env s = (r, s') →
  same_settings (client s) (client s')
  ∧ ∃ new, extends (world s) (world s') new
      ∧ ∃ refreshes authentications,
          new = (refreshes ++ authentications)%list
          ∧ (refreshes = [] ∨ refreshes = [refresh_request env (client s)])
          ∧ (authentications = []
             ∨ authentications
               = [authenticate_request env (client s) (ApiKey (client s)) (SecretKey (client s))]).
Proof.
  rewrite handleAutoRefresh_two_checks.
  destruct (access_token_check env s) as [r1 s1] eqn:H1.
  apply access_token_check_frame in H1 as (Hs1 & _ & new1 & Hext1 & Hnew1).
  destruct r1 as [e|].
  - intros [= <- <-]. split; [exact Hs1|]. exists new1. split; [exact Hext1|].
    exists new1, []. rewrite app_nil_r. auto.
  - intros H2. apply refresh_token_check_frame in H2 as (Hs2 & new2 & Hext2 & Hnew2).
    split; [by eapply same_settings_trans|].
    exists (new1 ++ new2)%list. split; [by eapply extends_trans|].
    exists new1, new2. split; [done|]. split; [done|].
    destruct Hnew2 as [->| ->]; [by left|right].
    rewrite (authenticate_request_settings _ _ _ _ Hs1).
    destruct Hs1 as (_ & _ & -> & -> & _). done.
Qed.

(** X12. [Authenticate] touches nothing but the two tokens.  When it
    fails the client is as it was, at most the authentication request has
    been sent, and the error is one of the package's own; when it succeeds
    both keys were non-empty, the request has been sent, and the two tokens
    are those of the response.  The request carries no [Authorization]
    header; with an empty key nothing is sent at all. *)
Theorem authenticate_is_all_or_nothing apiKey secretKey s :
  let '(r, s') := Authenticate env apiKey secretKey s in
  same_settings (client s) (client s')
  ∧ match r with
    | Fail e =>
        client s' = client s ∧ is_sdk_error e
        ∧ (sent (world s') = sent (world s)
           ∨ sent (world s')
             = (sent (world s) ++ [authenticate_request env (client s) apiKey secretKey])%list)
    | Ok resp =>
        apiKey ≠ "" ∧ secretKey ≠ ""
        ∧ AccessToken (client s') = Access resp ∧ RefreshToken (client s') = Refresh resp
        ∧ sent (world s')
          = (sent (world s) ++ [authenticate_request env (client s) apiKey secretKey])%list
    end
  ∧ Header (authenticate_request env (client s) apiKey secretKey) !! "Authorization" = None
  ∧ (apiKey = "" ∨ secretKey = "" → r = Fail missing_credentials ∧ s' = s).
Proof.
  destruct (Authenticate env apiKey secretKey s) as [r s'] eqn:H.
  pose proof (Authenticate_frame _ _ _ _ _ H) as (Hs & (new & [Hext _] & Hnew) & Hr).
  split; [exact Hs|]. split; [|split; [reflexivity|]].
  - destruct r as [resp|e].
    + destruct Hr as (Ha & Hr & Hsent).
      destruct (String.eqb_spec apiKey "") as [Hk|Hk];
        [rewrite Authenticate_missing in H by auto; discriminate|].
      destruct (String.eqb_spec secretKey "") as [Hk'|Hk'];
        [rewrite Authenticate_missing in H by auto; discriminate|]. done.
    + destruct Hr as (Hc & He). split; [done|]. split; [done|].
      rewrite Hext. destruct Hnew as [->| ->]; [left; by rewrite app_nil_r|by right].
  - intros Hk. rewrite Authenticate_missing in H by done. by simplify_eq.
Qed.

Lemma Request_without_token {T} method url body (unmarshal : decoder T) result s :
  AccessToken (client s) = "" ∨ RefreshToken (client s) = "" →
  AutoRefresh (client s) = false
  ∨ AccessToken (client s) = "" ∧ RefreshToken (client s) = "" →
  ∃ e, Request env method url true body unmarshal result s = ((Some e, result), s)
       ∧ is_sdk_error e.
Proof.
  intros Ha Hor.
  assert (AutoRefresh (client s) = true → handleAutoRefresh env s = (None, s)) as Hh.
  { intros Hauto. destruct Hor as [Hf|[Ha' Hr]]; [congruence|].
    destruct s as [c w]. by apply handleAutoRefresh_without_tokens. }
  assert (∃ err, assertAuth (client s) = Some err) as [err Herr].
  { unfold assertAuth. destruct Ha as [-> | ->]; [by eexists|].
    destruct (String.eqb (AccessToken (client s)) ""); by eexists. }
  unfold Request, Request_with, build_request, request_error.
  unfold mbind, M_bind, mret, M_ret, get_client.
  destruct (String.eqb method "GET"), (String.eqb method "POST"), body as [b|];
    try destruct (StructToURLParams (body_value b));
    try destruct (body_json b);
    cbn beta iota zeta;
    try (by (eexists; split; [reflexivity|exact I]));
    (destruct (NewRequest_fails env method _);
     [by (eexists; split; [reflexivity|exact I])|]);
    (destruct (AutoRefresh (client s)) eqn:Hauto; [rewrite Hh by done|]);
    rewrite Herr; cbn;
    by (eexists; split; [reflexivity|exact I]).
Qed.

Lemma build_request_cases method url auth body s r s1 :
  build_request env (handleAutoRefresh env) method url auth body s = (r, s1) →
  (s1 = s
   ∨ auth = true ∧ AutoRefresh (client s) = true ∧ ∃ x, handleAutoRefresh env s = (x, s1))
  ∧ match r with
    | Fail e =>
        (∃ g op, e = ERequest (mkRequestError g op))
        ∨ (auth = true ∧ ∃ g, e = EGoBitpin g)
    | Ok req =>
        Method req = method
        ∧ (method ≠ "GET" ∨ body = None → URL req = url)
        ∧ (∀ b, method = "GET" → body = Some b →
             ∃ query, StructToURLParams (body_value b) = Ok query
                      ∧ URL req = url ++ "?" ++ query)
        ∧ (method ≠ "POST" ∨ body = None → Body req = "")
        ∧ (∀ b, method = "POST" → body = Some b → body_json b = Some (Body req))
        ∧ Header req
          = (if auth
             then <["Authorization" := "Bearer " ++ AccessToken (client s1)]>
                    {[ "Content-Type" := "application/json" ]}
             else {[ "Content-Type" := "application/json" ]})
    end.
Proof.
  unfold build_request, request_error.
  unfold mbind, M_bind, mret, M_ret, get_client.
  destruct (String.eqb_spec method "GET") as [Hg|Hg],
           (String.eqb_spec method "POST") as [Hp|Hp], body as [b|];
    try destruct (StructToURLParams (body_value b)) eqn:Hq;
    try destruct (body_json b) eqn:Hj;
    cbn beta iota zeta;
    try (intros [= <- <-]; split; [by left|]; left; eauto);
    (destruct (NewRequest_fails env method _);
     [intros [= <- <-]; split; [by left|]; left; eauto|]);
    (destruct auth;
     [|intros [= <- <-]; split; [by left|]; cbn; repeat split;
       try congruence; try (intros [?|?]; congruence); intros; simplify_eq; eauto]);
    (destruct (AutoRefresh (client s)) eqn:Hauto;
     [destruct (handleAutoRefresh env s) as [[?|] s2] eqn:Hh|]);
    cbn beta iota;
    try destruct (assertAuth (client s2));
    try destruct (assertAuth (client s));
    intros [= <- <-];
    (split; [first [by left|right; repeat split; eauto]|]);
    try (right; split; [reflexivity|]; eauto);
    cbn; repeat split;
    try congruence; try (intros [?|?]; congruence); intros; simplify_eq; eauto.
Qed.

Lemma Request_cases {T} method url auth body (unmarshal : decoder T) result s out s' :
  Request env method url auth body unmarshal result s = (out, s') →
  ∃ built s1,
    build_request env (handleAutoRefresh env) method url auth body s = (built, s1)
    ∧ match built with
      | Fail e => out = (Some e, result) ∧ s' = s1
      | Ok req => dispatch env req unmarshal result s1 = (out, s') ∧ s' = after_send req s1
      end.
Proof.
  unfold Request, Request_with. unfold mbind, M_bind, mret, M_ret.
  destruct (build_request _ _ _ _ _ _ s) as [[req|e] s1]; intros H; do 2 eexists;
    (split; [reflexivity|]).
  - split; [exact H|].
    destruct (dispatch_cases env req unmarshal result s1) as (out' & Hd & _). congruence.
  - by simplify_eq.
Qed.

(** X13. The traffic of one call of [Request]: at most a refresh request,
    then at most an authentication request, then at most the request of
    the caller, whose [Authorization] header, when the call is
    authenticated, carries the access token the client holds at the end.
    The settings of the client are never changed, and without
    authentication or without [AutoRefresh] neither are the tokens. *)
Theorem request_traffic {T} method url auth body (unmarshal : decoder T) result s :
  let '(_, s') := Request env method url auth body unmarshal result s in
  same_settings (client s) (client s')
  ∧ (∃ refreshes authentications own,
       sent (world s') = (sent (world s) ++ refreshes ++ authentications ++ own)%list
       ∧ (refreshes = [] ∨ refreshes = [refresh_request env (client s)])
       ∧ (authentications = []
          ∨ authentications
            = [authenticate_request env (client s) (ApiKey (client s)) (SecretKey (client s))])
       ∧ (own = []
          ∨ ∃ req, own = [req] ∧ Method req = method
              ∧ Header req !! "Authorization"
                = (if auth then Some ("Bearer " ++ AccessToken (client s')) else None))
       ∧ (auth = false ∨ AutoRefresh (client s) = false →
            refreshes = [] ∧ authentications = [] ∧ client s' = client s))
  ∧ (tick (world s) <= tick (world s'))%nat.
Proof.
  destruct (Request env method url auth body unmarshal result s) as [out s'] eqn:H.
  apply Request_cases in H as (built & s1 & Hb & Hout).
  apply build_request_cases in Hb as [Hs1 Hbuilt].
  assert (same_settings (client s) (client s1)
          ∧ (∃ refreshes authentications,
               sent (world s1) = (sent (world s) ++ refreshes ++ authentications)%list
               ∧ (refreshes = [] ∨ refreshes = [refresh_request env (client s)])
               ∧ (authentications = []
                  ∨ authentications
                    = [authenticate_request env (client s) (ApiKey (client s))
                         (SecretKey (client s))])
               ∧ (auth = false ∨ AutoRefresh (client s) = false →
                    refreshes = [] ∧ authentications = [] ∧ client s1 = client s))
          ∧ (tick (world s) <= tick (world s1))%nat) as (Hset & Hsent & Htick).
  { destruct Hs1 as [->|(Hauth & Hauto & x & Hh)].
    - split; [apply same_settings_refl|]. split; [|lia].
      exists [], []. rewrite !app_nil_r. repeat split; auto.
    - apply handleAutoRefresh_frame in Hh
        as (Hset & new & [Hsent Htick] & rs & au & -> & Hrs & Hau).
      split; [exact Hset|]. split; [|exact Htick].
      exists rs, au. split; [exact Hsent|]. split; [exact Hrs|]. split; [exact Hau|].
      intros [?|?]; congruence. }
  destruct Hsent as (rs & au & Hsent & Hrs & Hau & Hoff).
  destruct built as [req|e].
  - destruct Hout as [_ ->]. destruct Hbuilt as (Hm & _ & _ & _ & _ & Hh).
    cbn [after_send client world sent tick]. split; [exact Hset|]. split; [|lia].
    exists rs, au, [req]. rewrite Hsent, <- !app_assoc.
    split; [reflexivity|]. split; [exact Hrs|]. split; [exact Hau|]. split; [|exact Hoff].
    right. exists req. split; [reflexivity|]. split; [exact Hm|]. rewrite Hh.
    destruct auth; [by rewrite lookup_insert_eq|reflexivity].
  - destruct Hout as [_ ->]. split; [exact Hset|]. split; [|exact Htick].
    exists rs, au, []. rewrite Hsent, !app_nil_r.
    split; [reflexivity|]. split; [exact Hrs|]. split; [exact Hau|]. split; [by left|exact Hoff].
Qed.

(** X14. The outcomes of [Request].  It returns no error exactly after a
    response with a status code in [200, 300) has been read and, when there
    is a target, decoded into it.  Its errors are of the package's own
    types: an API error stands for a response outside [200, 300) and is
    the one [parseErrorResponse] makes of it; a plain error of the package
    comes from an authenticated call only; and the target is as the caller
    passed it unless the decoding of the response has failed. *)
Theorem request_outcomes {T} method url auth body (unmarshal : decoder T) result s :
  match Request env method url auth body unmarshal result s with
  | ((None, out), s') =>
      ∃ req statusCode respBody,
        last (sent (world s')) = Some req
        ∧ Do env (HttpClient (client s')) (pred (tick (world s'))) req
          = DoResponse statusCode (ReadOk respBody)
        ∧ 200 <= statusCode < 300
        ∧ out = (λ target, (unmarshal respBody target).1) <$> result
        ∧ ∀ target, result = Some target → (unmarshal respBody target).2 = true
  | ((Some (Foreign _), _), _) => False
  | ((Some (EGoBitpin _), out), _) => auth = true ∧ out = result
  | ((Some (ERequest r), out), _) => out = result ∨ Operation r = "parsing response"
  | ((Some (EAPI a), out), _) =>
      out = result
      ∧ (StatusCode a < 200 ∨ 300 <= StatusCode a)
      ∧ ∃ respBody, a = parseErrorResponse (map_range env) (StatusCode a) respBody
  end.
Proof.
  destruct (Request env method url auth body unmarshal result s) as [[e out] s'] eqn:H.
  apply Request_cases in H as (built & s1 & Hb & Hout).
  apply build_request_cases in Hb as [_ Hbuilt].
  destruct built as [req|e'].
  - destruct Hout as [Hd ->]. clear Hbuilt.
    revert Hd. unfold dispatch, request_error.
    unfold mbind, M_bind, mret, M_ret, send. cbn beta iota.
    destruct (Do env _ _ req) as [|sc [respBody|]] eqn:HDo; cbn beta iota.
    + intros [= <- <-]. by left.
    + destruct ((sc <? 200) || (sc >=? 300)) eqn:Hsc.
      * intros [= <- <-].
        assert (StatusCode (parseErrorResponse (map_range env) sc respBody) = sc) as Hst.
        { unfold parseErrorResponse. repeat case_match; reflexivity. }
        rewrite Hst. split; [reflexivity|]. split; [|by exists respBody].
        apply orb_true_iff in Hsc. rewrite Z.geb_leb, Z.ltb_lt, Z.leb_le in Hsc. lia.
      * apply orb_false_iff in Hsc as [H1 H2].
        apply Z.ltb_ge in H1. rewrite Z.geb_leb in H2. apply Z.leb_gt in H2.
        assert (last (sent (world (after_send req s1))) = Some req) as Hlast.
        { cbn. apply last_snoc. }
        destruct result as [t|].
        -- destruct (unmarshal respBody t) as [t' []] eqn:Hu.
           ++ intros [= <- <-]. exists req, sc, respBody.
              cbn [after_send client world tick pred fmap option_fmap option_map].
              rewrite Hu. repeat split; auto; try lia. intros ? [= <-]. by rewrite Hu.
           ++ intros [= <- <-]. by right.
        -- intros [= <- <-]. exists req, sc, respBody. cbn [after_send client world tick pred].
           repeat split; auto; try lia. discriminate.
    + intros [= <- <-]. by left.
  - destruct Hout as [[= -> ->] _].
    destruct Hbuilt as [(g & op & ->)|(Hauth & g & ->)]; [by left|by split].
Qed.

(** X15. What [Request] makes of its argument [body]: a [GET] turns it
    into the query of the URL, a [POST] into the body of the request, and a
    request of any other method is the same as without it.  Every request
    built has the method asked for and the content type
    [application/json]. *)
Theorem only_get_and_post_use_the_body method url auth body s :
  match build_request env (handleAutoRefresh env) method url auth body s with
  | (Ok req, _) =>
      Method req = method
      ∧ Header req !! "Content-Type" = Some "application/json"
      ∧ (method ≠ "GET" ∨ body = None → URL req = url)
      ∧ (∀ b, method = "GET" → body = Some b →
           ∃ query, StructToURLParams (body_value b) = Ok query
                    ∧ URL req = url ++ "?" ++ query)
      ∧ (method ≠ "POST" ∨ body = None → Body req = "")
      ∧ (∀ b, method = "POST" → body = Some b → body_json b = Some (Body req))
  | (Fail _, _) => True
  end
  ∧ (method ≠ "GET" → method ≠ "POST" →
     ∀ T (unmarshal : decoder T) result,
       Request env method url auth body unmarshal result s
       = Request env method url auth None unmarshal result s).
Proof.
  split.
  - destruct (build_request _ _ _ _ _ _ s) as [[req|e] s1] eqn:Hb; [|exact I].
    apply build_request_cases in Hb as [_ (Hm & Hu & Hq & Hb & Hj & Hh)].
    split; [exact Hm|]. split; [|by repeat split].
    rewrite Hh. destruct auth; [|reflexivity].
    by rewrite lookup_insert_ne.
  - intros Hg Hp T unmarshal result.
    unfold Request, Request_with, build_request.
    apply String.eqb_neq in Hg, Hp. by rewrite Hg, Hp.
Qed.

Lemma handleAutoRefresh_valid s :
  (AccessToken (client s) = ""
   ∨ ∃ ja, decode env (AccessToken (client s)) = Ok ja
           ∧ ∀ k, IsExpired ja (Now env k) = false) →
  (RefreshToken (client s) = ""
   ∨ ∃ jr, decode env (RefreshToken (client s)) = Ok jr
           ∧ ∀ k, IsExpired jr (Now env k) = false) →
  ∃ s', handleAutoRefresh env s = (None, s')
        ∧ client s' = client s ∧ sent (world s') = sent (world s).
Proof.
  intros Ha Hr. rewrite handleAutoRefresh_eq.
  assert (∀ s0, client s0 = client s →
            ∃ s', (if negb (String.eqb (RefreshToken (client s0)) "") then
                     match decode env (RefreshToken (client s0)) with
                     | Fail err => (Some err, s0)
                     | Ok decoded =>
                         if IsExpired decoded (Now env (tick (world s0))) then
                           if String.eqb (ApiKey (client s0)) ""
                              || String.eqb (SecretKey (client s0)) ""
                           then (Some missing_credentials, after_now s0)
                           else
                             match Authenticate env (ApiKey (client s0)) (SecretKey (client s0))
                                     (after_now s0) with
                             | (Fail err, s2) => (Some err, s2)
                             | (Ok _, s2) => (None, s2)
                             end
                         else (None, after_now s0)
                     end
                   else (None, s0)) = (None, s')
                  ∧ client s' = client s0 ∧ sent (world s') = sent (world s0)) as Hsecond.
  { intros s0 Hc. rewrite Hc.
    destruct (String.eqb_spec (RefreshToken (client s)) "") as [He|He]; cbn [negb]; [eauto|].
    destruct Hr as [?|(jr & -> & Hfresh)]; [done|]. rewrite Hfresh. eauto. }
  destruct (String.eqb_spec (AccessToken (client s)) "") as [He|He]; cbn [negb].
  - apply Hsecond. reflexivity.
  - destruct Ha as [?|(ja & -> & Hfresh)]; [done|]. rewrite Hfresh.
    destruct (Hsecond (after_now s) eq_refl) as (s' & -> & Hc & Hs). eauto.
Qed.

(** X16. When each token of the client is empty or decodes to a token
    that is not expired, [handleAutoRefresh] returns without error, sends
    nothing and leaves the client as it is; an authenticated [Request]
    then sends at most its own request, with the access token of the
    client in the [Authorization] header. *)
Theorem valid_tokens_need_no_refresh s :
  (AccessToken (client s) = ""
   ∨ ∃ ja, decode env (AccessToken (client s)) = Ok ja
           ∧ ∀ k, IsExpired ja (Now env k) = false) →
  (RefreshToken (client s) = ""
   ∨ ∃ jr, decode env (RefreshToken (client s)) = Ok jr
           ∧ ∀ k, IsExpired jr (Now env k) = false) →
  (∃ s', handleAutoRefresh env s = (None, s')
         ∧ client s' = client s ∧ sent (world s') = sent (world s))
  ∧ ∀ T method url body (unmarshal : decoder T) result,
      let '(_, s') := Request env method url true body unmarshal result s in
      client s' = client s
      ∧ (sent (world s') = sent (world s)
         ∨ ∃ req, sent (world s') = (sent (world s) ++ [req])%list
             ∧ Header req !! "Authorization" = Some ("Bearer " ++ AccessToken (client s))).
Proof.
  intros Ha Hr. pose proof (handleAutoRefresh_valid s Ha Hr) as (s0 & Hh & Hc & Hs).
  split; [eauto|].
  intros T method url body unmarshal result.
  destruct (Request env method url true body unmarshal result s) as [out s'] eqn:H.
  apply Request_cases in H as (built & s1 & Hb & Hout).
  apply build_request_cases in Hb as [Hs1 Hbuilt].
  assert (client s1 = client s ∧ sent (world s1) = sent (world s)) as [Hc1 Hsent1].
  { destruct Hs1 as [->|(_ & _ & x & Hx)]; [done|].
    rewrite Hh in Hx. by simplify_eq. }
  destruct built as [req|e].
  - destruct Hout as [_ ->]. destruct Hbuilt as (_ & _ & _ & _ & _ & Hhead).
    cbn [after_send client world sent]. split; [exact Hc1|]. right. exists req.
    rewrite Hsent1, Hhead, Hc1. split; [reflexivity|]. by rewrite lookup_insert_eq.
  - destruct Hout as [_ ->]. split; [exact Hc1|]. by left.
Qed.

(** X17. When the access token is expired and [RefreshAccessToken]
    fails, [handleAutoRefresh] fails with the same error at once, whatever
    the state of the refresh token and of the keys: the client is as it
    was, and nothing but the refresh request may have been sent. *)
Theorem failed_refresh_blocks_reauthentication s ja e s1 :
  AccessToken (client s) ≠ "" →
  decode env (AccessToken (client s)) = Ok ja →
  IsExpired ja (Now env (tick (world s))) = true →
  RefreshAccessToken env (after_now s) = (Some e, s1) →
  handleAutoRefresh env s = (Some e, s1)
  ∧ is_request_error e
  ∧ client s1 = client s
  ∧ (sent (world s1) = sent (world s)
     ∨ sent (world s1) = (sent (world s) ++ [refresh_request env (client s)])%list).
Proof.
  intros Ha Hja Hexp Hr. split.
  - rewrite handleAutoRefresh_eq.
    apply String.eqb_neq in Ha. rewrite Ha, Hja, Hexp, Hr. reflexivity.
  - destruct (RefreshAccessToken_cases env (after_now s))
      as [(e' & He & Heq)|[(e' & He & Heq)|(sc & respBody & resp & _ & _ & _ & Heq)]];
      rewrite Heq in Hr; simplify_eq; cbn; auto.
Qed.

Lemma handleAutoRefresh_fails_frame s e' s' :
  handleAutoRefresh env s = (e', s') →
  RefreshToken (client s) ≠ "" →
  (∃ e, decode env (RefreshToken (client s)) = Fail e) →
  same_settings (client s) (client s')
  ∧ RefreshToken (client s') = RefreshToken (client s)
  ∧ (sent (world s') = sent (world s)
     ∨ sent (world s') = (sent (world s) ++ [refresh_request env (client s)])%list)
  ∧ e' ≠ None.
Proof.
  intros H Hr [e Hd]. rewrite handleAutoRefresh_two_checks in H.
  destruct (access_token_check env s) as [first s1] eqn:Hac.
  pose proof (access_token_check_frame _ _ _ Hac) as (Hset & Hrt & new & [Hsent _] & Hnew).
  assert (sent (world s1) = sent (world s)
          ∨ sent (world s1) = (sent (world s) ++ [refresh_request env (client s)])%list)
    as Hshape.
  { rewrite Hsent. destruct Hnew as [-> | ->]; [left; apply app_nil_r|by right]. }
  destruct first as [err|].
  - simplify_eq. split; [exact Hset|]. split; [exact Hrt|]. split; [exact Hshape|]. done.
  - unfold refresh_token_check in H. rewrite Hrt, (nonempty_negb _ Hr), Hd in H.
    simplify_eq. split; [exact Hset|]. split; [exact Hrt|]. split; [exact Hshape|]. done.
Qed.

(** X18. A token that [DecodeJWT] cannot decode makes [handleAutoRefresh]
    fail.  When it is the access token, the error is the one of the
    decoder and nothing is sent or changed.  When it is the refresh
    token, the step on the access token comes first: with an access token
    that is empty or not expired the error of the decoder is returned and
    nothing is sent; with an expired one the refresh request goes out, and
    the error is that of a failed refresh or, after the access token has
    been replaced, the one of the decoder.  In every case the settings and
    the refresh token are unchanged and nothing but the refresh request
    is sent, also by an authenticated [Request] of a client with
    [AutoRefresh], which fails without sending the request of its
    caller. *)
Theorem undecodable_token_stops_the_refresh s :
  (∀ e, AccessToken (client s) ≠ "" → decode env (AccessToken (client s)) = Fail e →
     handleAutoRefresh env s = (Some e, s))
  ∧ (∀ e, RefreshToken (client s) ≠ "" → decode env (RefreshToken (client s)) = Fail e →
       (AccessToken (client s) = "" → handleAutoRefresh env s = (Some e, s))
       ∧ (∀ ja, AccessToken (client s) ≠ "" → decode env (AccessToken (client s)) = Ok ja →
            IsExpired ja (Now env (tick (world s))) = false →
            handleAutoRefresh env s = (Some e, after_now s))
       ∧ (∀ ja, AccessToken (client s) ≠ "" → decode env (AccessToken (client s)) = Ok ja →
            IsExpired ja (Now env (tick (world s))) = true →
            match RefreshAccessToken env (after_now s) with
            | (Some e1, s1) => handleAutoRefresh env s = (Some e1, s1)
            | (None, s1) =>
                handleAutoRefresh env s = (Some e, s1)
                ∧ sent (world s1) = (sent (world s) ++ [refresh_request env (client s)])%list
            end))
  ∧ (∀ e,
       AccessToken (client s) ≠ "" ∧ decode env (AccessToken (client s)) = Fail e
       ∨ RefreshToken (client s) ≠ "" ∧ decode env (RefreshToken (client s)) = Fail e →
       (∃ e' s',
          handleAutoRefresh env s = (Some e', s')
          ∧ same_settings (client s) (client s')
          ∧ RefreshToken (client s') = RefreshToken (client s)
          ∧ (sent (world s') = sent (world s)
             ∨ sent (world s') = (sent (world s) ++ [refresh_request env (client s)])%list))
       ∧ ∀ T method url body (unmarshal : decoder T) result,
           AutoRefresh (client s) = true →
           ∃ e' s',
             Request env method url true body unmarshal result s = ((Some e', result), s')
             ∧ (sent (world s') = sent (world s)
                ∨ sent (world s') = (sent (world s) ++ [refresh_request env (client s)])%list)).
Proof.
  assert (∀ e, AccessToken (client s) ≠ "" → decode env (AccessToken (client s)) = Fail e →
            handleAutoRefresh env s = (Some e, s)) as Haccess.
  { intros e Ha Hd. rewrite handleAutoRefresh_eq.
    apply String.eqb_neq in Ha. by rewrite Ha, Hd. }
  assert (∀ e, AccessToken (client s) ≠ "" ∧ decode env (AccessToken (client s)) = Fail e
               ∨ RefreshToken (client s) ≠ "" ∧ decode env (RefreshToken (client s)) = Fail e →
            ∃ e' s',
              handleAutoRefresh env s = (Some e', s')
              ∧ same_settings (client s) (client s')
              ∧ RefreshToken (client s') = RefreshToken (client s)
              ∧ (sent (world s') = sent (world s)
                 ∨ sent (world s')
                   = (sent (world s) ++ [refresh_request env (client s)])%list)) as Hfails.
  { intros e [[Ha Hd]|[Hr Hd]].
    - exists e, s. split; [by apply Haccess|]. split; [apply same_settings_refl|].
      split; [reflexivity|by left].
    - destruct (handleAutoRefresh env s) as [e' s'] eqn:Hh.
      destruct (handleAutoRefresh_fails_frame _ _ _ Hh Hr) as (Hset & Hrt & Hsent & Hne); [eauto|].
      destruct e' as [e'|]; [|done]. exists e', s'. split; [reflexivity|].
      split; [exact Hset|]. split; [exact Hrt|exact Hsent]. }
  split; [exact Haccess|]. split; [|intros e H; split; [by apply (Hfails e)|]].
  - intros e Hr Hd. pose proof (nonempty_negb _ Hr) as Hr'. split; [|split].
    + intros Ha. rewrite handleAutoRefresh_eq. rewrite Ha. cbn [String.eqb negb].
      by rewrite Hr', Hd.
    + intros ja Ha Hja Hfresh. rewrite handleAutoRefresh_eq.
      rewrite (nonempty_negb _ Ha), Hja, Hfresh. cbn [after_now client].
      by rewrite Hr', Hd.
    + intros ja Ha Hja Hold. rewrite handleAutoRefresh_eq.
      rewrite (nonempty_negb _ Ha), Hja, Hold.
      destruct (RefreshAccessToken_cases env (after_now s))
        as [(e1 & _ & ->)|[(e1 & _ & ->)|(sc & respBody & resp & _ & _ & _ & ->)]];
        [reflexivity..|].
      cbn [after_now after_send client world with_AccessToken RefreshToken sent].
      by rewrite Hr', Hd.
  - intros T method url body unmarshal result Hauto.
    destruct (Hfails e H) as (e' & s' & Hh & _ & _ & Hsent).
    unfold Request, Request_with, build_request, request_error.
    unfold mbind, M_bind, mret, M_ret, get_client.
    destruct (String.eqb method "GET"), (String.eqb method "POST"), body as [b|];
      try destruct (StructToURLParams (body_value b));
      try destruct (body_json b);
      cbn beta iota zeta;
      try (by (eexists _, _; split; [reflexivity|by left]));
      (destruct (NewRequest_fails env method _);
       [by (eexists _, _; split; [reflexivity|by left])|]);
      rewrite Hauto, Hh; cbn beta iota;
      by (eexists _, _; split; [reflexivity|exact Hsent]).
Qed.

Lemma Authenticate_sends apiKey secretKey s :
  apiKey ≠ "" → secretKey ≠ "" →
  let authentication := authenticate_request env (client s) apiKey secretKey in
  if NewRequest_fails env "POST" (URL authentication)
  then ∃ e, Authenticate env apiKey secretKey s = (Fail e, s)
  else ∃ r s', Authenticate env apiKey secretKey s = (r, s')
         ∧ same_settings (client s) (client s')
         ∧ sent (world s') = (sent (world s) ++ [authentication])%list.
Proof.
  intros Hk Hs authentication. rewrite Authenticate_eq by assumption.
  destruct (unauth_post env (handleAutoRefresh env) "/usr/authenticate/"
              {[ "api_key" := apiKey; "secret_key" := secretKey ]}
              ("map[api_key:" ++ apiKey ++ " secret_key:" ++ secretKey ++ "]")
              unmarshal_AuthenticationResponse (mkAuthenticationResponse "" "") s)
    as [(Hn & e & He & ->)|[Hn ->]];
    unfold authentication, authenticate_request; cbn [URL]; rewrite Hn.
  - by exists e.
  - destruct (dispatch_cases env (authenticate_request env (client s) apiKey secretKey)
                unmarshal_AuthenticationResponse
                (Some (mkAuthenticationResponse "" "")) s) as ([[e|] tgt] & Hd & _);
      unfold authenticate_request in Hd; rewrite Hd.
    + eexists _, _. split; [reflexivity|]. split; [apply same_settings_refl|reflexivity].
    + eexists _, _. split; [reflexivity|]. split; [by repeat split|reflexivity].
Qed.

(** C9, as amended. [NewClient] does not depend on [AutoAuth].  With an
    empty key it never authenticates: nothing is sent during construction
    but, at most, the refresh request, which is not an authentication
    request.  With both keys it authenticates in two places.
    [handleAutoRefresh] calls [Authenticate] exactly when its step on the
    access token has not failed and the refresh token is present, decodes
    and is expired; [NewClient] itself then calls it exactly when
    [handleAutoRefresh] has returned without error, and fails with the
    error of [handleAutoRefresh] otherwise.  Each call sends one
    authentication request, unless [http.NewRequest] refuses the URL, so
    that the requests sent count the calls.  A client is returned only
    after the call of [NewClient] itself has succeeded, and its tokens are
    those of the response, whatever the caller supplied. *)
Theorem construction_authenticates_in_two_places (opts : ClientOptions.t) (w : World) :
  let s0 := mkState (configure opts) w in
  let apiKey := ClientOptions.ApiKey opts in
  let secretKey := ClientOptions.SecretKey opts in
  let authentication := authenticate_request env (configure opts) apiKey secretKey in
  (∀ b, NewClient env (with_AutoAuth b opts) w = NewClient env opts w)
  ∧ (apiKey = "" ∨ secretKey = "" →
       (sent (NewClient env opts w).2 = sent w
        ∨ sent (NewClient env opts w).2
          = (sent w ++ [refresh_request env (configure opts)])%list)
       ∧ ∀ k sk,
           URL (refresh_request env (configure opts))
           ≠ URL (authenticate_request env (configure opts) k sk))
  ∧ (apiKey ≠ "" → secretKey ≠ "" →
       let '(first, s1) := access_token_check env s0 in
       let inner :=
         match first with
         | None => refresh_token_expired env s1
         | Some _ => false
         end in
       let outer :=
         match (handleAutoRefresh env s0).1 with
         | None => true
         | Some _ => false
         end in
       (sent (world s1) = sent w
        ∨ sent (world s1) = (sent w ++ [refresh_request env (configure opts)])%list)
       ∧ sent (NewClient env opts w).2
         = (sent (world s1)
            ++ (if NewRequest_fails env "POST" (URL authentication) then []
                else (if inner then [authentication] else [])
                     ++ (if outer then [authentication] else [])))%list
       ∧ (inner = true →
            handleAutoRefresh env s0
            = match Authenticate env apiKey secretKey (after_now s1) with
              | (Fail e, s2) => (Some e, s2)
              | (Ok _, s2) => (None, s2)
              end)
       ∧ (if outer
          then NewClient env opts w
               = match Authenticate env apiKey secretKey (handleAutoRefresh env s0).2 with
                 | (Fail e, s2) => (Fail e, world s2)
                 | (Ok _, s2) => (Ok (client s2), world s2)
                 end
          else ∃ e, (handleAutoRefresh env s0).1 = Some e
                    ∧ NewClient env opts w = (Fail e, world (handleAutoRefresh env s0).2)))
  ∧ (∀ c w', apiKey ≠ "" → secretKey ≠ "" → NewClient env opts w = (Ok c, w') →
       ∃ s1 s2 resp,
         handleAutoRefresh env s0 = (None, s1)
         ∧ Authenticate env apiKey secretKey s1 = (Ok resp, s2)
         ∧ c = client s2 ∧ w' = world s2
         ∧ AccessToken c = Access resp ∧ RefreshToken c = Refresh resp).
Proof.
  intros s0 apiKey secretKey authentication.
  split; [reflexivity|]. split; [|split].
  - intros Hkeys. unfold apiKey, secretKey in Hkeys.
    split; [|intros; apply refresh_is_not_authenticate].
    rewrite NewClient_eq.
    destruct (handleAutoRefresh env (mkState (configure opts) w)) as [x s1] eqn:Hh.
    apply handleAutoRefresh_sent_without_keys in Hh; [|exact Hkeys].
    assert (negb (String.eqb (ClientOptions.ApiKey opts) "")
            && negb (String.eqb (ClientOptions.SecretKey opts) "") = false) as ->.
    { destruct Hkeys as [H | H]; rewrite H; cbn; [reflexivity|apply andb_false_r]. }
    destruct x; exact Hh.
  - intros Hk Hs.
    assert (negb (String.eqb (ClientOptions.ApiKey opts) "")
            && negb (String.eqb (ClientOptions.SecretKey opts) "") = true) as Hboth.
    { fold apiKey secretKey. by rewrite !nonempty_negb. }
    rewrite NewClient_eq, Hboth. fold s0 apiKey secretKey.
    rewrite !handleAutoRefresh_two_checks.
    destruct (access_token_check env s0) as [first s1] eqn:Hac.
    pose proof (access_token_check_frame _ _ _ Hac) as (Hset1 & _ & new & [Hsent1 _] & Hnew).
    assert (sent (world s1) = sent w
            ∨ sent (world s1) = (sent w ++ [refresh_request env (configure opts)])%list)
      as Hshape.
    { rewrite Hsent1. destruct Hnew as [-> | ->]; [left; apply app_nil_r|by right]. }
    split; [exact Hshape|].
    assert (∀ st, same_settings (client s0) (client st) →
              authenticate_request env (client st) apiKey secretKey = authentication)
      as Hreq.
    { intros st Hst. by rewrite (authenticate_request_settings _ _ _ _ Hst). }
    (* what the call of [NewClient] itself does, from a state [st] *)
    assert (∀ st, same_settings (client s0) (client st) →
              sent (match Authenticate env apiKey secretKey st with
                    | (Fail e, s2) => (Fail e, world s2)
                    | (Ok _, s2) => (Ok (client s2), world s2)
                    end).2
              = (sent (world st)
                 ++ (if NewRequest_fails env "POST" (URL authentication) then []
                     else [authentication]))%list) as Houter.
    { intros st Hst. pose proof (Authenticate_sends apiKey secretKey st Hk Hs) as Ha.
      cbn zeta in Ha. rewrite (Hreq st Hst) in Ha.
      destruct (NewRequest_fails env "POST" (URL authentication)).
      - destruct Ha as (e & ->). cbn. by rewrite app_nil_r.
      - destruct Ha as (r & s' & -> & _ & Hsent). destruct r; exact Hsent. }
    destruct first as [err|].
    + cbn [fst snd]. split; [|split; [discriminate|by exists err]].
      cbn. destruct (NewRequest_fails env "POST" _); by rewrite app_nil_r.
    + unfold refresh_token_check, refresh_token_expired.
      destruct Hset1 as (Hh1 & Hb1 & Hk1 & Hs1 & Ha1). cbn [s0 client configure ApiKey SecretKey] in Hk1, Hs1.
      rewrite Hk1, Hs1. fold apiKey secretKey.
      assert (String.eqb apiKey "" || String.eqb secretKey "" = false) as ->.
      { apply String.eqb_neq in Hk, Hs. by rewrite Hk, Hs. }
      assert (same_settings (client s0) (client s1)) as Hset1 by (by repeat split).
      destruct (negb (String.eqb (RefreshToken (client s1)) "")); cbn [andb fst snd].
      * destruct (decode env (RefreshToken (client s1))) as [jr|e]; cbn [fst snd].
        -- destruct (IsExpired jr (Now env (tick (world s1)))) eqn:Hexp; cbn [fst snd].
           ++ pose proof (Authenticate_sends apiKey secretKey (after_now s1) Hk Hs) as Ha.
              cbn zeta in Ha. rewrite (Hreq (after_now s1) Hset1) in Ha.
              destruct (NewRequest_fails env "POST" (URL authentication)) eqn:Hnf.
              ** destruct Ha as (e & ->). cbn [fst snd].
                 split; [by rewrite app_nil_r|]. split; [done|]. by exists e.
              ** destruct Ha as (r & s2 & -> & Hset2 & Hsent2). destruct r as [resp|e]; cbn [fst snd].
                 --- split; [|split; [done|reflexivity]].
                     rewrite Houter, Hsent2 by (by eapply same_settings_trans).
                     cbn. by rewrite <- app_assoc.
                 --- split; [|split; [done|by exists e]].
                     cbn. by rewrite Hsent2.
           ++ split; [|split; [discriminate|reflexivity]].
              rewrite Houter by exact Hset1. cbn.
              by destruct (NewRequest_fails env "POST" _).
        -- split; [|split; [discriminate|by exists e]].
           cbn. destruct (NewRequest_fails env "POST" _); by rewrite app_nil_r.
      * split; [|split; [discriminate|reflexivity]].
        rewrite Houter by exact Hset1. by destruct (NewRequest_fails env "POST" _).
  - intros c w' Hk Hs. rewrite NewClient_eq. fold s0 apiKey secretKey.
    rewrite !nonempty_negb by assumption. cbn [andb].
    destruct (handleAutoRefresh env s0) as [[e|] s1]; [discriminate|].
    destruct (Authenticate env apiKey secretKey s1) as [[resp|e] s2] eqn:Ha; [|discriminate].
    intros [= <- <-]. exists s1, s2, resp.
    destruct (Authenticate_overwrites_tokens env _ _ _ _ _ Ha) as [H1 H2].
    by repeat split.
Qed.

(** X19. When each token of the options is empty or not expired and a
    key is missing, [NewClient] sends nothing and returns the client
    filled in from the options. *)
Theorem construction_without_keys_sends_nothing (opts : ClientOptions.t) (w : World) :
  (ClientOptions.AccessToken opts = ""
   ∨ ∃ ja, decode env (ClientOptions.AccessToken opts) = Ok ja
           ∧ ∀ k, IsExpired ja (Now env k) = false) →
  (ClientOptions.RefreshToken opts = ""
   ∨ ∃ jr, decode env (ClientOptions.RefreshToken opts) = Ok jr
           ∧ ∀ k, IsExpired jr (Now env k) = false) →
  ClientOptions.ApiKey opts = "" ∨ ClientOptions.SecretKey opts = "" →
  ∃ w', NewClient env opts w = (Ok (configure opts), w') ∧ sent w' = sent w.
Proof.
  intros Ha Hr Hkeys. rewrite NewClient_eq.
  destruct (handleAutoRefresh_valid (mkState (configure opts) w) Ha Hr) as (s' & -> & Hc & Hs).
  assert (negb (String.eqb (ClientOptions.ApiKey opts) "")
          && negb (String.eqb (ClientOptions.SecretKey opts) "") = false) as ->.
  { destruct Hkeys as [-> | ->]; cbn; [reflexivity|apply andb_false_r]. }
  exists (world s'). by rewrite Hc.
Qed.

(** X20. With an expired refresh token, no access token and both keys,
    [NewClient] authenticates twice: once in [handleAutoRefresh], once
    more itself.  A client is returned only after the two authentication
    requests have been sent; a failure is an error of [Request], after at
    most these two requests. *)
Theorem construction_authenticates_twice (opts : ClientOptions.t) (w : World) jr :
  ClientOptions.AccessToken opts = "" →
  ClientOptions.RefreshToken opts ≠ "" →
  decode env (ClientOptions.RefreshToken opts) = Ok jr →
  IsExpired jr (Now env (tick w)) = true →
  ClientOptions.ApiKey opts ≠ "" →
  ClientOptions.SecretKey opts ≠ "" →
  let authentication :=
    authenticate_request env (configure opts)
      (ClientOptions.ApiKey opts) (ClientOptions.SecretKey opts) in
  match NewClient env opts w with
  | (Ok c, w') =>
      sent w' = (sent w ++ [authentication; authentication])%list
      ∧ same_settings (configure opts) c
  | (Fail e, w') =>
      is_request_error e
      ∧ (sent w' = sent w
         ∨ sent w' = (sent w ++ [authentication])%list
         ∨ sent w' = (sent w ++ [authentication; authentication])%list)
  end.
Proof.
  intros Ha Hr Hjr Hexp Hk Hs authentication. rewrite NewClient_eq, handleAutoRefresh_eq.
  cbn [client world configure AccessToken RefreshToken ApiKey SecretKey].
  rewrite Ha. cbn [String.eqb negb].
  cbn [client world configure AccessToken RefreshToken ApiKey SecretKey].
  rewrite (nonempty_negb _ Hr), Hjr, Hexp.
  pose proof Hk as Hk'. pose proof Hs as Hs'.
  apply String.eqb_neq in Hk', Hs'. rewrite Hk', Hs'. cbn [orb negb andb].
  set (s0 := after_now (mkState (configure opts) w)).
  destruct (Authenticate_cases env _ _ s0 Hk Hs)
    as [(e & He & ->)|[(e & He & ->)|(sc & respBody & resp & _ & _ & _ & ->)]].
  - split; [exact He|]. by left.
  - split; [exact He|]. right; left. reflexivity.
  - set (s1 := mkState _ _).
    destruct (Authenticate_cases env _ _ s1 Hk Hs)
      as [(e & He & ->)|[(e & He & ->)|(sc' & respBody' & resp' & _ & _ & _ & ->)]].
    + split; [exact He|]. right; left. reflexivity.
    + split; [exact He|]. right; right. cbn. by rewrite <- app_assoc.
    + split.
      * cbn. by rewrite <- app_assoc.
      * cbn. by repeat split.
Qed.

End More.

Section EndpointFacts.
Import Endpoints.
Variable env : Env.
Variable Marshal : value → option string.

Lemma ApiRequest_Request {T} method endpoint version auth body (unmarshal : decoder T)
    result s :
  ApiRequest env method endpoint version auth body unmarshal result s
  = Request env method (createApiURI (client s) endpoint version) auth body unmarshal result s.
Proof. reflexivity. Qed.

Lemma public_get {R} endpoint (unmarshal : decoder (option R)) s :
  let '(r, s') :=
    (r ← ApiRequest env "GET" endpoint Version false None unmarshal (Some None);
     returned r) s in
  client s' = client s
  ∧ (s' = s ∧ (∃ e, r = Fail e)
     ∨ s' = after_send
              (mkRequest "GET" (BaseUrl (client s) ++ "/api/v1" ++ endpoint)
                 {[ "Content-Type" := "application/json" ]} "") s).
Proof.
  unfold mbind, M_bind. rewrite ApiRequest_Request.
  unfold Request, Request_with, build_request, request_error.
  unfold mbind, M_bind, mret, M_ret. cbn beta iota zeta.
  cbn [String.eqb Ascii.eqb Bool.eqb].
  change (createApiURI (client s) endpoint Version)
    with (BaseUrl (client s) ++ "/api/v1" ++ endpoint).
  destruct (NewRequest_fails env "GET" _).
  - cbn. split; [reflexivity|]. left. eauto.
  - destruct (dispatch_cases env
                (mkRequest "GET" (BaseUrl (client s) ++ "/api/v1" ++ endpoint)
                   {[ "Content-Type" := "application/json" ]} "")
                unmarshal (Some None) s) as ([e tgt] & -> & _).
    destruct e; cbn; (split; [reflexivity|]); by right.
Qed.

(** X21. The five public endpoints leave the client as it is and send at
    most one request: a [GET] without body and without [Authorization]
    header to the base URL followed by [/api/v1] and the path of the
    endpoint, in which the symbol stands as it is.  When nothing is sent
    the call fails. *)
Theorem public_endpoints_send_one_plain_request {R} (unmarshal : decoder (option R))
    (symbol : string) (s : State) :
  Forall (λ '(call, endpoint),
            let '(r, s') := (call : M (result (option R))) s in
            client s' = client s
            ∧ (s' = s ∧ (∃ e, r = Fail e)
               ∨ s' = after_send
                        (mkRequest "GET" (BaseUrl (client s) ++ "/api/v1" ++ endpoint)
                           {[ "Content-Type" := "application/json" ]} "") s))
    [(GetCurrencies env unmarshal, "/mkt/currencies/");
     (GetMarkets env unmarshal, "/mkt/markets/");
     (GetTickers env unmarshal, "/mkt/tickers/");
     (GetOrderBook env unmarshal symbol, "/mth/orderbook/" ++ symbol ++ "/");
     (GetRecentTrades env unmarshal symbol, "/mth/matches/" ++ symbol ++ "/")].
Proof. repeat constructor; apply public_get. Qed.

Lemma private_call {R} method endpoint body (unmarshal : decoder (option R)) s :
  AccessToken (client s) = "" ∨ RefreshToken (client s) = "" →
  AutoRefresh (client s) = false
  ∨ AccessToken (client s) = "" ∧ RefreshToken (client s) = "" →
  ∃ e,
    (r ← ApiRequest env method endpoint Version true body unmarshal (Some None);
     returned r) s = (Fail e, s)
    ∧ is_sdk_error e.
Proof.
  intros Ha Hor. unfold mbind, M_bind. rewrite ApiRequest_Request.
  destruct (Request_without_token env method (createApiURI (client s) endpoint Version)
              body unmarshal (Some None) s Ha Hor) as (e & -> & He).
  exists e. by split.
Qed.

(** X22. On a client that lacks one of its tokens, and either does not
    refresh by itself or lacks both, the seven endpoints that need
    authentication fail with an error of the package's own, send nothing
    and change nothing. *)
Theorem private_endpoints_need_both_tokens {R} (unmarshal : decoder (option R))
    (wallet : GetWalletParams.t) (order : CreateOrderParams.t)
    (history : GetOrdersHistoryParams.t) (trades : GetUserTradesParams.t)
    (orderIds : list string) (orderId : Z) (s : State) :
  AccessToken (client s) = "" ∨ RefreshToken (client s) = "" →
  AutoRefresh (client s) = false
  ∨ AccessToken (client s) = "" ∧ RefreshToken (client s) = "" →
  Forall (λ call : M (result (option R)), ∃ e, call s = (Fail e, s) ∧ is_sdk_error e)
    [GetWallets env Marshal unmarshal wallet;
     CreateOrder env Marshal unmarshal order;
     GetOrdersHistory env Marshal unmarshal history;
     GetOpenOrders env Marshal unmarshal history;
     GetOrderStatuses env unmarshal orderIds;
     GetUserTrades env Marshal unmarshal trades]
  ∧ ∃ e, CancelOrder env orderId s = (Some e, s) ∧ is_sdk_error e.
Proof.
  intros Ha Hor. split.
  - repeat constructor; by apply private_call.
  - unfold CancelOrder. unfold mbind, M_bind, mret, M_ret. rewrite ApiRequest_Request.
    destruct (Request_without_token env "DELETE"
                (createApiURI (client s) ("/odr/orders/" ++ pretty orderId ++ "/") Version)
                None (λ _ (u : unit), (u, true)) None s Ha Hor) as (e & -> & He).
    exists e. by split.
Qed.

(** X23. [CancelOrder] sends a [DELETE] without body to
    [/api/v1/odr/orders/<id>/] and succeeds on every response with a
    status code in [200, 300), whatever its body. *)
Theorem cancel_order_accepts_any_success (orderId : Z) s req s1 statusCode respBody :
  build_request env (handleAutoRefresh env) "DELETE"
    (BaseUrl (client s) ++ "/api/v1/odr/orders/" ++ pretty orderId ++ "/") true None s
    = (Ok req, s1) →
  Do env (HttpClient (client s1)) (tick (world s1)) req
    = DoResponse statusCode (ReadOk respBody) →
  200 <= statusCode < 300 →
  CancelOrder env orderId s = (None, after_send req s1)
  ∧ Method req = "DELETE" ∧ Body req = ""
  ∧ URL req = BaseUrl (client s) ++ "/api/v1/odr/orders/" ++ pretty orderId ++ "/".
Proof.
  intros Hb HDo Hsc.
  pose proof (build_request_cases env _ _ _ _ _ _ _ Hb) as [_ (Hm & Hu & _ & Hbody & _)].
  split; [|split; [exact Hm|split; [apply Hbody; by left|apply Hu; by left]]].
  unfold CancelOrder. unfold mbind, M_bind, mret, M_ret. rewrite ApiRequest_Request.
  change (createApiURI (client s) ("/odr/orders/" ++ pretty orderId ++ "/") Version)
    with (BaseUrl (client s) ++ "/api/v1/odr/orders/" ++ pretty orderId ++ "/").
  unfold Request, Request_with. unfold mbind, M_bind, mret, M_ret. rewrite Hb.
  unfold dispatch. unfold mbind, M_bind, mret, M_ret, send. cbn beta iota. rewrite HDo.
  assert ((statusCode <? 200) || (statusCode >=? 300) = false) as ->; [|reflexivity].
  apply orb_false_iff. rewrite Z.geb_leb, Z.ltb_ge, Z.leb_gt. lia.
Qed.

End EndpointFacts.

(** ** More properties on the test bench *)

Section MoreOnTheBench.
Import Bench Cases Endpoints.

Lemma two_fields_in_either_order :
  StructToURLParams (VStruct [("b", VInt 2); ("a", VString "x y")])
  = StructToURLParams (VStruct [("a", VString "x y"); ("b", VInt 2)])
  ∧ StructToURLParams (VStruct [("a", VString "x y"); ("b", VInt 2)]) = Ok "a=x+y&b=2".
Proof.
  split; [|vm_compute; reflexivity].
  apply field_order_does_not_matter.
  - apply perm_swap.
  - apply NoDup_cons. split; [|apply NoDup_singleton].
    intros H. apply list_elem_of_singleton in H. discriminate.
Defined.

Lemma fresh_pair_is_left_alone :
  ∃ s', handleAutoRefresh (env_of server_ok) (mkState (fresh_pair true) start) = (None, s')
        ∧ client s' = fresh_pair true ∧ sent (world s') = [].
Proof.
  apply (valid_tokens_need_no_refresh (env_of server_ok) (mkState (fresh_pair true) start)).
  - right. exists (mkJWT "" 5000 "" 0 [] 0). split; [vm_compute; reflexivity|].
    intros k. vm_compute. reflexivity.
  - right. exists (mkJWT "" 6000 "" 0 [] 0). split; [vm_compute; reflexivity|].
    intros k. vm_compute. reflexivity.
Defined.

Lemma expired_pair_with_keys_is_stuck :
  ∃ e s1,
    handleAutoRefresh (env_of server_401) (mkState expired_with_keys start) = (Some e, s1)
    ∧ StatusCode_of e = Some 401
    ∧ client s1 = expired_with_keys
    ∧ sent (world s1) = [refresh_request (env_of server_401) expired_with_keys].
Proof.
  edestruct (failed_refresh_blocks_reauthentication (env_of server_401)
               (mkState expired_with_keys start) (mkJWT "" 1000 "" 0 [] 0))
    as (Hh & _ & Hc & _).
  - discriminate.
  - vm_compute. reflexivity.
  - vm_compute. reflexivity.
  - vm_compute. reflexivity.
  - eexists _, _. split; [exact Hh|]. split; [reflexivity|]. split; [exact Hc|].
    vm_compute. reflexivity.
Defined.

Lemma garbage_stops_every_call :
  handleAutoRefresh (env_of server_ok) (mkState garbage start)
  = (Some (Foreign "failed to parse token"), mkState garbage start)
  ∧ ∃ s1,
      handleAutoRefresh (env_of server_ok) (mkState garbage_refresh start)
      = (Some (Foreign "failed to parse token"), s1)
      ∧ AccessToken (client s1) = "access-fresh"
      ∧ sent (world s1) = [refresh_request (env_of server_ok) garbage_refresh].
Proof.
  split.
  - destruct (undecodable_token_stops_the_refresh (env_of server_ok) (mkState garbage start))
      as (Haccess & _).
    apply Haccess; [discriminate|vm_compute; reflexivity].
  - destruct (undecodable_token_stops_the_refresh (env_of server_ok)
                (mkState garbage_refresh start)) as (_ & Hrefresh & _).
    destruct (Hrefresh (Foreign "failed to parse token")) as (_ & _ & Hexpired);
      [discriminate|vm_compute; reflexivity|].
    specialize (Hexpired (mkJWT "" 1000 "" 0 [] 0)).
    revert Hexpired.
    destruct (RefreshAccessToken (env_of server_ok)
                (after_now (mkState garbage_refresh start)))
      as [[e1|] s1] eqn:Hr; [vm_compute in Hr; discriminate|].
    intros Hexpired.
    destruct Hexpired as [Hh Hsent]; [discriminate|vm_compute; reflexivity..|].
    exists s1. split; [exact Hh|]. split; [|exact Hsent].
    clear -Hr. vm_compute in Hr. injection Hr as <-. reflexivity.
Defined.

(** C9 as amended, on the bench: a construction that succeeds, and one
    in which [handleAutoRefresh] authenticates and fails. *)
Lemma construction_on_the_bench :
  (∃ c w,
     NewClient (env_of server_ok)
       (options_of "access-expired" "refresh-fresh" "k" "s" true) start = (Ok c, w)
     ∧ AccessToken c = "access-fresh"
     ∧ RefreshToken c = "refresh-fresh"
     ∧ sent w = [refresh_request (env_of server_ok) (stale false);
                 authenticate_request (env_of server_ok) (stale false) "k" "s"])
  ∧ (∃ e w,
       NewClient (env_of server_401) expired_refresh_options start = (Fail e, w)
       ∧ (handleAutoRefresh (env_of server_401)
            (mkState (configure expired_refresh_options) start)).1 = Some e
       ∧ StatusCode_of e = Some 401
       ∧ sent w = [authenticate_request (env_of server_401)
                     (configure expired_refresh_options) "k" "s"]).
Proof.
  split.
  - destruct (construction_authenticates_in_two_places (env_of server_ok)
                (options_of "access-expired" "refresh-fresh" "k" "s" true) start)
      as (_ & _ & Htrace & _).
    specialize (Htrace ltac:(discriminate) ltac:(discriminate)).
    vm_compute in Htrace. destruct Htrace as (_ & Hsent & _ & Hn).
    eexists _, _. split; [vm_compute; exact Hn|].
    split; [reflexivity|]. split; [reflexivity|].
    vm_compute. exact Hsent.
  - destruct (construction_authenticates_in_two_places (env_of server_401)
                expired_refresh_options start) as (_ & _ & Htrace & _).
    specialize (Htrace ltac:(discriminate) ltac:(discriminate)).
    vm_compute in Htrace. destruct Htrace as (_ & Hsent & _ & e & He & Hn).
    exists e. eexists. split; [vm_compute; exact Hn|].
    split; [vm_compute; exact He|].
    split; [clear -He; injection He as <-; reflexivity|].
    vm_compute. exact Hsent.
Defined.

Lemma fresh_options_send_nothing :
  ∃ w', NewClient (env_of server_ok) fresh_options start = (Ok (configure fresh_options), w')
        ∧ sent w' = [].
Proof.
  apply (construction_without_keys_sends_nothing (env_of server_ok) fresh_options start).
  - right. exists (mkJWT "" 5000 "" 0 [] 0). split; [vm_compute; reflexivity|].
    intros k. vm_compute. reflexivity.
  - right. exists (mkJWT "" 6000 "" 0 [] 0). split; [vm_compute; reflexivity|].
    intros k. vm_compute. reflexivity.
  - left. reflexivity.
Defined.

Lemma expired_refresh_options_authenticate_twice :
  ∃ c w',
    NewClient (env_of server_ok) expired_refresh_options start = (Ok c, w')
    ∧ sent w'
      = [authenticate_request (env_of server_ok) (configure expired_refresh_options) "k" "s";
         authenticate_request (env_of server_ok) (configure expired_refresh_options) "k" "s"].
Proof.
  pose proof (construction_authenticates_twice (env_of server_ok) expired_refresh_options
                start (mkJWT "" 2000 "" 0 [] 0)) as H.
  destruct (NewClient (env_of server_ok) expired_refresh_options start) as [[c|e] w'] eqn:Hn.
  - exists c, w'. split; [reflexivity|].
    destruct H as [H _]; try discriminate; try (vm_compute; reflexivity).
    exact H.
  - vm_compute in Hn. discriminate.
Defined.

Lemma anonymous_client_is_turned_away :
  ∃ e, CancelOrder (env_of server_ok) 7 (mkState anonymous start)
       = (Some e, mkState anonymous start).
Proof.
  destruct (private_endpoints_need_both_tokens (env_of server_ok) marshal_empty keep
              (GetWalletParams.mk None "" 0 0)
              (CreateOrderParams.mk "BTC_USDT" "limit" "buy" "" "" "" "" "" "")
              (GetOrdersHistoryParams.mk "" "" "" "" "" "" "" "" "" 0 0)
              (GetUserTradesParams.mk "" "" 0 0) [] 7 (mkState anonymous start))
    as [_ (e & He & _)].
  - left. reflexivity.
  - left. reflexivity.
  - by exists e.
Defined.

Lemma order_seven_is_cancelled :
  ∃ req s1,
    CancelOrder (env_of server_ok) 7 (mkState (fresh_pair false) start)
    = (None, after_send req s1)
    ∧ Method req = "DELETE"
    ∧ URL req = "https://api.bitpin.ir/api/v1/odr/orders/7/".
Proof.
  edestruct (cancel_order_accepts_any_success (env_of server_ok) 7
               (mkState (fresh_pair false) start)) as (Hc & Hm & _ & Hu).
  - vm_compute. reflexivity.
  - vm_compute. reflexivity.
  - lia.
  - eexists _, _. split; [exact Hc|]. split; [exact Hm|]. rewrite Hu. vm_compute. reflexivity.
Defined.

Lemma bad_gateway_page_is_kept_raw :
  Details (parseErrorResponse map_to_list 502 "<html>Bad Gateway</html>")
  = Some {[ "raw" := ["<html>Bad Gateway</html>"] ]}.
Proof.
  rewrite (body_that_is_no_object_is_kept_raw map_to_list 502 "<html>Bad Gateway</html>").
  - reflexivity.
  - vm_compute. discriminate.
  - intros members. vm_compute. discriminate.
Defined.

Lemma token_without_expiry_on_the_bench :
  DecodeJWT unit (λ _, Some tt) (λ _, Some claims_without_expiry) "t"
    = Ok (mkJWT "" 0 "a" 0 [] 0)
  ∧ IsExpired (mkJWT "" 0 "a" 0 [] 0) (1700000000 * Second) = true.
Proof.
  assert (DecodeJWT unit (λ _, Some tt) (λ _, Some claims_without_expiry) "t"
          = Ok (mkJWT "" 0 "a" 0 [] 0)) as Hd by (vm_compute; reflexivity).
  split; [exact Hd|].
  refine (proj2 (token_without_expiry_counts_as_expired unit (λ _, Some tt)
                   (λ _, Some claims_without_expiry) "t" tt claims_without_expiry
                   [("jti", JStr "a"); ("EXP ", JNum "7")] _ eq_refl eq_refl _ _ Hd) _ _).
  - vm_compute. reflexivity.
  - repeat constructor; vm_compute; discriminate.
  - vm_compute. discriminate.
Defined.

End MoreOnTheBench.
